(** * Accident-data analysis script (task_4.py): a shallow embedding

    The script is a straight-line pandas / scipy program.  Tables are
    embedded row-wise, the library calls the script makes are embedded by
    what they do on those tables, and the script itself is a computation in
    a small state-and-error monad over an object store (the data frames the
    Python variables point to) and a file system (the input CSV, the output
    directory, the images and the two exported CSV files). *)

From Stdlib Require Import Ascii QArith Qcanon Qpower Lqa.
From stdpp Require Import gmap strings pretty list fin_maps sorting.

Local Open Scope Z_scope.
Local Open Scope nat_scope.

(** ** Cells, records and frames *)

(** A cell of a table as [read_csv] delivers it: a missing value, a piece of
    text, or a number. *)
Inductive cell :=
  | Null
  | Str (s : string)
  | Num (z : Z).

#[global] Instance cell_eq_dec : EqDecision cell.
Proof. solve_decision. Defined.

Definition isnull (c : cell) : bool :=
  match c with Null => true | _ => false end.

Definition notnull (c : cell) : bool := negb (isnull c).

Definition is_str (c : cell) : bool :=
  match c with Str _ => true | _ => false end.

Definition is_num (c : cell) : bool :=
  match c with Num _ => true | _ => false end.

(** Column types.  [Category] carries the list of categories. *)
Inductive dtype :=
  | Object
  | Int64
  | Float64
  | Category (categories : list cell).

#[global] Instance dtype_eq_dec : EqDecision dtype.
Proof. solve_decision. Defined.

(** One accident record: the cells of a line, keyed by column name. *)
Abbreviation record := (gmap string cell).

(** A data frame: the column names with their types, and the rows, each
    with its index label. *)
Record frame := Frame {
  columns : list (string * dtype);
  rows : list (nat * record)
}.

(** A column taken out of a frame, [df[c]]. *)
Record series := Series {
  s_name : string;
  s_dtype : dtype;
  s_values : list cell
}.

Definition at_col (c : string) (r : record) : cell := default Null (r !! c).

Definition column_names (df : frame) : list string := (columns df).*1.

Definition has_column (df : frame) (c : string) : bool :=
  bool_decide (c ∈ column_names df).

Definition dtype_of (df : frame) (c : string) : option dtype :=
  snd <$> find (fun p => bool_decide (p.1 = c)) (columns df).

Definition column_values (df : frame) (c : string) : list cell :=
  map (fun ir => at_col c ir.2) (rows df).

(** ** The eight required columns (lines 20-22) *)

Definition cols_of_interest : list string :=
  ["Road_surface_type"; "Weather_conditions"; "Light_conditions";
   "Types_of_Junction"; "Lanes_or_Medians"; "Cause_of_accident";
   "Accident_severity"; "Type_of_collision"].

Definition severity : string := "Accident_severity".

(** A row is complete on [subset] when none of those cells is missing. *)
Definition complete_on (subset : list string) (r : record) : bool :=
  forallb (fun c => notnull (at_col c r)) subset.

(** ** Errors a run can die of *)
Inductive error :=
  | FileNotFound (path : string)
  | EmptyDataError
  | ParserError
  | KeyError (col : string)
  | TypeError
  | ValueError (msg : string)
  | FileExistsError (path : string)
  | NotADirectoryError (path : string)
  | IsADirectoryError (path : string)
  | ImportError (name : string)
  | PlotError.

(** ** Pure parts of the pandas calls used for cleaning *)

(** First column of [subset] that the frame does not have. *)
Definition missing_column (df : frame) (subset : list string) : option string :=
  snd <$> list_find (fun c => has_column df c = false) subset.

(** [df.dropna(subset=...)]: keeps, in order and with their labels, the rows
    that are complete on [subset]; a key error when a column is absent. *)
Definition dropna (subset : list string) (df : frame) : error + frame :=
  match missing_column df subset with
  | Some c => inl (KeyError c)
  | None =>
      inr {| columns := columns df;
             rows := filter (fun ir => complete_on subset ir.2 = true) (rows df) |}
  end.

(** [df[subset].isnull().sum()]: the number of missing cells per column. *)
Definition isnull_sum (subset : list string) (df : frame) : error + list (string * nat) :=
  match missing_column df subset with
  | Some c => inl (KeyError c)
  | None =>
      inr (map (fun c => (c, length (filter (fun v => isnull v = true)
                                            (column_values df c)))) subset)
  end.

(** ** Series operations *)

(** [Series.unique()]: the distinct values in order of first appearance. *)
Definition unique (l : list cell) : list cell :=
  fold_left (fun seen v => if decide (v ∈ seen) then seen else seen ++ [v]) l [].

(** The order of labels: numbers by value, then text code point by code
    point (on UTF-8 bytes that is [String.le]), then missing.  Python
    compares text with text and numbers with numbers this way; pandas
    lists group labels of mixed kind in this order. *)
Definition cell_le (a b : cell) : Prop :=
  match a, b with
  | Num x, Num y => (x <= y)%Z
  | Num _, _ => True
  | Str _, Num _ => False
  | Str s, Str t => String.le s t
  | Str _, Null => True
  | Null, Null => True
  | Null, _ => False
  end.

#[global] Instance cell_le_dec : RelDecision cell_le.
Proof. intros [] []; simpl; apply _. Defined.

(** [sorted(values)] on a list of cells: text sorts among text and numbers
    among numbers; comparing text with a number (or with a float NaN) is a
    type error. *)
Definition sorted (l : list cell) : error + list cell :=
  if forallb is_str l || forallb is_num l
  then inr (merge_sort cell_le l)
  else inl TypeError.

(** [pd.Categorical(values, categories=cats)]: a value outside the
    categories becomes missing. *)
Definition Categorical (values cats : list cell) : list cell :=
  map (fun v => if decide (v ∈ cats) then v else Null) values.

Definition count_of {A} `{EqDecision A} (v : A) (l : list A) : nat :=
  length (filter (fun x => x = v) l).

(** A sort that keeps the order in which it finds the entries it cannot
    tell apart: each entry is put in front of the first later entry that
    may follow it. *)
Fixpoint insert_sorted {A} (R : relation A) `{!RelDecision R}
    (x : A) (l : list A) : list A :=
  match l with
  | [] => [x]
  | y :: l' => if decide (R x y) then x :: l else y :: insert_sorted R x l'
  end.

Definition stable_sort {A} (R : relation A) `{!RelDecision R}
    (l : list A) : list A :=
  foldr (insert_sorted R) [] l.

Definition more_frequent (a b : cell * nat) : Prop := b.2 <= a.2.

#[global] Instance more_frequent_dec : RelDecision more_frequent.
Proof. intros a b; unfold more_frequent; apply _. Defined.

(** [Series.value_counts()]: the missing values are left out, every other
    distinct value is paired with its number of occurrences, most frequent
    first; values that occur equally often stay in the order in which they
    first appear. *)
Definition value_counts (s : series) : list (cell * nat) :=
  let vs := filter (fun v => notnull v = true) (s_values s) in
  stable_sort more_frequent (map (fun v => (v, count_of v vs)) (unique vs)).

(** [Series.head(n)] on a frequency table. *)
Definition head {A} (n : nat) (l : list A) : list A := take n l.

Definition total_count (t : list (cell * nat)) : nat := sum_list (t.*2).

(** ** Contingency tables *)

Record table := Table {
  row_labels : list cell;
  col_labels : list cell;
  counts : list (list nat)
}.

Definition shape (t : table) : nat * nat :=
  (length (row_labels t), length (col_labels t)).

(** The labels of one side of a cross-tabulation: for a categorical series
    its categories, in their own order, that occur; otherwise the values
    that occur, sorted. *)
Definition labels_of (dt : dtype) (observed : list cell) : list cell :=
  match dt with
  | Category cats => filter (fun c => c ∈ observed) cats
  | _ => merge_sort cell_le (unique observed)
  end.

(** [pd.crosstab(a, b)]: pairs with a missing side are dropped; each cell
    counts the rows carrying that pair of labels. *)
Definition crosstab (a b : series) : table :=
  let pairs := filter (fun p => notnull p.1 && notnull p.2 = true)
                      (zip (s_values a) (s_values b)) in
  let rl := labels_of (s_dtype a) (pairs.*1) in
  let cl := labels_of (s_dtype b) (pairs.*2) in
  {| row_labels := rl;
     col_labels := cl;
     counts := map (fun r => map (fun c => count_of (r, c) pairs) cl) rl |}.

(** ** Floating-point values

    The finite values are rationals, next to the three non-finite values
    that numpy arithmetic produces instead of raising.  The operations
    below are exact; where the result of an operation is stored as a
    double it is rounded with [round53], as the division of line 101 is.
    The chi-square statistic is computed with the exact operations (the
    order in which the library adds the terms is not modelled). *)
Inductive fval :=
  | Fin (q : Qc)
  | PInf
  | NInf
  | NaN.

(** A count as a rational, and as a float. *)
Definition qn (n : nat) : Qc := Q2Qc (inject_Z (Z.of_nat n)).

Definition of_nat (n : nat) : fval := Fin (qn n).

#[global] Instance fval_eq_dec : EqDecision fval.
Proof. solve_decision. Defined.

Definition fzero : fval := Fin (Q2Qc 0).
Definition fone : fval := Fin (Q2Qc 1).
Definition fhalf : fval := Fin (Q2Qc (1 # 2)).

Definition Qc_is_zero (q : Qc) : bool := bool_decide (q = Q2Qc 0).
Definition Qc_pos (q : Qc) : bool := bool_decide (Q2Qc 0 < q)%Qc.

Definition fneg (a : fval) : fval :=
  match a with
  | Fin q => Fin (- q)%Qc
  | PInf => NInf
  | NInf => PInf
  | NaN => NaN
  end.

Definition fadd (a b : fval) : fval :=
  match a, b with
  | NaN, _ | _, NaN => NaN
  | Fin x, Fin y => Fin (x + y)%Qc
  | PInf, NInf | NInf, PInf => NaN
  | PInf, _ | _, PInf => PInf
  | NInf, _ | _, NInf => NInf
  end.

Definition fsub (a b : fval) : fval := fadd a (fneg b).

(** An infinity with the sign of [q], or NaN when [q] is zero. *)
Definition inf_signed (positive : bool) (q : Qc) : fval :=
  if Qc_is_zero q then NaN
  else if Bool.eqb positive (Qc_pos q) then PInf else NInf.

Definition fmul (a b : fval) : fval :=
  match a, b with
  | NaN, _ | _, NaN => NaN
  | Fin x, Fin y => Fin (x * y)%Qc
  | PInf, Fin y | Fin y, PInf => inf_signed true y
  | NInf, Fin y | Fin y, NInf => inf_signed false y
  | PInf, PInf | NInf, NInf => PInf
  | PInf, NInf | NInf, PInf => NInf
  end.

(** True division as numpy does it: a zero divisor gives NaN for 0/0 and
    an infinity otherwise, never an exception. *)
Definition fdiv (a b : fval) : fval :=
  match a, b with
  | NaN, _ | _, NaN => NaN
  | Fin x, Fin y =>
      if Qc_is_zero y then
        if Qc_is_zero x then NaN else if Qc_pos x then PInf else NInf
      else Fin (x / y)%Qc
  | Fin _, _ => fzero
  | PInf, Fin y => if Qc_is_zero y || Qc_pos y then PInf else NInf
  | NInf, Fin y => if Qc_is_zero y || Qc_pos y then NInf else PInf
  | _, _ => NaN
  end.

Definition fabs (a : fval) : fval :=
  match a with
  | Fin q => Fin (if Qc_pos q then q else - q)%Qc
  | PInf | NInf => PInf
  | NaN => NaN
  end.

(** [np.sign] *)
Definition fsign (a : fval) : fval :=
  match a with
  | Fin q => if Qc_is_zero q then fzero
             else if Qc_pos q then fone else fneg fone
  | PInf => fone
  | NInf => fneg fone
  | NaN => NaN
  end.

(** [np.minimum] *)
Definition fmin (a b : fval) : fval :=
  match a, b with
  | NaN, _ | _, NaN => NaN
  | NInf, _ | _, NInf => NInf
  | PInf, x | x, PInf => x
  | Fin x, Fin y => Fin (if bool_decide (x <= y)%Qc then x else y)
  end.

(** [x == 0] on a float: false on NaN and on the infinities. *)
Definition is_zero (a : fval) : bool :=
  match a with Fin q => Qc_is_zero q | _ => false end.

Definition is_nan (a : fval) : bool :=
  match a with NaN => true | _ => false end.

Definition fsum (l : list fval) : fval := foldr fadd fzero l.

(** ** Rounding to a double *)

(** The quotient [a / b] rounded to the nearest integer, a tie going to the
    even one ([b] is positive). *)
Definition round_half_even (a b : Z) : Z :=
  let q := (a / b)%Z in
  let r := (a mod b)%Z in
  if (2 * r <? b)%Z then q
  else if (b <? 2 * r)%Z then (q + 1)%Z
  else if Z.even q then q else (q + 1)%Z.

Definition pow2 (e : Z) : Q := (2 ^ e)%Q.

(** The exponent of a positive rational: the largest [l] with
    [2 ^ l <= q]. *)
Definition ilog2 (q : Q) : Z :=
  let l := (Z.log2 (Qnum q) - Z.log2 (Zpos (Qden q)))%Z in
  if Qle_bool (pow2 l) q then l else (l - 1)%Z.

(** A positive rational to 53 significant bits: scaled into
    [2^52, 2^53), rounded to an integer, and scaled back. *)
Definition round53_pos (q : Q) : Q :=
  let e := (ilog2 q - 52)%Z in
  let x := (q * pow2 (- e))%Q in
  (inject_Z (round_half_even (Qnum x) (Zpos (Qden x))) * pow2 e)%Q.

Definition round53Q (q : Q) : Q :=
  match Qnum q with
  | Z0 => 0%Q
  | Zpos _ => round53_pos q
  | Zneg _ => (- round53_pos (- q))%Q
  end.

(** The double nearest to [q], ties to even.  (The exponent is not
    bounded: the values rounded here are quotients of two counts, far from
    overflow and underflow.) *)
Definition round53 (q : Qc) : Qc := Q2Qc (round53Q q).

(** Half the gap between 1 and the next double: the relative error of
    rounding is at most this. *)
Definition unit_roundoff : Qc := Q2Qc (1 # 9007199254740992).

(** A result stored as a double. *)
Definition fround (a : fval) : fval :=
  match a with
  | Fin q => Fin (round53 q)
  | _ => a
  end.

(** ** Row normalisation (line 101) *)

(** [pivot.sum(axis=1)] *)
Definition sum_axis1 (m : list (list nat)) : list nat := map sum_list m.

(** [pivot.div(sums, axis=0)]: every entry of a row is divided by that
    row's entry of [sums], the quotient being a double. *)
Definition div_axis0 (m : list (list nat)) (sums : list nat) : list (list fval) :=
  zip_with (fun r s => map (fun x => fround (fdiv (of_nat x) (of_nat s))) r)
           m sums.

(** [.fillna(v)]: only NaN is replaced. *)
Definition fillna (v : fval) (m : list (list fval)) : list (list fval) :=
  map (map (fun x => if is_nan x then v else x)) m.

Definition normalize_rows (m : list (list nat)) : list (list fval) :=
  fillna fzero (div_axis0 m (sum_axis1 m)).

(** ** The chi-square test of independence

    [scipy.stats.chi2_contingency(table)] as the script calls it, with the
    library's defaults [correction=True] and [lambda_=None] (Pearson). *)

Record chi2_result := Chi2Result {
  statistic : fval;
  pvalue : fval;
  dof : Z;
  expected_of : list (list fval)
}.

(** The marginal sums: one per row, one per column. *)
Definition margins (ncols : nat) (observed : list (list fval))
  : list fval * list fval :=
  (map fsum observed,
   foldr (zip_with fadd) (replicate ncols fzero) observed).

(** [expected_freq]: the outer product of the margins over the total. *)
Definition expected_freq (ncols : nat) (observed : list (list fval))
  : list (list fval) :=
  let '(rsum, csum) := margins ncols observed in
  let total := fsum (map fsum observed) in
  map (fun r => map (fun c => fdiv (fmul r c) total) csum) rsum.

(** Yates' correction for continuity: every observed count moves towards
    its expected value by at most one half. *)
Definition yates (observed expected : list (list fval)) : list (list fval) :=
  zip_with (zip_with (fun o e =>
    let diff := fsub e o in
    let direction := fsign diff in
    let magnitude := fmin fhalf (fabs diff) in
    fadd o (fmul magnitude direction))) observed expected.

(** [power_divergence] with [lambda_ = 1]: the Pearson sum over all cells. *)
Definition power_divergence (f_obs f_exp : list (list fval)) : fval :=
  fsum (concat (zip_with (zip_with (fun o e =>
    fdiv (fmul (fsub o e) (fsub o e)) e)) f_obs f_exp)).

(** The messages of the two errors of [chi2_contingency]; of the second
    the text up to the position of the zero, which the library appends. *)
Definition no_data_msg : string := "No data; `observed` has size 0.".
Definition zero_expected_msg : string :=
  "The internally computed table of expected frequencies has a zero element at".

(** One line of the summary: what [run_chi2] returns for a variable. *)
Record test_result := TestResult {
  t_chi2 : fval;
  t_p_value : fval;
  t_dof : Z;
  t_table_shape : nat * nat
}.

(** ** Charts and files *)

(** What a chart is drawn from. *)
Inductive chart :=
  | Bar (title : string) (data : list (cell * nat))
  | Barh (title : string) (data : list (cell * nat))
  | StackedBar (title : string) (rl cl : list cell) (data : list (list fval))
  | Heatmap (title : string) (t : table).

(** What the script hands to the display tool: a frequency table turned
    into a frame of two named columns, or the table of the test results. *)
Inductive view :=
  | CountsView (label_column count_column : string) (data : list (cell * nat))
  | TestsView (tests : list (string * test_result)).

Inductive file :=
  | Directory
  | CsvFile (header : list string) (body : list (list cell))
  | SummaryFile (lines : list (string * test_result))
  | PngFile (c : chart).

(** ** The interpreter state: object store and file system *)

Record world := World {
  heap : gmap nat frame;
  files : gmap string file
}.

Definition M (A : Type) : Type := world -> (error + A) * world.

#[global] Instance M_ret : MRet M := fun A x w => (inr x, w).

#[global] Instance M_bind : MBind M := fun A B k m w =>
  match m w with
  | (inl e, w') => (inl e, w')
  | (inr x, w') => k x w'
  end.

Definition raise {A} (e : error) : M A := fun w => (inl e, w).

Definition lift {A} (x : error + A) : M A := fun w => (x, w).

(** A new object. *)
Definition alloc (f : frame) : M nat := fun w =>
  let l := fresh (dom (heap w)) in
  (inr l, {| heap := <[l := f]> (heap w); files := files w |}).

Definition load (l : nat) : M frame := fun w =>
  match heap w !! l with
  | Some f => (inr f, w)
  | None => (inl (ValueError "dangling reference"), w)
  end.

Definition store (l : nat) (f : frame) : M unit := fun w =>
  (inr (), {| heap := <[l := f]> (heap w); files := files w |}).

Definition read_file (path : string) : M (option file) := fun w =>
  (inr (files w !! path), w).

(** Writing replaces what the path held; a directory cannot be written. *)
Definition write_file (path : string) (c : file) : M unit := fun w =>
  match files w !! path with
  | Some Directory => (inl (IsADirectoryError path), w)
  | _ => (inr (), {| heap := heap w; files := <[path := c]> (files w) |})
  end.

(** The name of [path] when it lies right under the directory [dir]. *)
Definition entry_name (dir path : string) : option string :=
  let pre := dir +:+ "/" in
  let name := String.substring (String.length pre)
                               (String.length path - String.length pre) path in
  if String.prefix pre path && negb (bool_decide (name = EmptyString))
     && bool_decide (String.index 0 "/" name = None)
  then Some name else None.

(** [os.listdir(path)] *)
Definition listdir (path : string) : M (list string) := fun w =>
  match files w !! path with
  | Some Directory =>
      (inr (omap (entry_name path) (elements (dom (files w)))), w)
  | Some _ => (inl (NotADirectoryError path), w)
  | None => (inl (FileNotFound path), w)
  end.

(** ** Frames in and out of the store *)

Definition infer_dtype (vals : list cell) : dtype :=
  if bool_decide (vals = []) then Object
  else if existsb is_str vals then Object
  else if existsb isnull vals then Float64
  else Int64.

(** The double nearest to an integer: the integer itself up to 2^53 in
    absolute value, beyond that the integer kept to 53 significant bits. *)
Definition float_of_int (z : Z) : Z :=
  if (Z.abs z <=? 2 ^ 53)%Z then z
  else
    let ulp := (2 ^ (Z.log2 (Z.abs z) - 52))%Z in
    (Z.sgn z * (round_half_even (Z.abs z) ulp * ulp))%Z.

(** A cell as a column of type [dt] holds it: the numbers of a [Float64]
    column (an integer column with a missing value) are doubles. *)
Definition as_dtype (dt : dtype) (c : cell) : cell :=
  match dt, c with
  | Float64, Num z => Num (float_of_int z)
  | _, _ => c
  end.

(** A cell that every column holds as the file gives it: a number has to
    be a double. *)
Definition exact_cell (c : cell) : Prop :=
  match c with
  | Num z => float_of_int z = z
  | _ => True
  end.

#[global] Instance exact_cell_dec c : Decision (exact_cell c).
Proof. destruct c; simpl; apply _. Defined.

(** The fields the first record has beyond the header: the parser takes
    that many leading fields of every record as row labels. *)
Definition leading_cols (header : list string) (body : list (list cell)) : nat :=
  match body with
  | first :: _ => length first - length header
  | [] => 0
  end.

(** A record with more fields than the header and the row labels take. *)
Definition too_long (header : list string) (body : list (list cell)) : bool :=
  existsb (fun line => length header + leading_cols header body <? length line)
          body.

Definition column_dtype (fields : list (list cell)) (i : nat) : dtype :=
  infer_dtype (map (fun line => default Null (line !! i)) fields).

(** The name of the column at position [i]: a header field left empty
    gets a name made of its position. *)
Definition column_name (i : nat) (name : string) : string :=
  if bool_decide (name = EmptyString) then "Unnamed: " +:+ pretty i else name.

(** The frame [read_csv] builds: the fields taken as row labels are left
    out and the rows are numbered 0, 1, ... (nothing the script does shows
    a row label); a short line is padded with missing values. *)
Definition frame_of_csv (header : list string) (body : list (list cell)) : frame :=
  let fields := map (drop (leading_cols header body)) body in
  {| columns :=
       imap (fun i name => (column_name i name, column_dtype fields i)) header;
     rows :=
       imap (fun i line =>
               (i, list_to_map
                     (zip (imap column_name header)
                          (imap (fun j c => as_dtype (column_dtype fields j) c)
                                line))))
            fields |}.

(** [pd.read_csv(path)]: a file without a header line cannot be parsed,
    nor one with a record that is too long. *)
Definition read_csv (path : string) : M nat :=
  c ← read_file path;
  match c with
  | Some (CsvFile header body) =>
      if bool_decide (header = []) then raise EmptyDataError
      else if too_long header body then raise ParserError
      else alloc (frame_of_csv header body)
  | _ => raise (FileNotFound path)
  end.

(** [df.copy()] *)
Definition copy (l : nat) : M nat := f ← load l; alloc f.

(** [df[c]] *)
Definition getitem (l : nat) (c : string) : M series :=
  f ← load l;
  match dtype_of f c with
  | Some dt => mret (Series c dt (column_values f c))
  | None => raise (KeyError c)
  end.

Definition set_column (f : frame) (c : string) (dt : dtype) (vals : list cell) : frame :=
  {| columns :=
       if has_column f c
       then map (fun p => if decide (p.1 = c) then (c, dt) else p) (columns f)
       else columns f ++ [(c, dt)];
     rows := zip_with (fun ir v => (ir.1, <[c := v]> ir.2)) (rows f) vals |}.

(** [df[c] = values]: the object is changed in place. *)
Definition setitem (l : nat) (c : string) (dt : dtype) (vals : list cell) : M unit :=
  f ← load l;
  if bool_decide (length vals = length (rows f))
  then store l (set_column f c dt vals)
  else raise (ValueError "Length of values does not match length of index").

(** ** The script, stage by stage *)

Definition input_path : string :=
  "C:/Users/nanda/OneDrive/Documents/Pratap's Tasks/4/cleaned.csv".

Definition out_dir : string := "/mnt/data/accident_analysis_outputs".

(** [os.path.join] *)
Definition path_join (d name : string) : string := d +:+ "/" +:+ name.

(** The two exported files. *)
Definition cleaned_csv : string := path_join out_dir "cleaned_for_analysis.csv".
Definition summary_csv : string := path_join out_dir "chi2_tests_summary.csv".

(** Lines 24-34: count the missing values, drop the incomplete rows into a
    fresh copy, and make the severity column categorical when it is text. *)
Definition cleaning (df : nat) : M (list (string * nat) * nat) :=
  f ← load df;
  missing_before ← lift (isnull_sum cols_of_interest f);
  dropped ← lift (dropna cols_of_interest f);
  tmp ← alloc dropped;
  df_clean ← copy tmp;
  sev ← getitem df_clean severity;
  _ ← (if decide (s_dtype sev = Object) then
         cats ← lift (sorted (unique (s_values sev)));
         setitem df_clean severity (Category cats)
                 (Categorical (s_values sev) cats)
       else mret ());
  mret (missing_before, df_clean).

(** Lines 37-42. *)
Record freq_tables := FreqTables {
  counts_weather : list (cell * nat);
  counts_road : list (cell * nat);
  counts_light : list (cell * nat);
  counts_junction : list (cell * nat);
  counts_lanes : list (cell * nat);
  counts_cause : list (cell * nat)
}.

Definition frequency_tables (df_clean : nat) : M freq_tables :=
  w ← getitem df_clean "Weather_conditions";
  r ← getitem df_clean "Road_surface_type";
  l ← getitem df_clean "Light_conditions";
  j ← getitem df_clean "Types_of_Junction";
  m ← getitem df_clean "Lanes_or_Medians";
  c ← getitem df_clean "Cause_of_accident";
  mret (FreqTables (value_counts w) (value_counts r) (value_counts l)
                   (value_counts j) (value_counts m)
                   (head 15 (value_counts c))).

(** The directories above [path], from the top: each prefix of the path
    that ends before a separator (the root itself is not among them). *)
Fixpoint ancestors_from (seen rest : string) : list string :=
  match rest with
  | EmptyString => []
  | String c rest' =>
      (if bool_decide (c = "/"%char) && negb (bool_decide (seen = EmptyString))
       then [seen] else [])
      ++ ancestors_from (seen +:+ String c EmptyString) rest'
  end.

Definition ancestors (path : string) : list string :=
  ancestors_from EmptyString path.

(** Going down a chain of directories, each the parent of the next: a
    directory that is there is entered, one that is absent is made; a file
    of another kind in the way is an error, of the last path when it is
    the one asked for, and otherwise of the path below it, which cannot be
    made. *)
Fixpoint mkdirs (paths : list string) : M unit :=
  match paths with
  | [] => mret ()
  | p :: rest =>
      c ← read_file p;
      match c with
      | Some Directory => mkdirs rest
      | None => _ ← write_file p Directory; mkdirs rest
      | Some _ =>
          match rest with
          | [] => raise (FileExistsError p)
          | q :: _ => raise (NotADirectoryError q)
          end
      end
  end.

(** [os.makedirs(path, exist_ok=True)]: the missing directories above
    [path] are made too. *)
Definition makedirs (path : string) : M unit :=
  mkdirs (ancestors path ++ [path]).

Definition less_frequent (a b : cell * nat) : Prop := a.2 <= b.2.

#[global] Instance less_frequent_dec : RelDecision less_frequent.
Proof. intros a b; unfold less_frequent; apply _. Defined.

(** [Series.sort_values()] on a frequency table: ascending counts, equal
    counts in the order they had. *)
Definition sort_values (t : list (cell * nat)) : list (cell * nat) :=
  stable_sort less_frequent t.

Section Analysis.

(** The upper tail of the chi-square distribution, [chi2.sf(stat, dof)]:
    a fixed function of its two arguments, not computed here. *)
Variable chi2_sf : fval -> Z -> fval.

(** Whether the plotting libraries draw a chart without raising. *)
Variable renders : chart -> bool.

Definition chi2_contingency (t : table) : error + chi2_result :=
  let '(r, c) := shape t in
  let observed := map (map of_nat) (counts t) in
  if Nat.eqb (r * c) 0 then inl (ValueError no_data_msg)
  else
    let expected := expected_freq c observed in
    if existsb (existsb is_zero) expected then
      inl (ValueError zero_expected_msg)
    else
      let dof := (Z.of_nat (r * c) - Z.of_nat (r + c) + 2 - 1)%Z in
      if (dof =? 0)%Z then
        inr (Chi2Result fzero fone dof expected)
      else
        let observed' :=
          if (dof =? 1)%Z then yates observed expected else observed in
        let chi2 := power_divergence observed' expected in
        inr (Chi2Result chi2 (chi2_sf chi2 dof) dof expected).

(** Draw a chart and save it under [out_dir]; a failure to draw is fatal. *)
Definition plot (name : string) (c : chart) : M unit :=
  if renders c then write_file (path_join out_dir name) (PngFile c)
  else raise PlotError.

(** Lines 48-126: the six charts. *)
Definition plots (df_clean : nat) (ft : freq_tables) : M unit :=
  _ ← plot "weather_counts.png"
        (Bar "Accident count by Weather conditions" (counts_weather ft));
  _ ← plot "road_surface_counts.png"
        (Bar "Accident count by Road surface type" (counts_road ft));
  _ ← plot "light_conditions_counts.png"
        (Bar "Accident count by Light conditions (proxy for time of day)"
             (counts_light ft));
  _ ← plot "top_causes.png"
        (Barh "Top contributing causes of accidents (top 15)"
              (sort_values (counts_cause ft)));
  w ← getitem df_clean "Weather_conditions";
  s ← getitem df_clean severity;
  let pivot_w_s := crosstab w s in
  let pivot_w_s_norm := normalize_rows (counts pivot_w_s) in
  _ ← plot "severity_by_weather_stacked.png"
        (StackedBar
           "Proportion of Accident severity by Weather condition (stacked, normalized)"
           (row_labels pivot_w_s) (col_labels pivot_w_s) pivot_w_s_norm);
  w' ← getitem df_clean "Weather_conditions";
  r ← getitem df_clean "Road_surface_type";
  let pivot_heat := crosstab w' r in
  plot "weather_vs_road_heatmap.png"
       (Heatmap "Accident counts: Weather vs Road surface type (heatmap)"
                pivot_heat).

(** Lines 130-133. *)
Definition run_chi2 (df_clean : nat) (var : string) : M test_result :=
  a ← getitem df_clean var;
  b ← getitem df_clean severity;
  let table := crosstab a b in
  res ← lift (chi2_contingency table);
  mret (TestResult (statistic res) (pvalue res) (dof res) (shape table)).

Definition tested_variables : list string :=
  ["Weather_conditions"; "Road_surface_type"; "Light_conditions";
   "Types_of_Junction"].

(** Lines 135-136: the loop filling [tests], in insertion order. *)
Fixpoint run_tests (df_clean : nat) (vars : list string)
  : M (list (string * test_result)) :=
  match vars with
  | [] => mret []
  | var :: rest =>
      t ← run_chi2 df_clean var;
      ts ← run_tests df_clean rest;
      mret ((var, t) :: ts)
  end.

(** [df.to_csv(path, index=False)] *)
Definition to_csv (l : nat) (path : string) : M unit :=
  f ← load l;
  write_file path
    (CsvFile (column_names f)
             (map (fun ir => map (fun c => at_col c ir.2) (column_names f))
                  (rows f))).

(** Lines 143-144. *)
Definition export (df_clean : nat) (tests_df : list (string * test_result)) : M unit :=
  _ ← to_csv df_clean cleaned_csv;
  write_file summary_csv (SummaryFile tests_df).

(** What the Python variables hold when line 144 is done. *)
Record outcome := Outcome {
  v_df : nat;
  v_missing_before : list (string * nat);
  v_df_clean : nat;
  v_counts : freq_tables;
  v_tests : list (string * test_result)
}.

(** Lines 17-144: everything the script computes and writes itself. *)
Definition analysis : M outcome :=
  df ← read_csv input_path;
  '(missing_before, df_clean) ← cleaning df;
  ft ← frequency_tables df_clean;
  _ ← makedirs out_dir;
  _ ← plots df_clean ft;
  tests ← run_tests df_clean tested_variables;
  _ ← export df_clean tests;
  mret (Outcome df missing_before df_clean ft tests).

(** One run of lines 17-144 over a file system, from an empty store. *)
Definition run (fs : gmap string file) : (error + outcome) * world :=
  analysis {| heap := ∅; files := fs |}.

(** [display_dataframe_to_user] of [caas_jupyter_tools], a module that is
    no part of the repository: [None] when it cannot be imported, and
    otherwise whatever a call does with a title and a table; it may write
    files and it may raise. *)
Variable display_tool : option (string -> view -> M unit).

(** Lines 147-153: the import, the three tables shown (in pandas 1.x
    [reset_index] names the columns [index] and after the series, which
    the [rename] turns into the names below), and the listing of the
    output directory, of which the script keeps nothing.  The [print] of
    line 152 writes to the console only. *)
Definition display (o : outcome) : M unit :=
  match display_tool with
  | None => raise (ImportError "caas_jupyter_tools")
  | Some display_dataframe_to_user =>
      _ ← display_dataframe_to_user "Counts: Weather (top 50)"
            (CountsView "Weather" "count" (counts_weather (v_counts o)));
      _ ← display_dataframe_to_user "Counts: Road Surface (top 50)"
            (CountsView "Road" "count" (counts_road (v_counts o)));
      _ ← display_dataframe_to_user
            "Chi-square test results (Weather/Road/Light/Types_of_Junction vs Accident_severity)"
            (TestsView (v_tests o));
      names ← listdir out_dir;
      mret (let _ := take 50 names in ())
  end.

(** The whole script, lines 17-153. *)
Definition script : M outcome :=
  o ← analysis;
  _ ← display o;
  mret o.

Definition run_script (fs : gmap string file) : (error + outcome) * world :=
  script {| heap := ∅; files := fs |}.

End Analysis.

(** ** The chi-square statistic as the specification words it

    These follow the specification, cell by cell, and are what the code of
    [chi2_contingency] above is compared with. *)

(** The count in row [i], column [j]. *)
Definition cell_count (t : table) (i j : nat) : nat :=
  nth j (nth i (counts t) []) 0.

Definition row_total (t : table) (i : nat) : nat :=
  sum_list (map (fun j => cell_count t i j) (seq 0 (shape t).2)).

Definition col_total (t : table) (j : nat) : nat :=
  sum_list (map (fun i => cell_count t i j) (seq 0 (shape t).1)).

Definition grand_total (t : table) : nat :=
  sum_list (map (row_total t) (seq 0 (shape t).1)).

(** expected[i][j] = (row_total[i] x col_total[j]) / grand_total *)
Definition expected_cell (t : table) (i j : nat) : fval :=
  fdiv (fmul (of_nat (row_total t i)) (of_nat (col_total t j)))
       (of_nat (grand_total t)).

(** (observed - expected)^2 / expected *)
Definition pearson_term (o e : fval) : fval :=
  fdiv (fmul (fsub o e) (fsub o e)) e.

(** An [r] by [c] grid filled cell by cell. *)
Definition grid {A} (r c : nat) (F : nat -> nat -> A) : list (list A) :=
  map (fun i => map (fun j => F i j) (seq 0 c)) (seq 0 r).

(** The sum over all cells of the table. *)
Definition sum_over_cells (t : table) (term : nat -> nat -> fval) : fval :=
  fsum (concat (grid (shape t).1 (shape t).2 term)).

Definition pearson_sum (t : table) : fval :=
  sum_over_cells t (fun i j =>
    pearson_term (of_nat (cell_count t i j)) (expected_cell t i j)).

(** An observed count moved towards its expected value by at most 1/2. *)
Definition yates_cell (o e : fval) : fval :=
  fadd o (fmul (fmin fhalf (fabs (fsub e o))) (fsign (fsub e o))).

Definition yates_sum (t : table) : fval :=
  sum_over_cells t (fun i j =>
    pearson_term (yates_cell (of_nat (cell_count t i j)) (expected_cell t i j))
                 (expected_cell t i j)).

(** The counts form a grid of the shape the labels give. *)
Definition table_ok (t : table) : Prop :=
  length (counts t) = (shape t).1 /\
  Forall (fun row => length row = (shape t).2) (counts t).

(** ** Looking at the outcome of a computation *)

Definition succeeded {A} (r : (error + A) * world) : bool :=
  match r.1 with inr _ => true | inl _ => false end.

Definition result_of {A} (r : (error + A) * world) : option A :=
  match r.1 with inr x => Some x | inl _ => None end.

(** ** What a computation may touch *)

(** A computation that leaves the files alone and whose effect on the
    store does not depend on them. *)
Definition heap_only {A} (m : M A) : Prop :=
  forall h, exists r h', forall G,
    m {| heap := h; files := G |} = (r, {| heap := h'; files := G |}).

(** A computation all of whose runs relate the world before to the world
    after by [R], whether they succeed or fail. *)
Definition preserves {A} (R : relation world) (m : M A) : Prop :=
  forall w r w', m w = (r, w') -> R w w'.

Definition same_heap : relation world := fun w w' => heap w' = heap w.

Definition same_files : relation world := fun w w' => files w' = files w.

Definition same_file (p : string) : relation world :=
  fun w w' => files w' !! p = files w !! p.

(** A computation whose successful runs can be repeated over the file
    system [F] of a later moment with the same result and no change to [F]:
    [F] must hold the input the run read, and, at the paths [P] the
    computation may write, what the run left there. *)
Definition replays {A} (P : list string) (m : M A) : Prop :=
  forall w x w' F,
    m w = (inr x, w') ->
    F !! input_path = files w !! input_path ->
    (forall p, p ∈ P -> F !! p = files w' !! p) ->
    m {| heap := heap w; files := F |} = (inr x, {| heap := heap w'; files := F |}).

(** The six image files and all the paths a run may write. *)
Definition image_files : list string :=
  map (path_join out_dir)
      ["weather_counts.png"; "road_surface_counts.png";
       "light_conditions_counts.png"; "top_causes.png";
       "severity_by_weather_stacked.png"; "weather_vs_road_heatmap.png"].

Definition output_dirs : list string := ancestors out_dir ++ [out_dir].

Definition output_files : list string :=
  output_dirs ++ image_files ++ [cleaned_csv; summary_csv].

(** ** Well-formed columns

    A categorical column holds no value outside its categories (pandas keeps
    such a column as codes into the categories). *)
Definition series_ok (s : series) : Prop :=
  match s_dtype s with
  | Category cats => forall v, v ∈ s_values s -> v <> Null -> v ∈ cats
  | _ => True
  end.

Definition frame_ok (f : frame) : Prop :=
  forall c dt, dtype_of f c = Some dt ->
               series_ok (Series c dt (column_values f c)).

(** ** A small input to run the definitions on *)

Definition sample_header : list string :=
  cols_of_interest ++ ["Number_of_casualties"].

Definition sample_line (weather sev : cell) (n : cell) : list cell :=
  [Str "Asphalt roads"; weather; Str "Daylight"; Str "Y Shape";
   Str "Undivided Two way"; Str "Overtaking"; sev;
   Str "Vehicle with vehicle collision"; n].

Definition sample_body : list (list cell) :=
  [sample_line (Str "Normal") (Str "Slight Injury") (Num 2);
   sample_line Null (Str "Slight Injury") (Num 1);
   sample_line (Str "Raining") (Str "Fatal injury") (Num 1);
   sample_line (Str "Normal") Null (Num 3);
   sample_line (Str "Raining") (Str "Slight Injury") Null;
   sample_line (Str "Normal") (Str "Fatal injury") (Num 1);
   sample_line (Str "Normal") (Str "Slight Injury") (Num 4)].

Definition sample_files : gmap string file :=
  {[ input_path := CsvFile sample_header sample_body ]}.

(** The store right after line 17 has run on [sample_files]. *)
Definition sample_world : world :=
  {| heap := {[ 0 := frame_of_csv sample_header sample_body ]};
     files := sample_files |}.

(** Sixteen complete records, each with a cause of its own. *)
Definition causes_body : list (list cell) :=
  map (fun cause =>
         [Str "Asphalt roads"; Str "Normal"; Str "Daylight"; Str "Y Shape";
          Str "Undivided Two way"; Str cause; Str "Slight Injury";
          Str "Vehicle with vehicle collision"])
      ["No distancing"; "Changing lane to the right";
       "Changing lane to the left"; "Driving carelessly";
       "No priority to vehicle"; "Moving Backward";
       "No priority to pedestrian"; "Overtaking"; "Driving under the influence of drugs";
       "Driving to the left"; "Getting off the vehicle improperly";
       "Driving at high speed"; "Overturning"; "Turnover"; "Overspeed";
       "Overloading"].

Definition causes_world : world :=
  {| heap := {[ 0 := frame_of_csv cols_of_interest causes_body ]};
     files := {[ input_path := CsvFile cols_of_interest causes_body ]} |}.

(** Thirty-two complete records over the same sixteen causes: the first
    cause three times, the next fourteen twice, the last one once. *)
Definition ranked_causes_body : list (list cell) :=
  causes_body ++ take 15 causes_body ++ take 1 causes_body.

Definition ranked_causes_files : gmap string file :=
  {[ input_path := CsvFile cols_of_interest ranked_causes_body ]}.

Definition ranked_causes_world : world :=
  {| heap := {[ 0 := frame_of_csv cols_of_interest ranked_causes_body ]};
     files := ranked_causes_files |}.

Definition ranked_clean_world : world := (cleaning 0 ranked_causes_world).2.

(** The store and the cleaned table after lines 17-34 on [sample_files]. *)
Definition sample_clean_world : world := (cleaning 0 sample_world).2.

Definition sample_df_clean : nat := 2.

(** A survival function to run the tests with. *)
Definition sample_sf : fval -> Z -> fval := fun _ _ => NaN.

(** An input none of whose records is complete, and a renderer that never
    fails. *)
Definition incomplete_files : gmap string file :=
  {[ input_path :=
       CsvFile sample_header
               [sample_line Null (Str "Slight Injury") (Num 1);
                sample_line (Str "Normal") Null (Num 2)] ]}.

Definition always_renders : chart -> bool := fun _ => true.

(** A display tool that, like a notebook sandbox, leaves a file of its own
    under /mnt/data. *)
Definition sample_display : string -> view -> M unit :=
  fun title _ => write_file "/mnt/data/shown_table.csv" (CsvFile [title] []).

(** * Properties *)

#[local] Arguments complete_on : simpl never.
#[local] Arguments column_values : simpl never.
#[local] Arguments of_nat : simpl never.
#[local] Arguments qn : simpl never.

(** ** Reasoning about the monad *)

Lemma bind_inr {A B} (m : M A) (k : A -> M B) w x w' :
  (m ≫= k) w = (inr x, w') <->
  exists y w1, m w = (inr y, w1) /\ k y w1 = (inr x, w').
Proof.
  unfold mbind, M_bind. destruct (m w) as [[e|y] w1]; split.
  - discriminate.
  - intros (? & ? & [=] & _).
  - eauto.
  - intros (? & ? & [= -> ->] & ?). done.
Qed.

Lemma bind_inl {A B} (m : M A) (k : A -> M B) w e w' :
  (m ≫= k) w = (inl e, w') <->
  m w = (inl e, w') \/ exists y w1, m w = (inr y, w1) /\ k y w1 = (inl e, w').
Proof.
  unfold mbind, M_bind. destruct (m w) as [[e0|y] w1]; split.
  - intros [= -> ->]. by left.
  - intros [[= -> ->]|(? & ? & [=] & _)]. done.
  - right. eauto.
  - intros [[=]|(? & ? & [= -> ->] & ?)]. done.
Qed.

Lemma mret_inr {A} (x y : A) w w' :
  (mret x : M A) w = (inr y, w') -> x = y /\ w' = w.
Proof. by intros [= -> ->]. Qed.

Lemma bind_run {A B} (m : M A) (k : A -> M B) w y w1 :
  m w = (inr y, w1) -> (m ≫= k) w = k y w1.
Proof. unfold mbind, M_bind. by intros ->. Qed.

Lemma bind_fail {A B} (m : M A) (k : A -> M B) w e w1 :
  m w = (inl e, w1) -> (m ≫= k) w = (inl e, w1).
Proof. unfold mbind, M_bind. by intros ->. Qed.

Lemma succeeded_inr {A} (r : (error + A) * world) :
  succeeded r = true -> exists x w, r = (inr x, w).
Proof. destruct r as [[e|x] w]; [done|]. by exists x, w. Qed.

Lemma result_of_Some {A} (r : (error + A) * world) x :
  result_of r = Some x -> exists w, r = (inr x, w).
Proof. destruct r as [[e|y] w]; [done|]. intros [= ->]. by exists w. Qed.

Create HintDb script_db.

(** Membership in a list that is spelled out, by computation. *)
Ltac in_list := apply (bool_decide_unpack _); vm_compute; exact I.

Lemma heap_only_ret {A} (x : A) : heap_only (mret x).
Proof. intros h. by exists (inr x), h. Qed.

Lemma heap_only_raise {A} e : heap_only (@raise A e).
Proof. intros h. by exists (inl e), h. Qed.

Lemma heap_only_lift {A} (x : error + A) : heap_only (lift x).
Proof. intros h. by exists x, h. Qed.

Lemma heap_only_alloc f : heap_only (alloc f).
Proof.
  intros h. by exists (inr (fresh (dom h))), (<[fresh (dom h) := f]> h).
Qed.

Lemma heap_only_load l : heap_only (load l).
Proof.
  intros h. unfold load. simpl.
  destruct (h !! l) as [f|];
    [by exists (inr f), h | by eexists (inl _), h].
Qed.

Lemma heap_only_store l f : heap_only (store l f).
Proof. intros h. by exists (inr ()), (<[l := f]> h). Qed.

Lemma heap_only_bind {A B} (m : M A) (k : A -> M B) :
  heap_only m -> (forall x, heap_only (k x)) -> heap_only (m ≫= k).
Proof.
  intros Hm Hk h. destruct (Hm h) as ([e|x] & h1 & Hr).
  - exists (inl e), h1. intros G. by rewrite (bind_fail _ _ _ _ _ (Hr G)).
  - destruct (Hk x h1) as (r & h2 & Hr2). exists r, h2. intros G.
    by rewrite (bind_run _ _ _ _ _ (Hr G)).
Qed.

#[local] Hint Resolve heap_only_ret heap_only_raise heap_only_lift
  heap_only_alloc heap_only_load heap_only_store : script_db.

Ltac heap_only_tac :=
  repeat first
    [ progress intros
    | apply heap_only_bind
    | solve [auto with script_db]
    | match goal with
      | |- heap_only (match ?x with _ => _ end) => destruct x
      | |- heap_only (if ?b then _ else _) => destruct b
      | |- heap_only (let '(_, _) := ?x in _) => destruct x
      end ].

Lemma heap_only_copy l : heap_only (copy l).
Proof. unfold copy. heap_only_tac. Qed.

Lemma heap_only_getitem l c : heap_only (getitem l c).
Proof. unfold getitem. heap_only_tac. Qed.

Lemma heap_only_setitem l c dt vals : heap_only (setitem l c dt vals).
Proof. unfold setitem. heap_only_tac. Qed.

#[local] Hint Resolve heap_only_copy heap_only_getitem heap_only_setitem
  : script_db.

Lemma heap_only_cleaning df : heap_only (cleaning df).
Proof. unfold cleaning. heap_only_tac. Qed.

Lemma heap_only_frequency_tables l : heap_only (frequency_tables l).
Proof. unfold frequency_tables. heap_only_tac. Qed.

(** ** Lists of cells: distinct values and sorting *)

Lemma unique_acc_elem_of (l seen : list cell) v :
  v ∈ fold_left (fun seen v => if decide (v ∈ seen) then seen else seen ++ [v])
                l seen
  <-> v ∈ seen \/ v ∈ l.
Proof.
  revert seen. induction l as [|x l IH]; intros seen; simpl.
  - rewrite elem_of_nil. tauto.
  - rewrite IH, elem_of_cons. destruct (decide (x ∈ seen)).
    + split; [tauto|]. intros [?|[->|?]]; tauto.
    + rewrite elem_of_app, list_elem_of_singleton. tauto.
Qed.

Lemma elem_of_unique (l : list cell) v : v ∈ unique l <-> v ∈ l.
Proof.
  unfold unique. rewrite unique_acc_elem_of, elem_of_nil. tauto.
Qed.

Lemma unique_acc_NoDup (l seen : list cell) :
  NoDup seen ->
  NoDup (fold_left (fun seen v => if decide (v ∈ seen) then seen else seen ++ [v])
                   l seen).
Proof.
  revert seen. induction l as [|x l IH]; intros seen Hnd; simpl; [done|].
  apply IH. destruct (decide (x ∈ seen)); [done|].
  apply NoDup_app. split_and!; [done| |apply NoDup_singleton].
  intros y Hy ->%list_elem_of_singleton. done.
Qed.

Lemma NoDup_unique (l : list cell) : NoDup (unique l).
Proof. apply unique_acc_NoDup, NoDup_nil_2. Qed.

#[global] Instance cell_le_trans : Transitive cell_le.
Proof.
  intros [|s|x] [|t|y] [|u|z]; simpl; try tauto.
  - apply (transitivity (R := String.le)).
  - lia.
Qed.

#[global] Instance cell_le_total : Total cell_le.
Proof.
  intros [|s|x] [|t|y]; simpl; try tauto.
  - apply (total String.le).
  - lia.
Qed.

#[global] Instance cell_le_antisymm : AntiSymm (=) cell_le.
Proof.
  intros [|s|x] [|t|y]; simpl; try tauto.
  - intros ??. f_equal. by apply (anti_symm String.le).
  - intros ??. f_equal. lia.
Qed.

Lemma sorted_inr (l cats : list cell) :
  sorted l = inr cats ->
  cats ≡ₚ l /\ StronglySorted cell_le cats.
Proof.
  unfold sorted. destruct (_ || _); [|discriminate]. intros [= <-]. split.
  - apply merge_sort_Permutation.
  - apply StronglySorted_merge_sort; apply _.
Qed.

Lemma sorted_strings (l : list cell) :
  Forall (fun v => is_str v = true) l -> sorted l = inr (merge_sort cell_le l).
Proof.
  intros H. unfold sorted.
  assert (forallb is_str l = true) as ->; [|done].
  apply forallb_forall. intros x Hx%list_elem_of_In.
  by eapply Forall_forall in H.
Qed.

Lemma Categorical_id (vals cats : list cell) :
  (forall v, v ∈ vals -> v ∈ cats) -> Categorical vals cats = vals.
Proof.
  intros H. unfold Categorical. induction vals as [|v vals IH]; simpl; [done|].
  rewrite decide_True by (apply H; left).
  f_equal. apply IH. intros ??. apply H. by right.
Qed.

(** ** Frames *)

Lemma complete_on_spec subset (r : record) :
  complete_on subset r = true <-> forall c, c ∈ subset -> at_col c r <> Null.
Proof.
  unfold complete_on. rewrite forallb_forall. split.
  - intros H c Hc%list_elem_of_In. specialize (H c Hc).
    destruct (at_col c r); done.
  - intros H c Hc%list_elem_of_In. specialize (H c Hc).
    destruct (at_col c r); done.
Qed.

Lemma dropna_inr subset f d :
  dropna subset f = inr d ->
  columns d = columns f /\
  rows d = filter (fun ir => complete_on subset ir.2 = true) (rows f).
Proof.
  unfold dropna. destruct (missing_column f subset); [done|].
  by intros [= <-].
Qed.

Lemma dtype_of_columns f g c : columns f = columns g -> dtype_of f c = dtype_of g c.
Proof. unfold dtype_of. by intros ->. Qed.

Lemma dtype_of_has_column f c dt : dtype_of f c = Some dt -> has_column f c = true.
Proof.
  unfold dtype_of, has_column, column_names.
  destruct (find _ _) as [[c' dt']|] eqn:Hf; [|done]. intros _.
  apply find_some in Hf as [Hin Hc%bool_decide_eq_true]. simpl in Hc. subst c'.
  apply bool_decide_eq_true, list_elem_of_fmap. exists (c, dt').
  split; [done|]. by apply list_elem_of_In.
Qed.

Lemma dtype_of_set_column_eq f c dt vals :
  has_column f c = true -> dtype_of (set_column f c dt vals) c = Some dt.
Proof.
  unfold dtype_of, set_column, has_column, column_names. simpl.
  intros Hc. rewrite Hc. apply bool_decide_eq_true in Hc.
  induction (columns f) as [|[c' dt'] cs IH]; simpl in *.
  - by apply elem_of_nil in Hc.
  - destruct (decide (c' = c)) as [->|Hne]; simpl.
    + by rewrite bool_decide_eq_true_2.
    + rewrite bool_decide_eq_false_2 by done. apply IH.
      apply elem_of_cons in Hc as [?|?]; [congruence|done].
Qed.

Lemma dtype_of_set_column_ne f c dt vals c' :
  has_column f c = true -> c' <> c ->
  dtype_of (set_column f c dt vals) c' = dtype_of f c'.
Proof.
  unfold dtype_of, set_column. simpl. intros -> Hne.
  induction (columns f) as [|[c0 dt0] cs IH]; simpl; [done|].
  destruct (decide (c0 = c)) as [->|Hne0]; simpl.
  - rewrite !bool_decide_eq_false_2 by done. apply IH.
  - destruct (bool_decide (c0 = c')); [done|apply IH].
Qed.

Lemma column_names_set_column f c dt vals :
  has_column f c = true -> column_names (set_column f c dt vals) = column_names f.
Proof.
  unfold column_names, set_column. simpl. intros ->.
  induction (columns f) as [|[c0 dt0] cs IH]; simpl; [done|].
  destruct (decide (c0 = c)) as [->|?]; simpl; f_equal; apply IH.
Qed.

Lemma rows_set_column_id f c dt :
  (forall ir, ir ∈ rows f -> at_col c ir.2 <> Null) ->
  rows (set_column f c dt (column_values f c)) = rows f.
Proof.
  unfold set_column, column_values. simpl.
  induction (rows f) as [|[i r] rs IH]; intros H; simpl; [done|].
  f_equal.
  - f_equal. apply insert_id.
    specialize (H (i, r) ltac:(left)). unfold at_col in *. simpl in *.
    destruct (r !! c); done.
  - apply IH. intros ir Hir. apply H. by right.
Qed.

Lemma length_column_values f c : length (column_values f c) = length (rows f).
Proof. unfold column_values. by rewrite length_map. Qed.

Lemma elem_of_column_values f c v :
  v ∈ column_values f c <-> exists ir, ir ∈ rows f /\ v = at_col c ir.2.
Proof.
  unfold column_values. rewrite list_elem_of_fmap. split.
  - intros (ir & -> & Hir). by exists ir.
  - intros (ir & Hir & ->). by exists ir.
Qed.

(** ** The cleaning stage *)

Lemma load_inr l w f w' : load l w = (inr f, w') -> heap w !! l = Some f /\ w' = w.
Proof. unfold load. destruct (heap w !! l); by intros [= <- <-]. Qed.

Lemma lift_inr {A} (x : error + A) w y w' :
  lift x w = (inr y, w') -> x = inr y /\ w' = w.
Proof. unfold lift. by intros [= -> ->]. Qed.

Lemma getitem_inr l c w s w' :
  getitem l c w = (inr s, w') ->
  exists f dt, heap w !! l = Some f /\ dtype_of f c = Some dt /\
              s = Series c dt (column_values f c) /\ w' = w.
Proof.
  unfold getitem. intros (f & w1 & [Hf ->]%load_inr & H)%bind_inr.
  destruct (dtype_of f c) as [dt|] eqn:Hdt; [|done].
  injection H as <- <-. by exists f, dt.
Qed.

Lemma getitem_run l c w f dt :
  heap w !! l = Some f -> dtype_of f c = Some dt ->
  getitem l c w = (inr (Series c dt (column_values f c)), w).
Proof.
  intros Hf Hdt. unfold getitem.
  erewrite bind_run; [|unfold load; by rewrite Hf]. by rewrite Hdt.
Qed.

(** What a successful cleaning leaves behind. *)
Lemma cleaning_inv df w mb l' w' :
  cleaning df w = (inr (mb, l'), w') ->
  exists f d fc,
    heap w !! df = Some f /\
    isnull_sum cols_of_interest f = inr mb /\
    dropna cols_of_interest f = inr d /\
    files w' = files w /\
    heap w !! l' = None /\
    heap w' !! l' = Some fc /\
    (forall l, l <> l' -> is_Some (heap w !! l) -> heap w' !! l = heap w !! l) /\
    (dtype_of d severity <> Some Object -> fc = d) /\
    (dtype_of d severity = Some Object ->
     exists cats,
       sorted (unique (column_values d severity)) = inr cats /\
       fc = set_column d severity (Category cats)
                       (Categorical (column_values d severity) cats)).
Proof.
  unfold cleaning.
  intros (f & w1 & [Hf ->]%load_inr & H)%bind_inr.
  apply bind_inr in H as (mb' & w1 & [Hmb ->]%lift_inr & H).
  apply bind_inr in H as (d & w1 & [Hd ->]%lift_inr & H).
  apply bind_inr in H as (tmp & w1 & Htmp & H).
  apply bind_inr in H as (l & w2 & Hl & H).
  apply bind_inr in H as (sev & w3 & Hsev & H).
  apply bind_inr in H as (u & w4 & Hconv & H).
  injection H as <- <- <-.
  unfold alloc in Htmp. injection Htmp as <- <-.
  unfold copy in Hl. apply bind_inr in Hl as (d' & w5 & [Hd' ->]%load_inr & Hl).
  simpl in Hd'. rewrite lookup_insert_eq in Hd'. injection Hd' as <-.
  unfold alloc in Hl. simpl in Hl. injection Hl as <- <-.
  set (t := fresh (dom (heap w))) in *.
  set (l := fresh (dom (<[t:=d]> (heap w)))) in *.
  assert (heap w !! t = None) as Ht.
  { apply not_elem_of_dom, is_fresh. }
  assert (l <> t /\ heap w !! l = None) as [Hlt Hl].
  { assert (l ∉ dom (<[t:=d]> (heap w))) as Hn by apply is_fresh.
    rewrite dom_insert in Hn. split.
    - intros E. apply Hn. rewrite E. set_solver.
    - apply not_elem_of_dom. set_solver. }
  apply getitem_inr in Hsev as (fl & dt & Hfl & Hdt & -> & ->).
  simpl in Hfl. rewrite lookup_insert_eq in Hfl. injection Hfl as <-.
  simpl in Hconv.
  assert (forall h, (forall l0, l0 <> l -> is_Some (heap w !! l0) ->
                     (<[l := h]> (<[t := d]> (heap w))) !! l0 = heap w !! l0))
    as Hother.
  { intros h l0 Hne [x Hx]. rewrite lookup_insert_ne by done.
    rewrite lookup_insert_ne; [done|]. intros <-. congruence. }
  exists f, d.
  destruct (decide (dt = Object)) as [->|Hno].
  - apply bind_inr in Hconv as (cats & w6 & [Hcats ->]%lift_inr & Hset).
    unfold setitem in Hset.
    apply bind_inr in Hset as (g & w7 & [Hg ->]%load_inr & Hset).
    simpl in Hg. rewrite lookup_insert_eq in Hg. injection Hg as <-.
    destruct (bool_decide _); [|done].
    unfold store in Hset. injection Hset as <- <-. simpl.
    exists (set_column d severity (Category cats)
                       (Categorical (column_values d severity) cats)).
    split_and!; try done.
    + by rewrite lookup_insert_eq.
    + intros l0 ??. rewrite insert_insert_eq. by apply Hother.
    + intros _. by exists cats.
  - injection Hconv as <- <-. simpl.
    exists d. split_and!; try done.
    + by rewrite lookup_insert_eq.
    + intros l0 ??. by apply Hother.
    + intros E. congruence.
Qed.

Lemma column_values_rows f g c : rows f = rows g -> column_values f c = column_values g c.
Proof. unfold column_values. by intros ->. Qed.

Lemma severity_required : severity ∈ cols_of_interest.
Proof. unfold severity, cols_of_interest. set_solver. Qed.

(** The cleaned frame, described by the raw one. *)
Lemma cleaning_result df w mb l' w' :
  cleaning df w = (inr (mb, l'), w') ->
  exists f fc,
    heap w !! df = Some f /\
    heap w !! l' = None /\
    heap w' !! l' = Some fc /\
    files w' = files w /\
    (forall l, l <> l' -> is_Some (heap w !! l) -> heap w' !! l = heap w !! l) /\
    rows fc = filter (fun ir => complete_on cols_of_interest ir.2 = true) (rows f) /\
    column_names fc = column_names f /\
    (forall c, c <> severity -> dtype_of fc c = dtype_of f c) /\
    (dtype_of f severity <> Some Object ->
     dtype_of fc severity = dtype_of f severity) /\
    (dtype_of f severity = Some Object ->
     exists cats,
       sorted (unique (column_values fc severity)) = inr cats /\
       dtype_of fc severity = Some (Category cats)).
Proof.
  intros (f & d & fc & Hf & _ & Hd & Hfiles & Hnew & Hfc & Hold & Hno & Hobj)
    %cleaning_inv.
  apply dropna_inr in Hd as [Hcols Hrows].
  exists f, fc. split_and!; try done.
  all: destruct (decide (dtype_of d severity = Some Object)) as [E|E].
  all: try (specialize (Hno E); subst fc).
  all: try (destruct (Hobj E) as (cats & Hcats & ->)).
  all: assert (forall ir, ir ∈ rows d -> at_col severity ir.2 <> Null) as Hsev
    by (intros ir Hir; rewrite Hrows in Hir;
        apply list_elem_of_filter in Hir as [Hc _];
        apply (proj1 (complete_on_spec _ _) Hc), severity_required).
  all: try assert (Categorical (column_values d severity) cats
                   = column_values d severity) as Hcat
    by (apply Categorical_id; intros v Hv;
        apply sorted_inr in Hcats as [Hp _]; rewrite Hp;
        by apply elem_of_unique).
  all: try rewrite Hcat.
  - rewrite rows_set_column_id; done.
  - done.
  - rewrite column_names_set_column; [by unfold column_names; rewrite Hcols|].
    by eapply dtype_of_has_column.
  - by unfold column_names; rewrite Hcols.
  - intros c Hc. rewrite dtype_of_set_column_ne; [|by eapply dtype_of_has_column|done].
    by apply dtype_of_columns.
  - intros c Hc. by apply dtype_of_columns.
  - intros H. by rewrite (dtype_of_columns d f) in E.
  - intros _. by apply dtype_of_columns.
  - intros _. exists cats. split.
    + erewrite column_values_rows; [done|]. by apply rows_set_column_id.
    + apply dtype_of_set_column_eq. by eapply dtype_of_has_column.
  - intros H. by rewrite (dtype_of_columns d f) in E.
Qed.

(** ** Claims about the cleaning stage *)

(** C1.  After the cleaning stage no row of the cleaned table has a missing
    value in any of the eight required columns, and every input row that is
    complete on the eight columns is a row of the cleaned table. *)
Theorem cleaning_drops_exactly_incomplete_rows df w mb l' w' :
  cleaning df w = (inr (mb, l'), w') ->
  exists f fc,
    heap w !! df = Some f /\ heap w' !! l' = Some fc /\
    (forall ir c, ir ∈ rows fc -> c ∈ cols_of_interest -> at_col c ir.2 <> Null) /\
    (forall ir, ir ∈ rows f ->
                (forall c, c ∈ cols_of_interest -> at_col c ir.2 <> Null) ->
                ir ∈ rows fc).
Proof.
  intros (f & fc & Hf & _ & Hfc & _ & _ & Hrows & _)%cleaning_result.
  exists f, fc. split_and!; [done..| |].
  - intros ir c Hir Hc. rewrite Hrows in Hir.
    apply list_elem_of_filter in Hir as [Hcomp _].
    by apply (proj1 (complete_on_spec _ _) Hcomp).
  - intros ir Hir Hcomp. rewrite Hrows. apply list_elem_of_filter.
    split; [|done]. by apply complete_on_spec.
Qed.

Lemma cleaning_drops_exactly_incomplete_rows_witness :
  exists mb l' w',
    cleaning 0 sample_world = (inr (mb, l'), w') /\
    exists f fc,
      heap sample_world !! 0 = Some f /\ heap w' !! l' = Some fc /\
      (forall ir c, ir ∈ rows fc -> c ∈ cols_of_interest -> at_col c ir.2 <> Null) /\
      (forall ir, ir ∈ rows f ->
                  (forall c, c ∈ cols_of_interest -> at_col c ir.2 <> Null) ->
                  ir ∈ rows fc).
Proof.
  destruct (succeeded_inr (cleaning 0 sample_world))
    as ([mb l'] & w' & E); [vm_compute; reflexivity|].
  exists mb, l', w'. split; [exact E|].
  exact (cleaning_drops_exactly_incomplete_rows 0 sample_world mb l' w' E).
Defined.

(** C10.  Cleaning is a pure row filter: the rows of the cleaned table,
    labels and cells as they were, form a subsequence of the input rows in
    their order; the column names are the same and no column other than
    Accident_severity changes its type; the cleaned table is a new object
    and the raw table is still what it was. *)
Theorem cleaning_is_a_row_filter df w mb l' w' :
  cleaning df w = (inr (mb, l'), w') ->
  exists f fc,
    heap w !! df = Some f /\ heap w' !! l' = Some fc /\
    sublist (rows fc) (rows f) /\
    column_names fc = column_names f /\
    (forall c, c <> severity -> dtype_of fc c = dtype_of f c) /\
    l' <> df /\
    heap w' !! df = Some f.
Proof.
  intros (f & fc & Hf & Hnew & Hfc & _ & Hold & Hrows & Hnames & Hdt & _)
    %cleaning_result.
  assert (l' <> df) as Hne by (intros ->; congruence).
  exists f, fc. split_and!; try done.
  - rewrite Hrows. apply sublist_filter.
  - rewrite Hold; done.
Qed.

Lemma cleaning_is_a_row_filter_witness :
  exists mb l' w',
    cleaning 0 sample_world = (inr (mb, l'), w') /\
    exists f fc,
      heap sample_world !! 0 = Some f /\ heap w' !! l' = Some fc /\
      sublist (rows fc) (rows f) /\
      column_names fc = column_names f /\
      (forall c, c <> severity -> dtype_of fc c = dtype_of f c) /\
      l' <> 0 /\
      heap w' !! 0 = Some f.
Proof.
  destruct (succeeded_inr (cleaning 0 sample_world))
    as ([mb l'] & w' & E); [vm_compute; reflexivity|].
  exists mb, l', w'. split; [exact E|].
  exact (cleaning_is_a_row_filter 0 sample_world mb l' w' E).
Defined.

Lemma filter_all {A} (P : A -> Prop) `{!forall x, Decision (P x)} (l : list A) :
  (forall x, x ∈ l -> P x) -> filter P l = l.
Proof.
  induction l as [|x l IH]; intros HP; [done|].
  rewrite filter_cons_True by (apply HP; left).
  f_equal. apply IH. intros ??. apply HP. by right.
Qed.

Lemma has_column_dtype_of f c :
  has_column f c = true -> exists dt, dtype_of f c = Some dt.
Proof.
  unfold has_column, dtype_of, column_names. intros Hc%bool_decide_eq_true.
  induction (columns f) as [|[c' dt'] cs IH]; simpl in *.
  - by apply elem_of_nil in Hc.
  - destruct (decide (c' = c)) as [->|Hne].
    + rewrite bool_decide_eq_true_2 by done. by eexists.
    + rewrite bool_decide_eq_false_2 by done. apply IH.
      apply elem_of_cons in Hc as [?|?]; [congruence|done].
Qed.

Lemma missing_column_None f subset :
  (forall c, c ∈ subset -> has_column f c = true) ->
  missing_column f subset = None.
Proof.
  intros H. unfold missing_column.
  assert (list_find (fun c => has_column f c = false) subset = None) as ->; [|done].
  apply list_find_None, Forall_forall. intros c Hc. rewrite (H c Hc). done.
Qed.

Lemma length_Categorical vals cats : length (Categorical vals cats) = length vals.
Proof. unfold Categorical. by rewrite length_map. Qed.

(** Cleaning goes through on a table that has the eight columns and whose
    severity column, when it is text, holds nothing but text. *)
Lemma cleaning_succeeds df w f :
  heap w !! df = Some f ->
  (forall c, c ∈ cols_of_interest -> has_column f c = true) ->
  (dtype_of f severity = Some Object ->
   forall ir, ir ∈ rows f ->
     at_col severity ir.2 = Null \/ is_str (at_col severity ir.2) = true) ->
  exists mb l' w', cleaning df w = (inr (mb, l'), w').
Proof.
  intros Hf Hcols Hstr. unfold cleaning.
  erewrite bind_run by (unfold load; rewrite Hf; reflexivity).
  pose proof (missing_column_None f _ Hcols) as Hm.
  unfold isnull_sum, dropna. rewrite Hm.
  erewrite bind_run by reflexivity.
  erewrite bind_run by reflexivity.
  erewrite bind_run by reflexivity.
  unfold copy.
  erewrite (bind_run (load _ ≫= _));
    [|erewrite bind_run by (unfold load; simpl; rewrite lookup_insert_eq;
                            reflexivity); reflexivity].
  simpl.
  set (d := {| columns := columns f; rows := filter _ (rows f) |}).
  destruct (has_column_dtype_of f severity (Hcols _ severity_required))
    as [dt Hdt].
  assert (dtype_of d severity = Some dt) as Hdt' by done.
  erewrite bind_run;
    [|apply getitem_run; [simpl; apply lookup_insert_eq|exact Hdt']].
  simpl. destruct (decide (dt = Object)) as [->|Hne].
  - rewrite sorted_strings.
    + erewrite bind_run.
      2:{ erewrite bind_run by reflexivity. unfold setitem.
          erewrite bind_run
            by (unfold load; simpl; rewrite lookup_insert_eq; reflexivity).
          rewrite bool_decide_eq_true_2; [reflexivity|].
          by rewrite length_Categorical, length_column_values. }
      by eexists _, _, _.
    + apply Forall_forall. intros v Hv.
      apply (proj1 (elem_of_unique _ _)) in Hv.
      apply elem_of_column_values in Hv as (ir & Hir & ->).
      apply list_elem_of_filter in Hir as [Hc Hir].
      destruct (Hstr Hdt ir Hir) as [E|E]; [|done].
      exfalso. by apply (proj1 (complete_on_spec _ _) Hc severity severity_required).
  - erewrite bind_run by reflexivity. by eexists _, _, _.
Qed.

(** ** Cross-tabulation labels *)

Lemma crosstab_pairs_all (avals bvals : list cell) :
  (forall v, v ∈ avals -> v <> Null) ->
  (forall v, v ∈ bvals -> v <> Null) ->
  filter (fun p : cell * cell => notnull p.1 && notnull p.2 = true)
         (zip avals bvals) = zip avals bvals.
Proof.
  intros Ha Hb. apply filter_all. intros [x y] Hxy. simpl.
  pose proof (elem_of_zip_l _ _ _ _ Hxy) as Hx.
  pose proof (elem_of_zip_r _ _ _ _ Hxy) as Hy.
  apply Ha in Hx. apply Hb in Hy. by destruct x, y.
Qed.

Lemma crosstab_col_labels_categorical a b cats :
  s_dtype b = Category cats ->
  length (s_values a) = length (s_values b) ->
  (forall v, v ∈ s_values a -> v <> Null) ->
  (forall v, v ∈ s_values b -> v <> Null) ->
  (forall c, c ∈ cats -> c ∈ s_values b) ->
  col_labels (crosstab a b) = cats.
Proof.
  intros Hdt Hlen Ha Hb Hcats. unfold crosstab. simpl.
  rewrite crosstab_pairs_all by done.
  rewrite snd_zip by lia. rewrite Hdt. simpl.
  by apply filter_all.
Qed.

Lemma cleaned_column_notnull fc f c v :
  rows fc = filter (fun ir => complete_on cols_of_interest ir.2 = true) (rows f) ->
  c ∈ cols_of_interest -> v ∈ column_values fc c -> v <> Null.
Proof.
  intros Hrows Hc (ir & Hir & ->)%elem_of_column_values.
  rewrite Hrows in Hir. apply list_elem_of_filter in Hir as [Hcomp _].
  by apply (proj1 (complete_on_spec _ _) Hcomp).
Qed.

(** C9.  When the severity column of the input is text, cleaning makes it
    categorical, and the categories are the distinct severity values of the
    cleaned table in ascending order, each once; every contingency table
    the script builds against severity, from one of the required columns,
    has exactly these categories as its column labels, in that order. *)
Theorem severity_categories_sorted df w f :
  heap w !! df = Some f ->
  (forall c, c ∈ cols_of_interest -> has_column f c = true) ->
  dtype_of f severity = Some Object ->
  (forall ir, ir ∈ rows f ->
     at_col severity ir.2 = Null \/ is_str (at_col severity ir.2) = true) ->
  exists mb l' w' fc cats,
    cleaning df w = (inr (mb, l'), w') /\
    heap w' !! l' = Some fc /\
    dtype_of fc severity = Some (Category cats) /\
    StronglySorted cell_le cats /\ NoDup cats /\
    Forall (fun v => is_str v = true) cats /\
    (forall v, v ∈ cats <-> v ∈ column_values fc severity) /\
    (forall var a b,
        var ∈ cols_of_interest ->
        getitem l' var w' = (inr a, w') ->
        getitem l' severity w' = (inr b, w') ->
        col_labels (crosstab a b) = cats).
Proof.
  intros Hf Hcols Hobj Hstr.
  destruct (cleaning_succeeds df w f Hf Hcols (fun _ => Hstr))
    as (mb & l' & w' & Hrun).
  pose proof Hrun as
    (f' & fc & Hf' & _ & Hfc & _ & _ & Hrows & _ & _ & _ & Hcat)%cleaning_result.
  assert (f' = f) as -> by congruence.
  destruct (Hcat Hobj) as (cats & Hsorted & Hdt).
  apply sorted_inr in Hsorted as [Hperm Hss].
  assert (forall v, v ∈ cats <-> v ∈ column_values fc severity) as Hel.
  { intros v. by rewrite Hperm, elem_of_unique. }
  exists mb, l', w', fc, cats. split_and!; try done.
  - rewrite Hperm. apply NoDup_unique.
  - apply Forall_forall. intros v Hv. apply Hel in Hv.
    pose proof (cleaned_column_notnull _ _ _ _ Hrows severity_required Hv) as Hnn.
    apply elem_of_column_values in Hv as (ir & Hir & ->).
    rewrite Hrows in Hir. apply list_elem_of_filter in Hir as [_ Hir].
    destruct (Hstr ir Hir); done.
  - intros var a b Hvar Ha Hb.
    apply getitem_inr in Ha as (fa & dta & Hfa & _ & -> & _).
    apply getitem_inr in Hb as (fb & dtb & Hfb & Hdtb & -> & _).
    assert (fa = fc) as -> by congruence.
    assert (fb = fc) as -> by congruence.
    assert (dtb = Category cats) as -> by congruence.
    apply crosstab_col_labels_categorical; simpl.
    + done.
    + by rewrite !length_column_values.
    + intros v. by apply cleaned_column_notnull with f.
    + intros v. by apply cleaned_column_notnull with f, severity_required.
    + intros c. apply Hel.
Qed.

Lemma severity_categories_sorted_witness :
  exists mb l' w' fc cats,
    cleaning 0 sample_world = (inr (mb, l'), w') /\
    heap w' !! l' = Some fc /\
    dtype_of fc severity = Some (Category cats) /\
    StronglySorted cell_le cats /\ NoDup cats /\
    Forall (fun v => is_str v = true) cats /\
    (forall v, v ∈ cats <-> v ∈ column_values fc severity) /\
    (forall var a b,
        var ∈ cols_of_interest ->
        getitem l' var w' = (inr a, w') ->
        getitem l' severity w' = (inr b, w') ->
        col_labels (crosstab a b) = cats).
Proof.
  apply (severity_categories_sorted 0 sample_world
           (frame_of_csv sample_header sample_body)).
  - reflexivity.
  - apply Forall_forall, (bool_decide_unpack _). vm_compute. exact I.
  - vm_compute. reflexivity.
  - apply Forall_forall, (bool_decide_unpack _). vm_compute. exact I.
Defined.

(** ** Frequency tables *)

Lemma count_of_cons {A} `{EqDecision A} (v x : A) l :
  count_of v (x :: l) = (if decide (x = v) then 1 else 0) + count_of v l.
Proof.
  unfold count_of. rewrite filter_cons. by destruct (decide (x = v)).
Qed.

Lemma sum_indicator (u : list cell) x :
  NoDup u -> x ∈ u ->
  sum_list (map (fun v => if decide (x = v) then 1 else 0) u) = 1.
Proof.
  induction 1 as [|y u Hy Hnd IH]; intros Hx.
  - by apply elem_of_nil in Hx.
  - simpl. destruct (decide (x = y)) as [->|Hne].
    + assert (sum_list (map (fun v => if decide (y = v) then 1 else 0) u) = 0)
        as ->; [|done].
      clear IH Hnd Hx. induction u as [|z u IH]; simpl; [done|].
      rewrite decide_False by (intros ->; apply Hy; left).
      apply IH. intros ?. apply Hy. by right.
    + apply IH. apply elem_of_cons in Hx as [?|?]; done.
Qed.

Lemma sum_count_of (u vs : list cell) :
  NoDup u -> (forall v, v ∈ vs -> v ∈ u) ->
  sum_list (map (fun v => count_of v vs) u) = length vs.
Proof.
  intros Hnd. induction vs as [|x vs IH]; intros Hin.
  - clear. induction u as [|y u IHu]; [done|]. exact IHu.
  - transitivity
      (sum_list (map (fun v => if decide (x = v) then 1 else 0) u)
       + sum_list (map (fun v => count_of v vs) u)).
    + clear. induction u as [|y u IHu]; simpl; [done|].
      rewrite count_of_cons, IHu. lia.
    + rewrite sum_indicator, IH; simpl; auto.
      * intros v Hv. apply Hin. by right.
      * apply Hin. by left.
Qed.

Lemma insert_sorted_Permutation {A} (R : relation A) `{!RelDecision R} x l :
  insert_sorted R x l ≡ₚ x :: l.
Proof.
  induction l as [|y l IH]; cbn [insert_sorted]; [done|].
  destruct (decide (R x y)); [done|]. rewrite IH. apply Permutation_swap.
Qed.

Lemma stable_sort_Permutation {A} (R : relation A) `{!RelDecision R} l :
  stable_sort R l ≡ₚ l.
Proof.
  induction l as [|x l IH]; [done|]. unfold stable_sort in *. cbn [foldr].
  by rewrite insert_sorted_Permutation, IH.
Qed.

Lemma StronglySorted_insert_sorted {A} (R : relation A) `{!RelDecision R}
      `{!Transitive R} `{!Total R} x l :
  StronglySorted R l -> StronglySorted R (insert_sorted R x l).
Proof.
  induction 1 as [|y l Hl IH Hall]; cbn [insert_sorted].
  { repeat constructor. }
  destruct (decide (R x y)) as [Hxy|Hxy].
  - constructor; [by constructor|]. constructor; [done|].
    eapply Forall_impl; [exact Hall|]. intros z Hz. by trans y.
  - constructor; [done|]. rewrite insert_sorted_Permutation.
    constructor; [|done]. by destruct (total R x y).
Qed.

Lemma StronglySorted_stable_sort {A} (R : relation A) `{!RelDecision R}
      `{!Transitive R} `{!Total R} l :
  StronglySorted R (stable_sort R l).
Proof.
  induction l as [|x l IH]; [constructor|]. unfold stable_sort in *.
  cbn [foldr]. by apply StronglySorted_insert_sorted.
Qed.

Lemma total_count_value_counts (s : series) :
  total_count (value_counts s)
  = length (filter (fun v => notnull v = true) (s_values s)).
Proof.
  unfold total_count, value_counts.
  rewrite stable_sort_Permutation.
  rewrite <- list_fmap_compose.
  apply sum_count_of.
  - apply NoDup_unique.
  - intros v. apply elem_of_unique.
Qed.

Lemma length_value_counts (s : series) :
  length (value_counts s)
  = length (unique (filter (fun v => notnull v = true) (s_values s))).
Proof.
  unfold value_counts. by rewrite stable_sort_Permutation, length_map.
Qed.

Lemma sum_list_take (l : list nat) n : sum_list (take n l) <= sum_list l.
Proof.
  rewrite <- (take_drop n l) at 2. rewrite sum_list_with_app. lia.
Qed.

Lemma frequency_tables_inr l w ft w' :
  frequency_tables l w = (inr ft, w') ->
  exists f dw dr dl dj dm dc,
    heap w !! l = Some f /\ w' = w /\
    ft = FreqTables
           (value_counts (Series "Weather_conditions" dw
                                 (column_values f "Weather_conditions")))
           (value_counts (Series "Road_surface_type" dr
                                 (column_values f "Road_surface_type")))
           (value_counts (Series "Light_conditions" dl
                                 (column_values f "Light_conditions")))
           (value_counts (Series "Types_of_Junction" dj
                                 (column_values f "Types_of_Junction")))
           (value_counts (Series "Lanes_or_Medians" dm
                                 (column_values f "Lanes_or_Medians")))
           (head 15 (value_counts (Series "Cause_of_accident" dc
                                 (column_values f "Cause_of_accident")))).
Proof.
  unfold frequency_tables.
  intros (sw & w1 & (f & dw & Hf & _ & -> & ->)%getitem_inr & H)%bind_inr.
  apply bind_inr in H as (sr & w1 & (f1 & dr & Hf1 & _ & -> & ->)%getitem_inr & H).
  apply bind_inr in H as (sl & w1 & (f2 & dl & Hf2 & _ & -> & ->)%getitem_inr & H).
  apply bind_inr in H as (sj & w1 & (f3 & dj & Hf3 & _ & -> & ->)%getitem_inr & H).
  apply bind_inr in H as (sm & w1 & (f4 & dm & Hf4 & _ & -> & ->)%getitem_inr & H).
  apply bind_inr in H as (sc & w1 & (f5 & dc & Hf5 & _ & -> & ->)%getitem_inr & H).
  injection H as <- <-.
  assert (f1 = f) as -> by congruence. assert (f2 = f) as -> by congruence.
  assert (f3 = f) as -> by congruence. assert (f4 = f) as -> by congruence.
  assert (f5 = f) as -> by congruence.
  by exists f, dw, dr, dl, dj, dm, dc.
Qed.

Lemma cleaned_column_count fc f c dt :
  rows fc = filter (fun ir => complete_on cols_of_interest ir.2 = true) (rows f) ->
  c ∈ cols_of_interest ->
  total_count (value_counts (Series c dt (column_values fc c))) = length (rows fc).
Proof.
  intros Hrows Hc. rewrite total_count_value_counts. simpl.
  rewrite filter_all, length_column_values; [done|].
  intros v Hv. pose proof (cleaned_column_notnull _ _ _ _ Hrows Hc Hv).
  by destruct v.
Qed.

(** C3, as the script has it.  The five full frequency tables (weather,
    road surface, light, junction, lanes) each sum to the number of cleaned
    rows.  The table of causes keeps only the fifteen most frequent values:
    it sums to at most the number of cleaned rows, and to exactly that
    number when the cleaned table has no more than fifteen distinct
    causes. *)
Theorem frequency_tables_totals df w mb l' w' ft w'' :
  cleaning df w = (inr (mb, l'), w') ->
  frequency_tables l' w' = (inr ft, w'') ->
  exists fc,
    heap w' !! l' = Some fc /\
    total_count (counts_weather ft) = length (rows fc) /\
    total_count (counts_road ft) = length (rows fc) /\
    total_count (counts_light ft) = length (rows fc) /\
    total_count (counts_junction ft) = length (rows fc) /\
    total_count (counts_lanes ft) = length (rows fc) /\
    total_count (counts_cause ft) <= length (rows fc) /\
    (length (unique (column_values fc "Cause_of_accident")) <= 15 ->
     total_count (counts_cause ft) = length (rows fc)).
Proof.
  intros (f & fc & _ & _ & Hfc & _ & _ & Hrows & _)%cleaning_result.
  intros (fc' & dw & dr & dl & dj & dm & dc & Hfc' & _ & ->)%frequency_tables_inr.
  assert (fc' = fc) as -> by congruence.
  assert (forall c, c ∈ cols_of_interest -> forall dt,
            total_count (value_counts (Series c dt (column_values fc c)))
            = length (rows fc)) as Hsum.
  { intros c Hc dt. by apply cleaned_column_count with f. }
  assert (forall l : list (cell * nat), total_count (head 15 l) <= total_count l)
    as Hhead.
  { intros l. unfold head, total_count. rewrite fmap_take. apply sum_list_take. }
  exists fc. cbn [counts_weather counts_road counts_light counts_junction
                  counts_lanes counts_cause].
  split; [done|].
  split; [apply Hsum; in_list|]. split; [apply Hsum; in_list|].
  split; [apply Hsum; in_list|]. split; [apply Hsum; in_list|].
  split; [apply Hsum; in_list|]. split.
  - etrans; [apply Hhead|]. apply Nat.eq_le_incl, Hsum. in_list.
  - intros Hfew. unfold head. rewrite take_ge.
    + apply Hsum. in_list.
    + rewrite length_value_counts. cbn [s_values]. rewrite filter_all; [done|].
      intros v Hv.
      assert ("Cause_of_accident" ∈ cols_of_interest) as Hc by in_list.
      pose proof (cleaned_column_notnull _ _ _ _ Hrows Hc Hv). by destruct v.
Qed.

Lemma frequency_tables_totals_witness :
  exists mb l' w' ft w'',
    cleaning 0 sample_world = (inr (mb, l'), w') /\
    frequency_tables l' w' = (inr ft, w'') /\
    exists fc,
      heap w' !! l' = Some fc /\
      total_count (counts_weather ft) = length (rows fc) /\
      total_count (counts_road ft) = length (rows fc) /\
      total_count (counts_light ft) = length (rows fc) /\
      total_count (counts_junction ft) = length (rows fc) /\
      total_count (counts_lanes ft) = length (rows fc) /\
      total_count (counts_cause ft) <= length (rows fc) /\
      (length (unique (column_values fc "Cause_of_accident")) <= 15 ->
       total_count (counts_cause ft) = length (rows fc)).
Proof.
  destruct (succeeded_inr
              ((cleaning 0 ≫= fun r => frequency_tables r.2) sample_world))
    as (ft & w'' & E); [vm_compute; reflexivity|].
  apply bind_inr in E as ([mb l'] & w' & E1 & E2).
  exists mb, l', w', ft, w''. split_and!; [exact E1|exact E2|].
  exact (frequency_tables_totals 0 sample_world mb l' w' ft w'' E1 E2).
Defined.

(** C3 as stated fails on the table of causes: with sixteen distinct causes
    in sixteen cleaned rows, the table keeps fifteen of them. *)
Lemma counts_cause_total_counterexample :
  exists mb l' w' ft w'' fc,
    cleaning 0 causes_world = (inr (mb, l'), w') /\
    frequency_tables l' w' = (inr ft, w'') /\
    heap w' !! l' = Some fc /\
    total_count (counts_cause ft) = 15 /\
    length (rows fc) = 16 /\
    total_count (counts_cause ft) <> length (rows fc).
Proof.
  destruct (result_of_Some
              ((cleaning 0 ≫= fun r =>
                frequency_tables r.2 ≫= fun ft =>
                load r.2 ≫= fun fc =>
                mret (total_count (counts_cause ft), length (rows fc)))
                 causes_world) (15, 16))
    as (w3 & E); [vm_compute; reflexivity|].
  apply bind_inr in E as ([mb l'] & w' & E1 & E).
  apply bind_inr in E as (ft & w'' & E2 & E).
  apply bind_inr in E as (fc & w2 & [Hfc ->]%load_inr & E).
  unfold mret, M_ret in E. cbn [snd] in *. injection E as E15 E16 _.
  pose proof E2 as (? & ? & ? & ? & ? & ? & ? & _ & Hw & _)%frequency_tables_inr.
  rewrite Hw in Hfc.
  exists mb, l', w', ft, w'', fc.
  split; [exact E1|]. split; [exact E2|]. split; [exact Hfc|].
  split; [exact E15|]. split; [exact E16|].
  rewrite E15, E16. lia.
Qed.

(** ** The code of the chi-square test against the cell-by-cell formulas *)

Lemma tabulate_nth {A} (d : A) (l : list A) :
  map (fun i => nth i l d) (seq 0 (length l)) = l.
Proof.
  induction l as [|x l IH]; simpl; [done|].
  f_equal. rewrite <- seq_shift, map_map. exact IH.
Qed.

Lemma grid_counts (t : table) :
  table_ok t ->
  counts t = grid (shape t).1 (shape t).2 (cell_count t).
Proof.
  intros [Hr Hc]. unfold grid, cell_count. rewrite <- Hr.
  rewrite <- (tabulate_nth [] (counts t)) at 1.
  apply map_ext_in. intros i Hi%in_seq.
  assert (length (nth i (counts t) []) = (shape t).2) as <-.
  { eapply Forall_forall in Hc; [exact Hc|].
    apply list_elem_of_In, nth_In. lia. }
  symmetry. apply tabulate_nth.
Qed.

Lemma map_grid {A B} (g : A -> B) r c (F : nat -> nat -> A) :
  map (map g) (grid r c F) = grid r c (fun i j => g (F i j)).
Proof.
  unfold grid. rewrite map_map. apply map_ext. intros i. by rewrite map_map.
Qed.

Lemma zip_with_map_same {A B C D} (f : B -> C -> D) (g : A -> B) (h : A -> C) l :
  zip_with f (map g l) (map h l) = map (fun x => f (g x) (h x)) l.
Proof. induction l; simpl; by f_equal. Qed.

Lemma zip_with_grid {A B C} (f : A -> B -> C) r c F G :
  zip_with (zip_with f) (grid r c F) (grid r c G)
  = grid r c (fun i j => f (F i j) (G i j)).
Proof.
  unfold grid. rewrite zip_with_map_same. apply map_ext. intros i.
  apply zip_with_map_same.
Qed.

Lemma qn_add a b : qn (a + b) = (qn a + qn b)%Qc.
Proof.
  unfold qn. apply Qc_is_canon. simpl.
  rewrite !Qred_correct, Nat2Z.inj_add, inject_Z_plus. reflexivity.
Qed.

Lemma qn_eq_0 n : qn n = Q2Qc 0 <-> n = 0.
Proof.
  unfold qn. rewrite Q2Qc_eq_iff. change 0%Q with (inject_Z 0).
  rewrite inject_Z_injective. lia.
Qed.

Lemma qn_is_zero n : Qc_is_zero (qn n) = bool_decide (n = 0).
Proof.
  unfold Qc_is_zero. apply bool_decide_ext, qn_eq_0.
Qed.

Lemma of_nat_add a b : fadd (of_nat a) (of_nat b) = of_nat (a + b).
Proof. unfold of_nat. simpl. by rewrite qn_add. Qed.

Lemma fsum_of_nat {A} (g : A -> nat) (l : list A) :
  fsum (map (fun x => of_nat (g x)) l) = of_nat (sum_list (map g l)).
Proof.
  induction l as [|x l IH]; [reflexivity|].
  cbn [map fsum foldr sum_list sum_list_with]. fold (fsum (map (fun x => of_nat (g x)) l)).
  rewrite IH. apply of_nat_add.
Qed.

Lemma replicate_as_map {A} (x : A) c : replicate c x = map (fun _ => x) (seq 0 c).
Proof.
  induction c as [|c IH]; simpl; [done|].
  f_equal. by rewrite <- seq_shift, map_map.
Qed.

Lemma col_margins_grid c (F : nat -> nat -> fval) (rs : list nat) :
  foldr (zip_with fadd) (replicate c fzero)
        (map (fun i => map (fun j => F i j) (seq 0 c)) rs)
  = map (fun j => fsum (map (fun i => F i j) rs)) (seq 0 c).
Proof.
  induction rs as [|i rs IH]; simpl.
  - apply replicate_as_map.
  - rewrite IH. apply zip_with_map_same.
Qed.

Lemma expected_freq_grid (t : table) :
  table_ok t ->
  expected_freq (shape t).2 (map (map of_nat) (counts t))
  = grid (shape t).1 (shape t).2 (expected_cell t).
Proof.
  intros Hok. rewrite (grid_counts t Hok) at 1. rewrite map_grid.
  unfold expected_freq, margins, grid.
  rewrite col_margins_grid, !map_map.
  apply map_ext. intros i. rewrite map_map. apply map_ext. intros j.
  unfold expected_cell, row_total, col_total, grand_total.
  rewrite !fsum_of_nat. f_equal.
  rewrite <- (fsum_of_nat (row_total t)). unfold row_total.
  f_equal. apply map_ext. intros k. by rewrite fsum_of_nat.
Qed.

Lemma power_divergence_grid r c (O E : nat -> nat -> fval) :
  power_divergence (grid r c O) (grid r c E)
  = fsum (concat (grid r c (fun i j => pearson_term (O i j) (E i j)))).
Proof. unfold power_divergence. by rewrite zip_with_grid. Qed.

Lemma yates_grid r c (O E : nat -> nat -> fval) :
  yates (grid r c O) (grid r c E) = grid r c (fun i j => yates_cell (O i j) (E i j)).
Proof. unfold yates. by rewrite zip_with_grid. Qed.

Lemma existsb_grid_false r c (E : nat -> nat -> fval) :
  existsb (existsb is_zero) (grid r c E) = false <->
  forall i j, i < r -> j < c -> is_zero (E i j) = false.
Proof.
  unfold grid. split.
  - intros H i j Hi Hj.
    destruct (is_zero (E i j)) eqn:Hz; [|done].
    rewrite <- H. symmetry. apply existsb_exists.
    exists (map (fun j => E i j) (seq 0 c)). split.
    + apply in_map_iff. exists i. split; [done|]. apply in_seq. lia.
    + apply existsb_exists. exists (E i j). split; [|done].
      apply in_map_iff. exists j. split; [done|]. apply in_seq. lia.
  - intros H. apply not_true_iff_false.
    intros (row & (i & <- & Hi%in_seq)%in_map_iff
                & (e & (j & <- & Hj%in_seq)%in_map_iff & He)%existsb_exists)
           %existsb_exists.
    rewrite H in He by lia. done.
Qed.

Lemma existsb_grid_true r c (E : nat -> nat -> fval) i j :
  i < r -> j < c -> is_zero (E i j) = true ->
  existsb (existsb is_zero) (grid r c E) = true.
Proof.
  intros Hi Hj Hz.
  destruct (existsb (existsb is_zero) (grid r c E)) eqn:Hex; [done|].
  rewrite (proj1 (existsb_grid_false r c E) Hex i j Hi Hj) in Hz. done.
Qed.

(** What the test returns when it returns, on a well-formed table. *)
Lemma chi2_contingency_inr chi2_sf (t : table) res :
  table_ok t ->
  chi2_contingency chi2_sf t = inr res ->
  (shape t).1 * (shape t).2 <> 0 /\
  dof res = ((Z.of_nat (shape t).1 - 1) * (Z.of_nat (shape t).2 - 1))%Z /\
  expected_of res = grid (shape t).1 (shape t).2 (expected_cell t) /\
  (forall i j, i < (shape t).1 -> j < (shape t).2 ->
               is_zero (expected_cell t i j) = false) /\
  (dof res = 0%Z -> statistic res = fzero /\ pvalue res = fone) /\
  (dof res = 1%Z -> statistic res = yates_sum t) /\
  (dof res <> 0%Z -> dof res <> 1%Z -> statistic res = pearson_sum t) /\
  (dof res <> 0%Z -> pvalue res = chi2_sf (statistic res) (dof res)).
Proof.
  intros Hok.
  pose proof (expected_freq_grid t Hok) as Hexp.
  pose proof (grid_counts t Hok) as Hgrid.
  unfold chi2_contingency, yates_sum, pearson_sum, sum_over_cells.
  destruct (shape t) as [r c] eqn:Hshape. cbn [fst snd] in *.
  rewrite Hexp.
  destruct (Nat.eqb_spec (r * c) 0) as [|Hsize]; [done|].
  destruct (existsb _ _) eqn:Hex; [done|].
  rewrite existsb_grid_false in Hex.
  set (d := (Z.of_nat (r * c) - Z.of_nat (r + c) + 2 - 1)%Z).
  assert (d = ((Z.of_nat r - 1) * (Z.of_nat c - 1))%Z) as Hd by (unfold d; lia).
  destruct (Z.eqb_spec d 0) as [Hd0|Hd0].
  - intros [= <-]. cbn [dof statistic pvalue expected_of].
    split_and!; [done..| | |]; intros; congruence.
  - destruct (Z.eqb_spec d 1) as [Hd1|Hd1]; intros [= <-];
      cbn [dof statistic pvalue expected_of].
    + split_and!; [done..| | | | ]; try (intros; congruence).
      intros _. rewrite Hgrid at 1.
      by rewrite map_grid, yates_grid, power_divergence_grid.
    + split_and!; [done..| | | | ]; try (intros; congruence).
      intros _ _. rewrite Hgrid at 1.
      by rewrite map_grid, power_divergence_grid.
Qed.

(** ** The association tester *)

Lemma crosstab_ok a b : table_ok (crosstab a b).
Proof.
  unfold table_ok, crosstab, shape. simpl. split.
  - by rewrite length_map.
  - apply Forall_forall. intros row (r & -> & _)%list_elem_of_fmap.
    by rewrite length_map.
Qed.

Lemma run_chi2_inr chi2_sf l var w tr w' :
  run_chi2 chi2_sf l var w = (inr tr, w') ->
  exists a b res,
    getitem l var w = (inr a, w) /\
    getitem l severity w = (inr b, w) /\
    chi2_contingency chi2_sf (crosstab a b) = inr res /\
    tr = TestResult (statistic res) (pvalue res) (dof res) (shape (crosstab a b)) /\
    w' = w.
Proof.
  unfold run_chi2. intros (a & w1 & Ha & H)%bind_inr.
  pose proof Ha as (? & ? & _ & _ & _ & ->)%getitem_inr.
  apply bind_inr in H as (b & w1 & Hb & H).
  pose proof Hb as (? & ? & _ & _ & _ & ->)%getitem_inr.
  apply bind_inr in H as (res & w1 & [Hres ->]%lift_inr & H).
  injection H as <- <-. by exists a, b, res.
Qed.

(** C5.  Whenever the tester returns a result for a variable, the degrees
    of freedom it records are (r-1)(c-1), where r and c are the numbers of
    rows and columns of the contingency table it built (the recorded table
    shape). *)
Theorem recorded_degrees_of_freedom chi2_sf l var w tr w' :
  run_chi2 chi2_sf l var w = (inr tr, w') ->
  exists a b,
    getitem l var w = (inr a, w) /\
    getitem l severity w = (inr b, w) /\
    t_table_shape tr = (length (row_labels (crosstab a b)),
                        length (col_labels (crosstab a b))) /\
    t_dof tr = ((Z.of_nat (t_table_shape tr).1 - 1)
                * (Z.of_nat (t_table_shape tr).2 - 1))%Z.
Proof.
  intros (a & b & res & Ha & Hb & Hres & -> & _)%run_chi2_inr.
  exists a, b. split_and!; try done. simpl.
  by apply (chi2_contingency_inr chi2_sf _ res (crosstab_ok a b)) in Hres
    as (_ & Hdof & _).
Qed.

Lemma recorded_degrees_of_freedom_witness :
  exists tr w',
    run_chi2 sample_sf sample_df_clean "Weather_conditions" sample_clean_world
    = (inr tr, w') /\
    exists a b,
      getitem sample_df_clean "Weather_conditions" sample_clean_world
      = (inr a, sample_clean_world) /\
      getitem sample_df_clean severity sample_clean_world
      = (inr b, sample_clean_world) /\
      t_table_shape tr = (length (row_labels (crosstab a b)),
                          length (col_labels (crosstab a b))) /\
      t_dof tr = ((Z.of_nat (t_table_shape tr).1 - 1)
                  * (Z.of_nat (t_table_shape tr).2 - 1))%Z.
Proof.
  destruct (succeeded_inr
              (run_chi2 sample_sf sample_df_clean "Weather_conditions"
                        sample_clean_world))
    as (tr & w' & E); [vm_compute; reflexivity|].
  exists tr, w'. split; [exact E|].
  exact (recorded_degrees_of_freedom _ _ _ _ _ _ E).
Defined.

(** C7.  On a contingency table with a zero expected cell the test is an
    error, raised by the check inside [chi2_contingency]; [run_chi2] has
    no handler of its own, so the error is what the tester returns. *)
Theorem zero_expected_cell_is_an_error chi2_sf (t : table) i j :
  table_ok t ->
  i < (shape t).1 -> j < (shape t).2 ->
  is_zero (expected_cell t i j) = true ->
  exists msg,
    chi2_contingency chi2_sf t = inl (ValueError msg) /\
    forall l var w a b,
      getitem l var w = (inr a, w) ->
      getitem l severity w = (inr b, w) ->
      crosstab a b = t ->
      run_chi2 chi2_sf l var w = (inl (ValueError msg), w).
Proof.
  intros Hok Hi Hj Hz.
  assert (chi2_contingency chi2_sf t = inl (ValueError zero_expected_msg)) as Hchi.
  { pose proof (expected_freq_grid t Hok) as Hexp.
    unfold chi2_contingency. destruct (shape t) as [r c]. cbn [fst snd] in *.
    rewrite Hexp.
    destruct (Nat.eqb_spec (r * c) 0) as [E|_]; [nia|].
    by rewrite (existsb_grid_true r c _ i j Hi Hj Hz). }
  exists zero_expected_msg. split; [done|].
  intros l var w a b Ha Hb <-. unfold run_chi2.
  rewrite (bind_run _ _ _ _ _ Ha). rewrite (bind_run _ _ _ _ _ Hb).
  simpl. apply bind_fail. unfold lift. by rewrite Hchi.
Qed.

Lemma zero_expected_cell_is_an_error_witness :
  exists msg,
    chi2_contingency sample_sf
      (Table [Str "Normal"; Str "Raining"]
             [Str "Fatal injury"; Str "Slight Injury"]
             [[0; 0]; [1; 2]])
    = inl (ValueError msg) /\
    forall l var w a b,
      getitem l var w = (inr a, w) ->
      getitem l severity w = (inr b, w) ->
      crosstab a b = Table [Str "Normal"; Str "Raining"]
                           [Str "Fatal injury"; Str "Slight Injury"]
                           [[0; 0]; [1; 2]] ->
      run_chi2 sample_sf l var w = (inl (ValueError msg), w).
Proof.
  apply (zero_expected_cell_is_an_error sample_sf _ 0 1).
  - split; [reflexivity|]. repeat constructor.
  - simpl. lia.
  - simpl. lia.
  - vm_compute. reflexivity.
Defined.

(** ** Rounding to a double *)

Lemma round_half_even_near a b :
  (0 < b)%Z ->
  (2 * (round_half_even a b * b) - 2 * a <= b /\
   2 * a - 2 * (round_half_even a b * b) <= b)%Z.
Proof.
  intros Hb. unfold round_half_even.
  pose proof (Z.div_mod a b ltac:(lia)) as Hdm.
  pose proof (Z.mod_pos_bound a b Hb) as Hr.
  set (q := (a / b)%Z) in *. set (r := (a mod b)%Z) in *.
  destruct (Z.ltb_spec (2 * r) b); [nia|].
  destruct (Z.ltb_spec b (2 * r)); [nia|].
  destruct (Z.even q); nia.
Qed.

Lemma round_half_even_le a b K :
  (0 < b)%Z -> (a <= K * b)%Z -> (round_half_even a b <= K)%Z.
Proof.
  intros Hb HK. unfold round_half_even.
  pose proof (Z.div_mod a b ltac:(lia)) as Hdm.
  pose proof (Z.mod_pos_bound a b Hb) as Hr.
  set (q := (a / b)%Z) in *. set (r := (a mod b)%Z) in *.
  assert (q <= K)%Z by nia.
  destruct (Z.ltb_spec (2 * r) b); [lia|].
  assert (q < K)%Z by nia.
  destruct (Z.ltb_spec b (2 * r)); [lia|].
  destruct (Z.even q); lia.
Qed.

Lemma round_half_even_nonneg a b :
  (0 < b)%Z -> (0 <= a)%Z -> (0 <= round_half_even a b)%Z.
Proof.
  intros Hb Ha. unfold round_half_even.
  pose proof (Z.div_pos a b Ha Hb).
  destruct (_ <? _)%Z; [lia|]. destruct (_ <? _)%Z; [lia|].
  destruct (Z.even _); lia.
Qed.

Lemma round_half_even_Q (x : Q) :
  (inject_Z (round_half_even (Qnum x) (Zpos (Qden x))) - (1 # 2) <= x /\
   x <= inject_Z (round_half_even (Qnum x) (Zpos (Qden x))) + (1 # 2))%Q.
Proof.
  destruct x as [a b]. cbn [Qnum Qden].
  destruct (round_half_even_near a (Zpos b) ltac:(lia)) as [H1 H2].
  set (m := round_half_even a (Z.pos b)) in *.
  clearbody m. unfold Qle, Qminus, Qplus, Qopp, inject_Z. simpl.
  split; lia.
Qed.

Lemma pow2_pos e : (0 < pow2 e)%Q.
Proof. apply Qpower_0_lt. reflexivity. Qed.

Lemma pow2_plus a b : (pow2 (a + b) == pow2 a * pow2 b)%Q.
Proof. apply Qpower_plus. discriminate. Qed.

Lemma pow2_inject k : (0 <= k)%Z -> (inject_Z (2 ^ k) == pow2 k)%Q.
Proof. intros Hk. unfold pow2. by rewrite Zpower_Qpower. Qed.

Lemma pow2_minus a b : (pow2 (a - b) == pow2 a / pow2 b)%Q.
Proof. apply Qpower_minus. discriminate. Qed.

Lemma ilog2_lower (q : Q) : (0 < q)%Q -> (pow2 (ilog2 q) <= q)%Q.
Proof.
  intros Hq. unfold ilog2.
  set (l := (Z.log2 (Qnum q) - Z.log2 (Z.pos (Qden q)))%Z).
  destruct (Qle_bool (pow2 l) q) eqn:E; [by apply Qle_bool_iff|].
  destruct q as [n d]. cbn [Qnum Qden] in *.
  assert (0 < n)%Z as Hn by (unfold Qlt in Hq; simpl in Hq; lia).
  destruct (Z.log2_spec n Hn) as [Hn1 _].
  destruct (Z.log2_spec (Z.pos d) ltac:(lia)) as [_ Hd2].
  pose proof (Z.log2_nonneg n) as Hln.
  pose proof (Z.log2_nonneg (Z.pos d)) as Hld.
  replace (l - 1)%Z with (Z.log2 n - Z.succ (Z.log2 (Z.pos d)))%Z by (unfold l; lia).
  rewrite pow2_minus, <- !pow2_inject by lia.
  set (A := (2 ^ Z.log2 n)%Z) in *.
  set (B := (2 ^ Z.succ (Z.log2 (Z.pos d)))%Z) in *.
  apply Qle_shift_div_r.
  - unfold Qlt, inject_Z. simpl. lia.
  - clearbody A B. unfold Qle, Qmult, inject_Z. simpl. nia.
Qed.

Lemma scaled_back (q : Q) e : (q * pow2 (- e) * pow2 e == q)%Q.
Proof.
  rewrite <- Qmult_assoc, <- pow2_plus.
  replace (- e + e)%Z with 0%Z by lia. unfold pow2. simpl. ring.
Qed.

Lemma scaled_lower (q : Q) :
  (0 < q)%Q -> (4503599627370496 # 1 <= q * pow2 (- (ilog2 q - 52)))%Q.
Proof.
  intros Hq. pose proof (ilog2_lower q Hq) as HL.
  pose proof (pow2_pos (- (ilog2 q - 52))) as HP.
  assert (pow2 (ilog2 q) * pow2 (- (ilog2 q - 52)) == 4503599627370496 # 1)%Q as E.
  { rewrite <- pow2_plus.
    replace (ilog2 q + - (ilog2 q - 52))%Z with 52%Z by lia. reflexivity. }
  rewrite <- E. apply Qmult_le_compat_r; [done|]. by apply Qlt_le_weak.
Qed.

Lemma round53_pos_error (q : Q) :
  (0 < q)%Q ->
  (q - q * (1 # 9007199254740992) <= round53_pos q /\
   round53_pos q <= q + q * (1 # 9007199254740992))%Q.
Proof.
  intros Hq. unfold round53_pos.
  set (e := (ilog2 q - 52)%Z).
  pose proof (scaled_lower q Hq) as Hx. fold e in Hx.
  pose proof (scaled_back q e) as Hback.
  pose proof (pow2_pos e) as HP.
  set (x := (q * pow2 (- e))%Q) in *.
  destruct (round_half_even_Q x) as [H1 H2].
  set (m := inject_Z (round_half_even (Qnum x) (Z.pos (Qden x)))) in *.
  set (P := pow2 e) in *. clearbody m P x.
  split; nra.
Qed.

Lemma ilog2_nonpos (q : Q) : (0 < q)%Q -> (q <= 1)%Q -> (ilog2 q <= 0)%Z.
Proof.
  intros Hq H1. pose proof (ilog2_lower q Hq) as HL.
  apply (Qpower_le_compat_l_inv 2); [|reflexivity].
  change (2 ^ 0)%Q with 1%Q. exact (Qle_trans _ _ _ HL H1).
Qed.

Lemma round53_pos_le_1 (q : Q) :
  (0 < q)%Q -> (q <= 1)%Q -> (round53_pos q <= 1)%Q.
Proof.
  intros Hq H1. pose proof (ilog2_nonpos q Hq H1) as HL.
  unfold round53_pos. set (e := (ilog2 q - 52)%Z).
  pose proof (pow2_pos e) as HP. pose proof (pow2_pos (- e)) as HP'.
  pose proof (scaled_back 1 e) as Hback. rewrite Qmult_1_l in Hback.
  pose proof (pow2_inject (- e) ltac:(lia)) as HK.
  set (x := (q * pow2 (- e))%Q).
  assert (x <= inject_Z (2 ^ (- e)))%Q as Hx.
  { rewrite HK. unfold x. rewrite <- (Qmult_1_l (pow2 (- e))) at 2.
    apply Qmult_le_compat_r; [done|]. by apply Qlt_le_weak. }
  clearbody x.
  assert (round_half_even (Qnum x) (Z.pos (Qden x)) <= 2 ^ (- e))%Z as Hm.
  { apply round_half_even_le; [lia|].
    unfold Qle, inject_Z in Hx. cbn [Qnum Qden] in Hx. lia. }
  rewrite <- Hback, <- HK.
  apply Qmult_le_compat_r; [|by apply Qlt_le_weak].
  by rewrite <- Zle_Qle.
Qed.

Lemma round53_pos_nonneg (q : Q) : (0 < q)%Q -> (0 <= round53_pos q)%Q.
Proof.
  intros Hq. unfold round53_pos. set (e := (ilog2 q - 52)%Z).
  pose proof (pow2_pos e) as HP. pose proof (pow2_pos (- e)) as HP'.
  set (x := (q * pow2 (- e))%Q).
  assert (0 <= Qnum x)%Z as Hx.
  { assert (0 < x)%Q as Hpos by (unfold x; by apply Qmult_lt_0_compat).
    clearbody x. unfold Qlt in Hpos. cbn [Qnum Qden] in Hpos. lia. }
  apply Qmult_le_0_compat; [|by apply Qlt_le_weak].
  change 0%Q with (inject_Z 0). rewrite <- Zle_Qle.
  apply round_half_even_nonneg; [lia|done].
Qed.

(** The same for [round53Q] on what is not negative. *)
Lemma round53Q_pos (q : Q) : (0 < q)%Q -> round53Q q = round53_pos q.
Proof.
  intros Hq. unfold round53Q. destruct q as [[|n|n] d]; try done.
Qed.

Lemma round53Q_zero (q : Q) : (q == 0)%Q -> round53Q q = 0%Q.
Proof.
  intros Hq. unfold round53Q. destruct q as [[|n|n] d]; try done.
Qed.

Lemma round53Q_error (q : Q) :
  (0 <= q)%Q ->
  (q - q * (1 # 9007199254740992) <= round53Q q /\
   round53Q q <= q + q * (1 # 9007199254740992))%Q.
Proof.
  intros Hq. destruct (Qlt_le_dec 0 q) as [Hpos|Hle].
  - rewrite (round53Q_pos q Hpos). by apply round53_pos_error.
  - assert (q == 0)%Q as E by (by apply Qle_antisym).
    rewrite (round53Q_zero q E). split; nra.
Qed.

Lemma round53Q_unit (q : Q) :
  (0 <= q)%Q -> (q <= 1)%Q -> (0 <= round53Q q /\ round53Q q <= 1)%Q.
Proof.
  intros Hq H1. destruct (Qlt_le_dec 0 q) as [Hpos|Hle].
  - rewrite (round53Q_pos q Hpos).
    split; [by apply round53_pos_nonneg|by apply round53_pos_le_1].
  - assert (q == 0)%Q as E by (by apply Qle_antisym).
    rewrite (round53Q_zero q E). split; lra.
Qed.

Lemma qn_le a b : a <= b -> (qn a <= qn b)%Qc.
Proof.
  intros H. unfold qn, Qcle. simpl. rewrite !Qred_correct.
  rewrite <- Zle_Qle. lia.
Qed.

Lemma qn_lt a b : a < b -> (qn a < qn b)%Qc.
Proof.
  intros H. unfold qn, Qclt. simpl. rewrite !Qred_correct.
  rewrite <- Zlt_Qlt. lia.
Qed.

Lemma Qc_div_bounds (a b : Qc) :
  (Q2Qc 0 <= a)%Qc -> (a <= b)%Qc -> (Q2Qc 0 < b)%Qc ->
  (Q2Qc 0 <= a / b)%Qc /\ (a / b <= Q2Qc 1)%Qc.
Proof.
  unfold Qcle, Qclt, Qcdiv, Qcmult, Qcinv. simpl.
  rewrite !Qred_correct. intros Ha Hab Hb. split.
  - apply Qle_shift_div_l; [done|]. by rewrite Qmult_0_l.
  - apply Qle_shift_div_r; [done|]. by rewrite Qmult_1_l.
Qed.

Lemma Qc_div_nonneg (a b : Qc) :
  (Q2Qc 0 <= a)%Qc -> (Q2Qc 0 < b)%Qc -> (Q2Qc 0 <= a / b)%Qc.
Proof.
  unfold Qcle, Qclt, Qcdiv, Qcmult, Qcinv. simpl.
  rewrite !Qred_correct. intros Ha Hb.
  apply Qle_shift_div_l; [done|]. by rewrite Qmult_0_l.
Qed.

Lemma round53_error (q : Qc) :
  (Q2Qc 0 <= q)%Qc ->
  (q - q * unit_roundoff <= round53 q)%Qc /\
  (round53 q <= q + q * unit_roundoff)%Qc.
Proof.
  intros Hq.
  assert (0 <= this q)%Q as Hq' by (unfold Qcle in Hq; simpl in Hq; done).
  destruct (round53Q_error q Hq') as [H1 H2].
  unfold Qcle, Qcminus, Qcplus, Qcopp, Qcmult, round53, unit_roundoff.
  cbn [this Q2Qc]. rewrite !Qred_correct. done.
Qed.

Lemma round53_unit (q : Qc) :
  (Q2Qc 0 <= q)%Qc -> (q <= Q2Qc 1)%Qc ->
  (Q2Qc 0 <= round53 q)%Qc /\ (round53 q <= Q2Qc 1)%Qc.
Proof.
  intros Hq H1.
  assert (0 <= this q)%Q as Hq' by (unfold Qcle in Hq; simpl in Hq; done).
  assert (this q <= 1)%Q as H1' by (unfold Qcle in H1; simpl in H1; done).
  destruct (round53Q_unit q Hq' H1') as [H2 H3].
  unfold Qcle, round53. cbn [this Q2Qc]. rewrite !Qred_correct. done.
Qed.

(** ** Row normalisation *)

(** An entry of the normalised table, from the count [x] of a row that
    sums to [s]. *)
Lemma normalized_entry_zero_sum :
  (let q := fround (fdiv (of_nat 0) (of_nat 0)) in
   if is_nan q then fzero else q) = fzero.
Proof. reflexivity. Qed.

Lemma normalized_entry x s :
  s <> 0 ->
  (let q := fround (fdiv (of_nat x) (of_nat s)) in
   if is_nan q then fzero else q) = Fin (round53 (qn x / qn s)).
Proof.
  intros Hs. cbn zeta. unfold of_nat. cbn [fdiv].
  rewrite qn_is_zero, (bool_decide_eq_false_2 _ Hs). reflexivity.
Qed.

Lemma normalize_rows_map (m : list (list nat)) :
  normalize_rows m
  = map (fun row =>
           map (fun x => let q := fround (fdiv (of_nat x) (of_nat (sum_list row))) in
                         if is_nan q then fzero else q) row) m.
Proof.
  unfold normalize_rows, fillna, div_axis0, sum_axis1.
  induction m as [|r m IH]; [done|].
  cbn [map zip_with]. f_equal; [by rewrite map_map|exact IH].
Qed.

Lemma normalize_rows_lookup (m : list (list nat)) i row :
  m !! i = Some row ->
  normalize_rows m !! i
  = Some (map (fun x => let q := fround (fdiv (of_nat x) (of_nat (sum_list row))) in
                        if is_nan q then fzero else q) row).
Proof.
  intros Hi. by rewrite normalize_rows_map, list_lookup_fmap, Hi.
Qed.

Lemma sum_list_0 (row : list nat) x : sum_list row = 0 -> x ∈ row -> x = 0.
Proof.
  intros Hs Hx. pose proof (sum_list_with_in x id row Hx). simpl in *. lia.
Qed.

(** The doubles nearest to the shares [x / s] of a list of counts add up,
    taken exactly, to the share of their total within the relative error
    of one rounding. *)
Lemma fsum_rounded (row : list nat) (s : nat) :
  s <> 0 ->
  exists t,
    fsum (map (fun x => Fin (round53 (qn x / qn s))) row) = Fin t /\
    (qn (sum_list row) / qn s - qn (sum_list row) / qn s * unit_roundoff <= t)%Qc /\
    (t <= qn (sum_list row) / qn s + qn (sum_list row) / qn s * unit_roundoff)%Qc.
Proof.
  intros Hs. induction row as [|x row (t & IH & Hlo & Hhi)].
  - exists (Q2Qc 0). split; [done|].
    cbn [sum_list sum_list_with]. change (qn 0) with (Q2Qc 0).
    assert (Q2Qc 0 / qn s - Q2Qc 0 / qn s * unit_roundoff = Q2Qc 0)%Qc as ->
      by (unfold Qcdiv; ring).
    assert (Q2Qc 0 / qn s + Q2Qc 0 / qn s * unit_roundoff = Q2Qc 0)%Qc as ->
      by (unfold Qcdiv; ring).
    split; apply Qcle_refl.
  - assert (Q2Qc 0 <= qn x / qn s)%Qc as Hx.
    { apply Qc_div_nonneg; [apply (qn_le 0); lia|apply (qn_lt 0); lia]. }
    destruct (round53_error _ Hx) as [Rlo Rhi].
    exists (round53 (qn x / qn s) + t)%Qc. split.
    { cbn [map fsum foldr].
      fold (fsum (map (fun x => Fin (round53 (qn x / qn s))) row)).
      by rewrite IH. }
    cbn [sum_list sum_list_with]. change (id x) with x. fold (sum_list row).
    rewrite qn_add.
    assert ((qn x + qn (sum_list row)) / qn s
            - (qn x + qn (sum_list row)) / qn s * unit_roundoff
            = (qn x / qn s - qn x / qn s * unit_roundoff)
              + (qn (sum_list row) / qn s
                 - qn (sum_list row) / qn s * unit_roundoff))%Qc as ->
      by (unfold Qcdiv; ring).
    assert ((qn x + qn (sum_list row)) / qn s
            + (qn x + qn (sum_list row)) / qn s * unit_roundoff
            = (qn x / qn s + qn x / qn s * unit_roundoff)
              + (qn (sum_list row) / qn s
                 + qn (sum_list row) / qn s * unit_roundoff))%Qc as ->
      by (unfold Qcdiv; ring).
    split; by apply Qcplus_le_compat.
Qed.

(** C6.  In the row-normalised table every row whose counts sum to a
    non-zero number holds the doubles nearest to the shares of its counts,
    and these add up to 1 within floating tolerance: their sum, taken
    exactly, differs from 1 by at most 2^-53, the relative error of one
    rounding.  Every row whose counts sum to zero is all zeros: the 0/0 of
    the division is NaN, no error, and [fillna(0)] replaces it. *)
Theorem normalized_rows_sum_to_one (m : list (list nat)) i row :
  m !! i = Some row ->
  exists row',
    normalize_rows m !! i = Some row' /\
    length row' = length row /\
    (sum_list row <> 0 ->
     exists t,
       fsum row' = Fin t /\
       (Q2Qc 1 - unit_roundoff <= t)%Qc /\ (t <= Q2Qc 1 + unit_roundoff)%Qc) /\
    (sum_list row = 0 -> row' = replicate (length row) fzero).
Proof.
  intros Hi. eexists. split; [by apply normalize_rows_lookup|].
  split; [by rewrite length_map|]. split.
  - intros Hs.
    erewrite map_ext by (intros x; apply (normalized_entry x _ Hs)).
    destruct (fsum_rounded row (sum_list row) Hs) as (t & Ht & Hlo & Hhi).
    exists t. split; [done|].
    assert (qn (sum_list row) / qn (sum_list row) = Q2Qc 1)%Qc as E.
    { apply Qcmult_inv_r. intros E. apply qn_eq_0 in E. done. }
    rewrite E in Hlo, Hhi.
    assert (Q2Qc 1 * unit_roundoff = unit_roundoff)%Qc as E1 by ring.
    rewrite E1 in Hlo, Hhi. done.
  - intros Hs. rewrite Hs.
    rewrite replicate_as_map.
    rewrite <- (tabulate_nth 0 row) at 1. rewrite !map_map.
    apply map_ext_in. intros k Hk%in_seq.
    assert (nth k row 0 = 0) as ->; [|apply normalized_entry_zero_sum].
    apply (sum_list_0 row); [done|]. apply list_elem_of_In, nth_In. lia.
Qed.

(** On the table [[1, 2], [1, 1]] the first row becomes the doubles
    nearest to 1/3 and 2/3, which add up to 1 - 2^-54, and the second two
    halves, which add up to 1. *)
Lemma normalized_thirds_and_halves :
  map fsum (normalize_rows [[1; 2]; [1; 1]])
  = [Fin (Q2Qc (18014398509481983 # 18014398509481984)); fone].
Proof. in_list. Qed.

Lemma normalized_rows_sum_to_one_witness :
  [[1; 2]; [1; 1]] !! 0 = Some [1; 2] /\
  exists row',
    normalize_rows [[1; 2]; [1; 1]] !! 0 = Some row' /\
    length row' = length [1; 2] /\
    (sum_list [1; 2] <> 0 ->
     exists t,
       fsum row' = Fin t /\
       (Q2Qc 1 - unit_roundoff <= t)%Qc /\ (t <= Q2Qc 1 + unit_roundoff)%Qc) /\
    (sum_list [1; 2] = 0 -> row' = replicate (length [1; 2]) fzero).
Proof.
  split; [reflexivity|].
  apply (normalized_rows_sum_to_one [[1; 2]; [1; 1]] 0 [1; 2]).
  reflexivity.
Defined.

(** ** Tables with a single row or a single column *)

Lemma fsum_concat_grid_zero r c (F : nat -> nat -> fval) :
  (forall i j, i < r -> j < c -> F i j = fzero) ->
  fsum (concat (grid r c F)) = fzero.
Proof.
  intros H.
  assert (forall l : list fval, Forall (fun x => x = fzero) l -> fsum l = fzero)
    as Hall.
  { induction 1 as [|x l -> _ IH]; simpl; [done|]. rewrite IH. by vm_compute. }
  apply Hall, Forall_concat, Forall_forall.
  intros row (i & -> & Hi%elem_of_seq)%list_elem_of_fmap.
  apply Forall_forall. intros x (j & -> & Hj%elem_of_seq)%list_elem_of_fmap.
  apply H; lia.
Qed.

Lemma pearson_term_same n : n <> 0 -> pearson_term (of_nat n) (of_nat n) = fzero.
Proof.
  intros Hn. unfold pearson_term, of_nat, fzero. simpl.
  rewrite qn_is_zero, bool_decide_eq_false_2 by done.
  f_equal. unfold Qcdiv. ring.
Qed.

Lemma expected_single_l n a :
  n <> 0 -> fdiv (fmul (of_nat n) (of_nat a)) (of_nat n) = of_nat a.
Proof.
  intros Hn. unfold of_nat. simpl.
  rewrite qn_is_zero, bool_decide_eq_false_2 by done.
  f_equal. field. by rewrite qn_eq_0.
Qed.

Lemma expected_single_r n a :
  n <> 0 -> fdiv (fmul (of_nat a) (of_nat n)) (of_nat n) = of_nat a.
Proof.
  intros Hn. unfold of_nat. simpl.
  rewrite qn_is_zero, bool_decide_eq_false_2 by done.
  f_equal. field. by rewrite qn_eq_0.
Qed.

Lemma of_nat_is_zero n : is_zero (of_nat n) = bool_decide (n = 0).
Proof. apply qn_is_zero. Qed.

(** With one row or one column the expected counts are the observed ones,
    and the sum of the formula is zero. *)
Lemma pearson_sum_degenerate (t : table) :
  (shape t).1 = 1 \/ (shape t).2 = 1 ->
  0 < grand_total t ->
  (forall i j, i < (shape t).1 -> j < (shape t).2 ->
               is_zero (expected_cell t i j) = false) ->
  pearson_sum t = fzero.
Proof.
  intros Hone Hpos Hnz. unfold pearson_sum, sum_over_cells.
  apply fsum_concat_grid_zero. intros i j Hi Hj.
  specialize (Hnz i j Hi Hj).
  assert (expected_cell t i j = of_nat (cell_count t i j)) as He.
  { unfold expected_cell. destruct Hone as [Hr|Hc].
    - assert (i = 0) as -> by lia.
      assert (row_total t 0 = grand_total t) as ->
        by (unfold grand_total; rewrite Hr; simpl; lia).
      assert (col_total t j = cell_count t 0 j) as ->
        by (unfold col_total; rewrite Hr; simpl; lia).
      apply expected_single_l. lia.
    - assert (j = 0) as -> by lia.
      assert (row_total t i = cell_count t i 0) as Hrow
        by (unfold row_total; rewrite Hc; simpl; lia).
      assert (col_total t 0 = grand_total t) as ->.
      { unfold col_total, grand_total. f_equal. apply map_ext.
        intros k. unfold row_total. rewrite Hc. simpl. lia. }
      rewrite Hrow. apply expected_single_r. lia. }
  rewrite He in *. rewrite of_nat_is_zero in Hnz.
  apply pearson_term_same. by apply bool_decide_eq_false in Hnz.
Qed.

(** ** Tables built by [crosstab] have a positive total *)

Lemma labels_of_observed dt (observed : list cell) v :
  v ∈ labels_of dt observed -> v ∈ observed.
Proof.
  destruct dt; simpl.
  1-3: rewrite merge_sort_Permutation; apply elem_of_unique.
  by intros [? _]%list_elem_of_filter.
Qed.

Lemma labels_of_complete dt (observed : list cell) v :
  match dt with Category cats => v ∈ cats | _ => True end ->
  v ∈ observed -> v ∈ labels_of dt observed.
Proof.
  destruct dt; simpl; intros Hc Hv.
  1-3: rewrite merge_sort_Permutation; by apply elem_of_unique.
  by apply list_elem_of_filter.
Qed.

Lemma count_of_pos {A} `{EqDecision A} (x : A) l : x ∈ l -> 0 < count_of x l.
Proof.
  induction 1 as [|y l Hin IH]; rewrite count_of_cons.
  - rewrite decide_True by done. lia.
  - lia.
Qed.

Lemma crosstab_cell_count a b i j r c :
  row_labels (crosstab a b) !! i = Some r ->
  col_labels (crosstab a b) !! j = Some c ->
  cell_count (crosstab a b) i j
  = count_of (r, c)
      (filter (fun p : cell * cell => notnull p.1 && notnull p.2 = true)
              (zip (s_values a) (s_values b))).
Proof.
  unfold cell_count, crosstab. simpl. intros Hi Hj.
  erewrite (nth_lookup_Some _ i); [|by rewrite list_lookup_fmap, Hi].
  erewrite (nth_lookup_Some _ j); [|by rewrite list_lookup_fmap, Hj].
  done.
Qed.

Lemma cell_le_grand_total (t : table) i j :
  i < (shape t).1 -> j < (shape t).2 -> cell_count t i j <= grand_total t.
Proof.
  intros Hi Hj. transitivity (row_total t i).
  - unfold row_total.
    apply (sum_list_with_in _ id). apply list_elem_of_fmap.
    exists j. split; [done|]. apply elem_of_seq. lia.
  - unfold grand_total.
    apply (sum_list_with_in _ id). apply list_elem_of_fmap.
    exists i. split; [done|]. apply elem_of_seq. lia.
Qed.

Lemma crosstab_positive a b :
  series_ok b ->
  (shape (crosstab a b)).1 <> 0 ->
  0 < grand_total (crosstab a b).
Proof.
  intros Hokb Hr.
  set (pairs := filter (fun p : cell * cell => notnull p.1 && notnull p.2 = true)
                       (zip (s_values a) (s_values b))).
  destruct (row_labels (crosstab a b)) as [|r0 rl] eqn:Hrl.
  { exfalso. apply Hr. unfold shape. by rewrite Hrl. }
  assert (r0 ∈ row_labels (crosstab a b)) as Hr0 by (rewrite Hrl; left).
  pose proof Hr0 as Hobs. unfold crosstab in Hobs. cbn [row_labels] in Hobs.
  apply labels_of_observed in Hobs.
  apply list_elem_of_fmap in Hobs as ([r0' c0] & -> & Hp). cbn [fst snd] in *.
  fold pairs in Hp.
  assert (c0 ∈ col_labels (crosstab a b)) as Hc0.
  { unfold crosstab. cbn [col_labels]. fold pairs.
    pose proof Hp as [Hnn Hz]%list_elem_of_filter. cbn [fst snd] in Hnn.
    apply labels_of_complete.
    - unfold series_ok in Hokb. destruct (s_dtype b); try done.
      apply Hokb; [by eapply elem_of_zip_r|]. by destruct r0', c0.
    - apply list_elem_of_fmap. by exists (r0', c0). }
  apply list_elem_of_lookup in Hr0 as [i Hi].
  apply list_elem_of_lookup in Hc0 as [j Hj].
  pose proof (crosstab_cell_count a b i j _ _ Hi Hj) as Hcell. fold pairs in Hcell.
  pose proof (count_of_pos _ _ Hp).
  pose proof (cell_le_grand_total (crosstab a b) i j) as Hle.
  apply lookup_lt_Some in Hi, Hj. unfold shape in Hle. cbn [fst snd] in Hle.
  specialize (Hle Hi Hj). lia.
Qed.

(** ** Frames read from a file carry no categorical column *)

Lemma infer_dtype_plain vals :
  infer_dtype vals = Object \/ infer_dtype vals = Float64 \/ infer_dtype vals = Int64.
Proof.
  unfold infer_dtype.
  destruct (bool_decide _), (existsb is_str vals), (existsb isnull vals); auto.
Qed.

Lemma dtype_of_elem f c dt : dtype_of f c = Some dt -> (c, dt) ∈ columns f.
Proof.
  unfold dtype_of. destruct (find _ _) as [[c' dt']|] eqn:Hf; [|done].
  intros [= <-]. apply find_some in Hf as [Hin Hc%bool_decide_eq_true].
  simpl in Hc. subst c'. by apply list_elem_of_In.
Qed.

Lemma frame_of_csv_plain header body c dt :
  dtype_of (frame_of_csv header body) c = Some dt ->
  dt = Object \/ dt = Float64 \/ dt = Int64.
Proof.
  intros H%dtype_of_elem. unfold frame_of_csv in H. simpl in H.
  apply elem_of_lookup_imap in H as (i & name & [= _ ->] & _).
  apply infer_dtype_plain.
Qed.

Lemma read_csv_inr path w df w' :
  read_csv path w = (inr df, w') ->
  exists header body,
    files w !! path = Some (CsvFile header body) /\
    heap w' !! df = Some (frame_of_csv header body) /\
    files w' = files w.
Proof.
  unfold read_csv. intros (c & w1 & Hc & H)%bind_inr.
  unfold read_file in Hc. injection Hc as <- <-.
  destruct (files w !! path) as [[|header body| |]|] eqn:E; try done.
  destruct (bool_decide (header = [])); [done|].
  destruct (too_long header body); [done|].
  unfold alloc in H. injection H as <- <-. simpl.
  exists header, body. split_and!; try done. by rewrite lookup_insert_eq.
Qed.

(** The cleaned frame of a frame without categorical columns is
    well-formed: its only categorical column is the severity, whose
    categories cover its values. *)
Lemma cleaned_frame_ok df w mb l' w' f fc :
  cleaning df w = (inr (mb, l'), w') ->
  heap w !! df = Some f ->
  heap w' !! l' = Some fc ->
  (forall c dt, dtype_of f c = Some dt ->
                dt = Object \/ dt = Float64 \/ dt = Int64) ->
  frame_ok fc.
Proof.
  intros (f' & fc' & Hf' & _ & Hfc' & _ & _ & _ & _ & Hdt & Hno & Hobj)
         %cleaning_result Hf Hfc Hplain.
  assert (f' = f) as -> by congruence. assert (fc' = fc) as -> by congruence.
  intros c dt Hc. unfold series_ok. simpl.
  destruct dt as [| | |cats]; try done.
  destruct (decide (c = severity)) as [->|Hne].
  - destruct (decide (dtype_of f severity = Some Object)) as [E|E].
    + destruct (Hobj E) as (cats' & Hsorted & Hcat).
      assert (cats' = cats) as -> by congruence.
      apply sorted_inr in Hsorted as [Hperm _].
      intros v Hv _. rewrite Hperm. by apply elem_of_unique.
    + rewrite (Hno E) in Hc. destruct (Hplain _ _ Hc) as [?|[?|?]]; done.
  - rewrite (Hdt c Hne) in Hc. destruct (Hplain _ _ Hc) as [?|[?|?]]; done.
Qed.

Lemma getitem_series_ok l c w s w' f :
  heap w !! l = Some f -> frame_ok f ->
  getitem l c w = (inr s, w') -> series_ok s.
Proof.
  intros Hf Hok (f' & dt & Hf' & Hdt & -> & _)%getitem_inr.
  assert (f' = f) as -> by congruence. by apply Hok.
Qed.

(** C2, as the code has it.  For every contingency table the script builds
    from a column of the cleaned data against the severity, and for which
    the test returns: when the table has one degree of freedom (two rows and
    two columns) the statistic is the sum over all cells of
    (observed' - expected)^2 / expected, where observed' is the observed
    count moved towards the expected one by min(1/2, |observed - expected|)
    (Yates' correction, the library default); otherwise it is the sum over
    all cells of (observed - expected)^2 / expected.  In both cases
    expected[i][j] = row_total[i] * col_total[j] / grand_total.  (The
    sums are taken exactly: the statistic is the value of the formula,
    which the library computes in doubles.) *)
Theorem chi2_statistic_formula chi2_sf path w0 df w mb l' w' var tr w'' :
  read_csv path w0 = (inr df, w) ->
  cleaning df w = (inr (mb, l'), w') ->
  run_chi2 chi2_sf l' var w' = (inr tr, w'') ->
  exists a b,
    getitem l' var w' = (inr a, w') /\
    getitem l' severity w' = (inr b, w') /\
    (t_dof tr = 1%Z -> t_chi2 tr = yates_sum (crosstab a b)) /\
    (t_dof tr <> 1%Z -> t_chi2 tr = pearson_sum (crosstab a b)).
Proof.
  intros (header & body & _ & Hdf & _)%read_csv_inr Hclean
         (a & b & res & Ha & Hb & Hres & -> & _)%run_chi2_inr.
  pose proof Hclean as (f & fc & Hf & _ & Hfc & _)%cleaning_result.
  assert (f = frame_of_csv header body) as -> by congruence.
  assert (frame_ok fc) as Hok.
  { eapply cleaned_frame_ok; [done..|]. apply frame_of_csv_plain. }
  assert (series_ok b) as Hokb by (by eapply getitem_series_ok).
  apply (chi2_contingency_inr chi2_sf _ res (crosstab_ok a b)) in Hres
    as (Hsize & Hdof & _ & Hnz & H0 & H1 & H2 & _).
  exists a, b. simpl. split_and!; try done.
  intros Hne1. destruct (decide (dof res = 0%Z)) as [E0|E0]; [|by apply H2].
  destruct (H0 E0) as [-> _]. symmetry. apply pearson_sum_degenerate.
  - rewrite E0 in Hdof. nia.
  - apply crosstab_positive; [done|lia].
  - done.
Qed.

Lemma chi2_statistic_formula_witness :
  exists df w mb l' w' w'',
    read_csv input_path {| heap := ∅; files := sample_files |} = (inr df, w) /\
    cleaning df w = (inr (mb, l'), w') /\
    run_chi2 sample_sf l' "Weather_conditions" w'
    = (inr (TestResult fzero NaN 1 (2, 2)), w'') /\
    exists a b,
      getitem l' "Weather_conditions" w' = (inr a, w') /\
      getitem l' severity w' = (inr b, w') /\
      (t_dof (TestResult fzero NaN 1 (2, 2)) = 1%Z ->
       t_chi2 (TestResult fzero NaN 1 (2, 2)) = yates_sum (crosstab a b)) /\
      (t_dof (TestResult fzero NaN 1 (2, 2)) <> 1%Z ->
       t_chi2 (TestResult fzero NaN 1 (2, 2)) = pearson_sum (crosstab a b)).
Proof.
  destruct (result_of_Some
              ((read_csv input_path ≫= fun df =>
                cleaning df ≫= fun r =>
                run_chi2 sample_sf r.2 "Weather_conditions")
                 {| heap := ∅; files := sample_files |})
              (TestResult fzero NaN 1 (2, 2)))
    as (w'' & E); [vm_compute; reflexivity|].
  apply bind_inr in E as (df & w & E1 & E).
  apply bind_inr in E as ([mb l'] & w' & E2 & E3). cbn [snd] in E3.
  exists df, w, mb, l', w', w''.
  split; [exact E1|]. split; [exact E2|]. split; [exact E3|].
  exact (chi2_statistic_formula _ _ _ _ _ _ _ _ _ _ _ E1 E2 E3).
Defined.

(** C2 as stated fails on a table with two rows and two columns: on the
    weather-by-severity table of the sample the plain sum is 5/36, and the
    statistic the test returns is 0. *)
Lemma chi2_statistic_counterexample :
  exists tr w' a b,
    run_chi2 sample_sf sample_df_clean "Weather_conditions" sample_clean_world
    = (inr tr, w') /\
    getitem sample_df_clean "Weather_conditions" sample_clean_world
    = (inr a, sample_clean_world) /\
    getitem sample_df_clean severity sample_clean_world
    = (inr b, sample_clean_world) /\
    counts (crosstab a b) = [[1; 2]; [1; 1]] /\
    t_dof tr = 1%Z /\
    t_chi2 tr = fzero /\
    pearson_sum (crosstab a b) = Fin (Q2Qc (5 # 36)) /\
    t_chi2 tr <> pearson_sum (crosstab a b).
Proof.
  destruct (result_of_Some
              ((run_chi2 sample_sf sample_df_clean "Weather_conditions" ≫= fun tr =>
                getitem sample_df_clean "Weather_conditions" ≫= fun a =>
                getitem sample_df_clean severity ≫= fun b =>
                mret (counts (crosstab a b), t_dof tr,
                      bool_decide (t_chi2 tr = fzero),
                      bool_decide (pearson_sum (crosstab a b)
                                   = Fin (Q2Qc (5 # 36)))))
                 sample_clean_world)
              ([[1; 2]; [1; 1]], 1%Z, true, true))
    as (w3 & E); [vm_compute; reflexivity|].
  apply bind_inr in E as (tr & w' & E1 & E).
  pose proof E1 as (? & ? & ? & _ & _ & _ & _ & Hw)%run_chi2_inr. subst w'.
  apply bind_inr in E as (a & w1 & Ea & E).
  pose proof Ea as (? & ? & _ & _ & _ & Hw)%getitem_inr. subst w1.
  apply bind_inr in E as (b & w1 & Eb & E).
  pose proof Eb as (? & ? & _ & _ & _ & Hw)%getitem_inr. subst w1.
  apply mret_inr in E as [E _]. injection E as Hcounts Hdof Hchi Hsum.
  apply bool_decide_eq_true_1 in Hchi. apply bool_decide_eq_true_1 in Hsum.
  exists tr, sample_clean_world, a, b.
  split; [exact E1|]. split; [exact Ea|]. split; [exact Eb|].
  split; [exact Hcounts|]. split; [exact Hdof|]. split; [exact Hchi|].
  split; [exact Hsum|].
  rewrite Hchi, Hsum. unfold fzero. intros [= H%Q2Qc_eq_iff].
Qed.

(** ** What each stage may touch *)

#[global] Instance same_heap_preorder : PreOrder same_heap.
Proof. split; unfold same_heap; [done|]. intros ??? -> ->. done. Qed.

#[global] Instance same_files_preorder : PreOrder same_files.
Proof. split; unfold same_files; [done|]. intros ??? -> ->. done. Qed.

#[global] Instance same_file_preorder p : PreOrder (same_file p).
Proof. split; unfold same_file; [done|]. intros ??? -> ->. done. Qed.

Lemma preserves_bind {A B} (R : relation world) `{!PreOrder R}
      (m : M A) (k : A -> M B) :
  preserves R m -> (forall x, preserves R (k x)) -> preserves R (m ≫= k).
Proof.
  intros Hm Hk w r w' H. unfold mbind, M_bind in H.
  destruct (m w) as [[e|x] w1] eqn:E.
  - injection H as <- <-. by eapply Hm.
  - transitivity w1; [by eapply Hm|by eapply Hk].
Qed.

Lemma preserves_ret {A} R `{!PreOrder R} (x : A) : preserves R (mret x).
Proof. intros w r w' [= <- <-]. done. Qed.

Lemma preserves_raise {A} R `{!PreOrder R} e : preserves R (@raise A e).
Proof. intros w r w' [= <- <-]. done. Qed.

Lemma preserves_lift {A} R `{!PreOrder R} (x : error + A) : preserves R (lift x).
Proof. intros w r w' [= <- <-]. done. Qed.

Lemma preserves_load R `{!PreOrder R} l : preserves R (load l).
Proof.
  intros w r w'. unfold load. destruct (heap w !! l); intros [= <- <-]; done.
Qed.

Lemma preserves_read_file R `{!PreOrder R} p : preserves R (read_file p).
Proof. intros w r w' [= <- <-]. done. Qed.

Lemma same_files_alloc f : preserves same_files (alloc f).
Proof. intros w r w' [= <- <-]. done. Qed.

Lemma same_files_store l f : preserves same_files (store l f).
Proof. intros w r w' [= <- <-]. done. Qed.

Lemma same_heap_write_file p c : preserves same_heap (write_file p c).
Proof.
  intros w r w'. unfold write_file.
  destruct (files w !! p) as [[]|]; intros [= <- <-]; done.
Qed.

Lemma same_file_write_file p q c : p <> q -> preserves (same_file p) (write_file q c).
Proof.
  intros Hne w r w'. unfold write_file, same_file.
  destruct (files w !! q) as [[]|]; intros [= <- <-]; simpl;
    by rewrite ?lookup_insert_ne.
Qed.

Lemma same_files_same_file {A} p (m : M A) :
  preserves same_files m -> preserves (same_file p) m.
Proof. intros H w r w' Hm. unfold same_file. by rewrite (H w r w' Hm). Qed.

#[local] Hint Resolve preserves_ret preserves_raise preserves_lift
  preserves_load preserves_read_file same_files_alloc same_files_store
  same_heap_write_file : script_db.

#[local] Hint Extern 1 (PreOrder _) => apply _ : script_db.

Ltac preserves_tac :=
  repeat first
    [ progress intros
    | apply preserves_bind; [apply _| |]
    | solve [auto with script_db]
    | match goal with
      | |- preserves _ (match ?x with _ => _ end) => destruct x
      | |- preserves _ (if ?b then _ else _) => destruct b
      end ].

Lemma same_files_copy l : preserves same_files (copy l).
Proof. unfold copy. preserves_tac. Qed.

Lemma same_files_getitem l c : preserves same_files (getitem l c).
Proof. unfold getitem. preserves_tac. Qed.

Lemma same_heap_getitem l c : preserves same_heap (getitem l c).
Proof. unfold getitem. preserves_tac. Qed.

Lemma same_files_setitem l c dt vals : preserves same_files (setitem l c dt vals).
Proof. unfold setitem. preserves_tac. Qed.

#[local] Hint Resolve same_files_copy same_files_getitem same_heap_getitem
  same_files_setitem : script_db.

Lemma same_files_read_csv path : preserves same_files (read_csv path).
Proof. unfold read_csv. preserves_tac. Qed.

Lemma same_files_cleaning df : preserves same_files (cleaning df).
Proof. unfold cleaning. preserves_tac. Qed.

Lemma same_files_frequency_tables l : preserves same_files (frequency_tables l).
Proof. unfold frequency_tables. preserves_tac. Qed.

Lemma same_heap_frequency_tables l : preserves same_heap (frequency_tables l).
Proof. unfold frequency_tables. preserves_tac. Qed.

Lemma same_files_run_chi2 chi2_sf l var : preserves same_files (run_chi2 chi2_sf l var).
Proof. unfold run_chi2. preserves_tac. Qed.

Lemma same_heap_run_chi2 chi2_sf l var : preserves same_heap (run_chi2 chi2_sf l var).
Proof. unfold run_chi2. preserves_tac. Qed.

#[local] Hint Resolve same_files_run_chi2 same_heap_run_chi2 : script_db.

Lemma same_files_run_tests chi2_sf l vars :
  preserves same_files (run_tests chi2_sf l vars).
Proof. induction vars; simpl; preserves_tac. Qed.

Lemma same_heap_run_tests chi2_sf l vars :
  preserves same_heap (run_tests chi2_sf l vars).
Proof. induction vars; simpl; preserves_tac. Qed.

Lemma same_heap_mkdirs paths : preserves same_heap (mkdirs paths).
Proof.
  induction paths as [|p rest IH]; cbn [mkdirs]; [preserves_tac|].
  apply preserves_bind; [apply _|auto with script_db|].
  intros [[]|]; [done| | | |]; preserves_tac.
Qed.

Lemma same_file_mkdirs p paths :
  p ∉ paths -> preserves (same_file p) (mkdirs paths).
Proof.
  induction paths as [|q rest IH]; cbn [mkdirs]; intros Hp; [preserves_tac|].
  apply not_elem_of_cons in Hp as [Hne Hp].
  apply preserves_bind; [apply _|auto with script_db|].
  intros [[]|]; [by apply IH| | | |]; preserves_tac;
    first [by apply same_file_write_file | by apply IH].
Qed.

Lemma same_heap_makedirs path : preserves same_heap (makedirs path).
Proof. apply same_heap_mkdirs. Qed.

Lemma same_file_makedirs p path :
  p ∉ ancestors path ++ [path] -> preserves (same_file p) (makedirs path).
Proof. apply same_file_mkdirs. Qed.

Lemma output_dirs_eq : output_dirs = ["/mnt"; "/mnt/data"; out_dir].
Proof. reflexivity. Qed.

Lemma same_heap_plot renders name c : preserves same_heap (plot renders name c).
Proof. unfold plot. preserves_tac. Qed.

Lemma same_file_plot renders p name c :
  p <> path_join out_dir name -> preserves (same_file p) (plot renders name c).
Proof.
  intros Hne. unfold plot. preserves_tac. by apply same_file_write_file.
Qed.

#[local] Hint Resolve same_heap_plot : script_db.

Lemma same_heap_plots renders l ft : preserves same_heap (plots renders l ft).
Proof. unfold plots. preserves_tac. Qed.

(** The six image files. *)
Lemma same_file_plots renders p l ft :
  p ∉ image_files -> preserves (same_file p) (plots renders l ft).
Proof.
  intros Hp. unfold plots.
  repeat first
    [ progress intros
    | apply same_files_same_file, same_files_getitem
    | apply same_file_plot; intros ->; apply Hp; in_list
    | apply preserves_bind; [apply _| |] ].
Qed.

Lemma same_heap_to_csv l path : preserves same_heap (to_csv l path).
Proof. unfold to_csv. preserves_tac. Qed.

Lemma same_file_to_csv p l path : p <> path -> preserves (same_file p) (to_csv l path).
Proof.
  intros Hne. unfold to_csv. preserves_tac. by apply same_file_write_file.
Qed.

#[local] Hint Resolve same_heap_to_csv : script_db.

Lemma same_heap_export l tests : preserves same_heap (export l tests).
Proof. unfold export. preserves_tac. Qed.

Lemma same_file_export p l tests :
  p <> cleaned_csv -> p <> summary_csv -> preserves (same_file p) (export l tests).
Proof.
  intros H1 H2. unfold export.
  apply preserves_bind; [apply _| |intros ?].
  - by apply same_file_to_csv.
  - by apply same_file_write_file.
Qed.

(** ** A cleaned table without rows *)

Lemma labels_of_nil dt : labels_of dt [] = [].
Proof.
  destruct dt as [| | |cats]; simpl; try done.
  induction cats as [|c cats IH]; [done|].
  rewrite filter_cons_False; [done|]. apply not_elem_of_nil.
Qed.

Lemma getitem_cases l c w :
  (exists e, getitem l c w = (inl e, w)) \/
  (exists f dt, heap w !! l = Some f /\ dtype_of f c = Some dt /\
                getitem l c w = (inr (Series c dt (column_values f c)), w)).
Proof.
  unfold getitem, mbind, M_bind, load.
  destruct (heap w !! l) as [f|] eqn:Hf; [|left; eexists; reflexivity].
  destruct (dtype_of f c) as [dt|] eqn:Hdt; [|left; eexists; reflexivity].
  right. by exists f, dt.
Qed.

Lemma chi2_contingency_no_rows chi2_sf a b :
  s_values a = [] ->
  chi2_contingency chi2_sf (crosstab a b) = inl (ValueError no_data_msg).
Proof.
  intros Ha. unfold chi2_contingency, crosstab, shape. cbn [row_labels col_labels counts].
  rewrite Ha. cbn [zip zip_with filter list_filter fmap list_fmap].
  by rewrite labels_of_nil.
Qed.

Lemma run_chi2_no_rows chi2_sf l var w fc :
  heap w !! l = Some fc -> rows fc = [] ->
  exists e, run_chi2 chi2_sf l var w = (inl e, w).
Proof.
  intros Hfc Hrows. unfold run_chi2.
  destruct (getitem_cases l var w) as [[e He]|(f & dt & Hf & _ & Ha)].
  { exists e. by apply bind_fail. }
  rewrite (bind_run _ _ _ _ _ Ha).
  destruct (getitem_cases l severity w) as [[e He]|(f' & dt' & _ & _ & Hb)].
  { exists e. by apply bind_fail. }
  rewrite (bind_run _ _ _ _ _ Hb).
  eexists. apply bind_fail. unfold lift.
  rewrite chi2_contingency_no_rows; [done|]. simpl.
  assert (f = fc) as -> by congruence.
  unfold column_values. by rewrite Hrows.
Qed.

Lemma run_tests_no_rows chi2_sf l w fc :
  heap w !! l = Some fc -> rows fc = [] ->
  exists e, run_tests chi2_sf l tested_variables w = (inl e, w).
Proof.
  intros Hfc Hrows. unfold tested_variables. simpl.
  destruct (run_chi2_no_rows chi2_sf l "Weather_conditions" w fc Hfc Hrows)
    as [e He].
  exists e. by apply bind_fail.
Qed.

Lemma read_csv_run fs header body :
  fs !! input_path = Some (CsvFile header body) ->
  header <> [] -> too_long header body = false ->
  read_csv input_path {| heap := ∅; files := fs |}
  = (inr (fresh (dom (∅ : gmap nat frame))),
     {| heap := {[ fresh (dom (∅ : gmap nat frame))
                   := frame_of_csv header body ]};
        files := fs |}).
Proof.
  intros Hin Hne Hlong. unfold read_csv.
  erewrite bind_run by (unfold read_file; simpl; reflexivity).
  rewrite Hin, (bool_decide_eq_false_2 _ Hne), Hlong. reflexivity.
Qed.

(** A file that cannot be parsed ends the run where it starts. *)
Lemma read_csv_rejects fs header body :
  fs !! input_path = Some (CsvFile header body) ->
  header = [] \/ too_long header body = true ->
  exists e,
    read_csv input_path {| heap := ∅; files := fs |}
    = (inl e, {| heap := ∅; files := fs |}).
Proof.
  intros Hin Hbad. unfold read_csv.
  erewrite bind_run by (unfold read_file; simpl; reflexivity).
  rewrite Hin. destruct (decide (header = [])) as [->|Hne].
  { by eexists. }
  rewrite (bool_decide_eq_false_2 _ Hne).
  destruct Hbad as [? | ->]; [done|]. by eexists.
Qed.

(** A run whose cleaned table has no rows dies, and a file that is neither
    one of the directories down to the output directory nor one of the
    images is left as it was. *)
Lemma run_no_rows_dies chi2_sf renders fs header body p :
  fs !! input_path = Some (CsvFile header body) ->
  filter (fun ir => complete_on cols_of_interest ir.2 = true)
         (rows (frame_of_csv header body)) = [] ->
  p ∉ output_dirs ->
  p ∉ image_files ->
  exists e w, run chi2_sf renders fs = (inl e, w) /\ files w !! p = fs !! p.
Proof.
  intros Hin Hempty Hdir Hpng. unfold run, analysis.
  destruct (decide (header = [])) as [Hnil|Hne].
  { destruct (read_csv_rejects fs header body Hin (or_introl Hnil)) as [e He].
    exists e, {| heap := ∅; files := fs |}. split; [by apply bind_fail|done]. }
  destruct (too_long header body) eqn:Hlong.
  { destruct (read_csv_rejects fs header body Hin (or_intror Hlong)) as [e He].
    exists e, {| heap := ∅; files := fs |}. split; [by apply bind_fail|done]. }
  rewrite (bind_run _ _ _ _ _ (read_csv_run fs header body Hin Hne Hlong)).
  set (df := fresh (dom (∅ : gmap nat frame))).
  set (w1 := {| heap := {[ df := frame_of_csv header body ]}; files := fs |}).
  destruct (cleaning df w1) as [[e|[mb l']] w2] eqn:E2.
  { exists e, w2. split; [by apply bind_fail|].
    by rewrite (same_files_cleaning _ _ _ _ E2). }
  rewrite (bind_run _ _ _ _ _ E2).
  pose proof (same_files_cleaning _ _ _ _ E2) as F2.
  apply cleaning_result in E2
    as (f & fc & Hf & _ & Hfc & _ & _ & Hrows & _).
  assert (f = frame_of_csv header body) as ->.
  { unfold w1 in Hf. simpl in Hf. rewrite lookup_singleton_eq in Hf. congruence. }
  rewrite Hempty in Hrows.
  destruct (frequency_tables l' w2) as [[e|ft] w3] eqn:E3.
  { exists e, w3. split; [by apply bind_fail|].
    by rewrite (same_files_frequency_tables _ _ _ _ E3), F2. }
  rewrite (bind_run _ _ _ _ _ E3).
  pose proof (same_files_frequency_tables _ _ _ _ E3) as F3.
  pose proof (same_heap_frequency_tables _ _ _ _ E3) as H3.
  destruct (makedirs out_dir w3) as [[e|u] w4] eqn:E4.
  { exists e, w4. split; [by apply bind_fail|].
    by rewrite (same_file_makedirs p out_dir Hdir _ _ _ E4), F3, F2. }
  rewrite (bind_run _ _ _ _ _ E4).
  pose proof (same_file_makedirs p out_dir Hdir _ _ _ E4) as F4.
  pose proof (same_heap_makedirs _ _ _ _ E4) as H4.
  destruct (plots renders l' ft w4) as [[e|u'] w5] eqn:E5.
  { exists e, w5. split; [by apply bind_fail|].
    by rewrite (same_file_plots renders p _ _ Hpng _ _ _ E5), F4, F3, F2. }
  rewrite (bind_run _ _ _ _ _ E5).
  pose proof (same_file_plots renders p _ _ Hpng _ _ _ E5) as F5.
  pose proof (same_heap_plots _ _ _ _ _ _ E5) as H5.
  assert (heap w5 !! l' = Some fc) as Hfc5 by (by rewrite H5, H4, H3).
  destruct (run_tests_no_rows chi2_sf l' w5 fc Hfc5 Hrows) as [e He].
  exists e, w5. split; [by apply bind_fail|].
  by rewrite F5, F4, F3, F2.
Qed.

(** C4, as the code has it.  When no input row survives cleaning, the run
    is an error; it never reaches the export, and neither the cleaned-data
    CSV nor the chi-square summary CSV is written: each is what it was
    before the run. *)
Theorem empty_cleaned_table_aborts_before_export chi2_sf renders fs header body :
  fs !! input_path = Some (CsvFile header body) ->
  filter (fun ir => complete_on cols_of_interest ir.2 = true)
         (rows (frame_of_csv header body)) = [] ->
  exists e w,
    run chi2_sf renders fs = (inl e, w) /\
    files w !! cleaned_csv = fs !! cleaned_csv /\
    files w !! summary_csv = fs !! summary_csv.
Proof.
  intros Hin Hempty.
  destruct (run_no_rows_dies chi2_sf renders fs header body cleaned_csv
              Hin Hempty) as (e & w & Hrun & Hc); [in_list..|].
  destruct (run_no_rows_dies chi2_sf renders fs header body summary_csv
              Hin Hempty) as (e' & w' & Hrun' & Hs); [in_list..|].
  rewrite Hrun in Hrun'. injection Hrun' as <- <-.
  by exists e, w.
Qed.

Lemma empty_cleaned_table_aborts_before_export_witness :
  exists e w,
    run sample_sf always_renders incomplete_files = (inl e, w) /\
    files w !! cleaned_csv = incomplete_files !! cleaned_csv /\
    files w !! summary_csv = incomplete_files !! summary_csv.
Proof.
  eapply (empty_cleaned_table_aborts_before_export sample_sf always_renders
            incomplete_files).
  - vm_compute. reflexivity.
  - vm_compute. reflexivity.
Defined.

(** C4 as stated fails: on an input whose two records are both incomplete,
    and with every chart drawn without trouble, the run dies in the first
    chi-square test with the library's complaint about an empty table, and
    neither CSV file exists afterwards. *)
Lemma empty_cleaned_table_counterexample :
  exists w,
    run sample_sf always_renders incomplete_files
    = (inl (ValueError no_data_msg), w) /\
    files w !! cleaned_csv = None /\
    files w !! summary_csv = None.
Proof.
  assert ((run sample_sf always_renders incomplete_files).1
          = inl (ValueError no_data_msg)) as H1 by (vm_compute; reflexivity).
  assert (files (run sample_sf always_renders incomplete_files).2 !! cleaned_csv
          = None) as H2 by (vm_compute; reflexivity).
  assert (files (run sample_sf always_renders incomplete_files).2 !! summary_csv
          = None) as H3 by (vm_compute; reflexivity).
  destruct (run sample_sf always_renders incomplete_files) as [r w].
  cbn [fst snd] in *. subst r. by exists w.
Qed.

(** ** Running the script a second time *)

Lemma heap_only_run_chi2 chi2_sf l var : heap_only (run_chi2 chi2_sf l var).
Proof. unfold run_chi2. heap_only_tac. Qed.

#[local] Hint Resolve heap_only_run_chi2 : script_db.

Lemma heap_only_run_tests chi2_sf l vars : heap_only (run_tests chi2_sf l vars).
Proof. induction vars; simpl; heap_only_tac. Qed.

Lemma replays_heap_only {A} P (m : M A) : heap_only m -> replays P m.
Proof.
  intros Hm [h G] x w' F Hrun _ _. simpl.
  destruct (Hm h) as (r & h' & Hr).
  pose proof (Hr G) as HG. rewrite Hrun in HG. injection HG as <- ->.
  apply Hr.
Qed.

Lemma replays_bind {A B} Pm Pk P (m : M A) (k : A -> M B) :
  replays Pm m ->
  (forall x, replays Pk (k x)) ->
  preserves (same_file input_path) m ->
  (forall x p, p ∈ Pm -> preserves (same_file p) (k x)) ->
  Pm ⊆ P -> Pk ⊆ P ->
  replays P (m ≫= k).
Proof.
  intros Hm Hk Hin Hkeep HPm HPk w y w'' F Hrun HF HP.
  apply bind_inr in Hrun as (x & w' & Hm1 & Hk1).
  erewrite bind_run.
  2:{ apply (Hm w x w' F Hm1 HF). intros p Hp.
      rewrite (HP p (HPm p Hp)). apply (Hkeep x p Hp _ _ _ Hk1). }
  apply (Hk x w' y w'' F Hk1).
  - rewrite HF. symmetry. apply (Hin _ _ _ Hm1).
  - intros p Hp. apply HP, HPk, Hp.
Qed.

Lemma write_file_inr p c w u w' :
  write_file p c w = (inr u, w') ->
  heap w' = heap w /\ files w' = <[p := c]> (files w).
Proof.
  unfold write_file. destruct (files w !! p) as [[]|]; by intros [= <- <-].
Qed.

Lemma write_file_again p c h F :
  F !! p = Some c -> c <> Directory ->
  write_file p c {| heap := h; files := F |} = (inr (), {| heap := h; files := F |}).
Proof.
  intros Hp Hc. unfold write_file. simpl. rewrite Hp.
  destruct c; try done; by rewrite insert_id.
Qed.

Lemma replays_write_file p c : c <> Directory -> replays [p] (write_file p c).
Proof.
  intros Hc w [] w' F Hrun _ HP.
  apply write_file_inr in Hrun as [-> Hf].
  apply write_file_again; [|done].
  rewrite (HP p) by set_solver. rewrite Hf. apply lookup_insert_eq.
Qed.

(** After [mkdirs] every directory of the chain is there. *)
Lemma mkdirs_inr paths w u w' :
  mkdirs paths w = (inr u, w') ->
  heap w' = heap w /\ forall p, p ∈ paths -> files w' !! p = Some Directory.
Proof.
  revert w. induction paths as [|q rest IH]; intros w; cbn [mkdirs].
  { intros [_ ->]%mret_inr. split; [done|]. by intros p ?%elem_of_nil. }
  intros (c & w1 & Hc & Hrun)%bind_inr.
  unfold read_file in Hc. injection Hc as <- <-.
  assert (exists w1, mkdirs rest w1 = (inr u, w') /\ heap w1 = heap w /\
                     files w1 !! q = Some Directory) as (w1 & Hrest & Hh & Hq).
  { destruct (files w !! q) as [[]|] eqn:E.
    - by exists w.
    - destruct rest; discriminate.
    - destruct rest; discriminate.
    - destruct rest; discriminate.
    - apply bind_inr in Hrun as ([] & w1 & [Hh Hf]%write_file_inr & Hrun).
      exists w1. split; [done|]. split; [done|].
      rewrite Hf. apply lookup_insert_eq. }
  destruct (IH _ Hrest) as [Hh' Hall]. split; [congruence|].
  intros p [->|Hp]%elem_of_cons; [|by apply Hall].
  destruct (decide (q ∈ rest)) as [Hin|Hout]; [by apply Hall|].
  by rewrite (same_file_mkdirs q rest Hout _ _ _ Hrest).
Qed.

Lemma mkdirs_again paths h F :
  (forall p, p ∈ paths -> F !! p = Some Directory) ->
  mkdirs paths {| heap := h; files := F |} = (inr (), {| heap := h; files := F |}).
Proof.
  induction paths as [|q rest IH]; intros Hall; cbn [mkdirs]; [done|].
  erewrite bind_run by (unfold read_file; simpl; reflexivity).
  rewrite (Hall q) by left. apply IH. intros p Hp. apply Hall. by right.
Qed.

Lemma replays_makedirs path :
  replays (ancestors path ++ [path]) (makedirs path).
Proof.
  intros w [] w' F Hrun _ HP. unfold makedirs in *.
  apply mkdirs_inr in Hrun as [-> Hall].
  apply mkdirs_again. intros p Hp. rewrite (HP p Hp). by apply Hall.
Qed.

Lemma replays_plot renders name c :
  replays [path_join out_dir name] (plot renders name c).
Proof.
  unfold plot. destruct (renders c); [|done].
  by apply replays_write_file.
Qed.

Lemma replays_to_csv l path : replays [path] (to_csv l path).
Proof.
  unfold to_csv.
  apply (replays_bind [] [path]).
  - apply replays_heap_only, heap_only_load.
  - intros f. by apply replays_write_file.
  - preserves_tac.
  - intros ? ? []%elem_of_nil.
  - set_solver.
  - set_solver.
Qed.

Lemma replays_read_csv : replays [] (read_csv input_path).
Proof.
  intros w x w' F Hrun HF _. unfold read_csv in *.
  apply bind_inr in Hrun as (c & w1 & Hc & Hrun).
  unfold read_file in Hc. injection Hc as <- <-.
  erewrite bind_run by (unfold read_file; simpl; reflexivity).
  rewrite HF. destruct (files w !! input_path) as [[|header body| |]|]; try done.
  destruct (bool_decide (header = [])); [done|].
  destruct (too_long header body); [done|].
  unfold alloc in *. simpl. by injection Hrun as <- <-.
Qed.

Lemma replays_weaken {A} P Q (m : M A) : replays P m -> P ⊆ Q -> replays Q m.
Proof.
  intros Hm HPQ w x w' F Hrun HF HQ. apply Hm; [done..|].
  intros p Hp. apply HQ, HPQ, Hp.
Qed.

(** [p] is not [q], both being paths the script spells out. *)
Ltac paths_differ := let E := fresh in intros E; vm_compute in E; discriminate.

Ltac keep_tac :=
  repeat first
    [ progress intros
    | apply same_files_same_file;
      first [ apply same_files_cleaning | apply same_files_frequency_tables
            | apply same_files_run_tests | apply same_files_read_csv
            | apply same_files_getitem | apply same_files_alloc
            | apply same_files_store ]
    | apply same_file_plot; paths_differ
    | apply same_file_makedirs; in_list
    | apply same_file_to_csv; paths_differ
    | apply same_file_write_file; paths_differ
    | apply same_file_plots; in_list
    | apply same_file_export; paths_differ
    | solve [auto with script_db]
    | apply preserves_bind; [apply _| |]
    | match goal with
      | |- preserves _ (match ?x with _ => _ end) => destruct x
      | |- preserves _ (if ?b then _ else _) => destruct b
      end ].

(** Every path of the list [Pm] the goal quantifies over is kept. *)
Ltac each_path :=
  let x := fresh in let p := fresh in let Hp := fresh in
  intros x p Hp; revert p Hp; apply Forall_forall;
  unfold image_files; cbn [map];
  repeat (apply Forall_cons_2; [keep_tac|]); apply Forall_nil_2.

(** A list of paths that is spelled out lies within another. *)
Ltac subset_tac :=
  let p := fresh in let Hp := fresh in
  intros p Hp; revert p Hp; apply Forall_forall;
  unfold image_files; cbn [map];
  repeat (apply Forall_cons_2; [in_list|]); apply Forall_nil_2.

Ltac replays_step P leaf :=
  eapply (replays_bind _ P P);
  [ leaf | intros | keep_tac | each_path | subset_tac | done ].

Lemma replays_plots renders l ft : replays image_files (plots renders l ft).
Proof.
  unfold plots.
  replays_step image_files ltac:(apply replays_plot).
  replays_step image_files ltac:(apply replays_plot).
  replays_step image_files ltac:(apply replays_plot).
  replays_step image_files ltac:(apply replays_plot).
  replays_step image_files
    ltac:(apply (replays_heap_only []), heap_only_getitem).
  replays_step image_files
    ltac:(apply (replays_heap_only []), heap_only_getitem).
  replays_step image_files ltac:(apply replays_plot).
  replays_step image_files
    ltac:(apply (replays_heap_only []), heap_only_getitem).
  replays_step image_files
    ltac:(apply (replays_heap_only []), heap_only_getitem).
  eapply replays_weaken; [apply replays_plot|subset_tac].
Qed.

Lemma replays_export l tests : replays [cleaned_csv; summary_csv] (export l tests).
Proof.
  unfold export.
  replays_step [cleaned_csv; summary_csv] ltac:(apply replays_to_csv).
  eapply replays_weaken; [by apply replays_write_file|subset_tac].
Qed.

Lemma replays_analysis chi2_sf renders : replays output_files (analysis chi2_sf renders).
Proof.
  unfold analysis.
  replays_step output_files ltac:(apply replays_read_csv).
  replays_step output_files
    ltac:(apply (replays_heap_only []), heap_only_cleaning).
  match goal with |- replays _ (let '(_, _) := ?y in _) => destruct y end.
  replays_step output_files
    ltac:(apply (replays_heap_only []), heap_only_frequency_tables).
  replays_step output_files ltac:(apply replays_makedirs).
  replays_step output_files ltac:(apply replays_plots).
  replays_step output_files
    ltac:(apply (replays_heap_only []), heap_only_run_tests).
  replays_step output_files ltac:(apply replays_export).
  apply replays_heap_only, heap_only_ret.
Qed.

Lemma same_file_analysis chi2_sf renders :
  preserves (same_file input_path) (analysis chi2_sf renders).
Proof. unfold analysis. keep_tac. Qed.

Lemma export_inr l tests w u w' :
  export l tests w = (inr u, w') ->
  exists f,
    heap w !! l = Some f /\
    files w' !! cleaned_csv
    = Some (CsvFile (column_names f)
                    (map (fun ir => map (fun c => at_col c ir.2) (column_names f))
                         (rows f))) /\
    files w' !! summary_csv = Some (SummaryFile tests).
Proof.
  unfold export, to_csv.
  intros (u1 & w1 & H1 & H2)%bind_inr.
  apply bind_inr in H1 as (f & w0 & [Hf ->]%load_inr & H1).
  apply write_file_inr in H1 as [_ F1]. apply write_file_inr in H2 as [_ F2].
  exists f. split; [done|]. rewrite F2, F1. split.
  - rewrite lookup_insert_ne by paths_differ. apply lookup_insert_eq.
  - apply lookup_insert_eq.
Qed.

(** A run that succeeds leaves both exported files behind. *)
Lemma analysis_exports chi2_sf renders w0 o w :
  analysis chi2_sf renders w0 = (inr o, w) ->
  exists header body,
    files w !! cleaned_csv = Some (CsvFile header body) /\
    files w !! summary_csv = Some (SummaryFile (v_tests o)).
Proof.
  unfold analysis.
  intros (df & w1 & _ & H)%bind_inr.
  apply bind_inr in H as ([mb l'] & w2 & _ & H).
  apply bind_inr in H as (ft & w3 & _ & H).
  apply bind_inr in H as (u1 & w4 & _ & H).
  apply bind_inr in H as (u2 & w5 & _ & H).
  apply bind_inr in H as (tests & w6 & _ & H).
  apply bind_inr in H as (u3 & w7 & (f & _ & Hc & Hs)%export_inr & H).
  apply mret_inr in H as [<- ->]. cbn [v_tests]. eexists _, _.
  split; [exact Hc|exact Hs].
Qed.

(** C8.  A run that succeeds leaves the two CSV files behind, and a second
    run over the file system the first one left (the input untouched, the
    output directory and the files of the first run in place) succeeds with
    the same values and writes the same contents to both CSV files. *)
Theorem second_run_writes_the_same_csv_files chi2_sf renders fs o w :
  run chi2_sf renders fs = (inr o, w) ->
  exists csv1 csv2 w2,
    files w !! cleaned_csv = Some csv1 /\
    files w !! summary_csv = Some csv2 /\
    run chi2_sf renders (files w) = (inr o, w2) /\
    files w2 !! cleaned_csv = Some csv1 /\
    files w2 !! summary_csv = Some csv2 /\
    files w2 = files w.
Proof.
  unfold run. intros Hrun.
  destruct (analysis_exports _ _ _ _ _ Hrun) as (header & body & Hc & Hs).
  pose proof (same_file_analysis chi2_sf renders _ _ _ Hrun) as Hin.
  unfold same_file in Hin. cbn [files] in Hin.
  pose proof (replays_analysis chi2_sf renders _ _ _ (files w) Hrun Hin
                (fun _ _ => eq_refl)) as Hre.
  cbn [heap] in Hre.
  exists (CsvFile header body), (SummaryFile (v_tests o)),
         {| heap := heap w; files := files w |}.
  split; [exact Hc|]. split; [exact Hs|]. split; [exact Hre|].
  split; [exact Hc|]. split; [exact Hs|]. reflexivity.
Qed.

Lemma second_run_writes_the_same_csv_files_witness :
  exists o w csv1 csv2 w2,
    run sample_sf always_renders sample_files = (inr o, w) /\
    files w !! cleaned_csv = Some csv1 /\
    files w !! summary_csv = Some csv2 /\
    run sample_sf always_renders (files w) = (inr o, w2) /\
    files w2 !! cleaned_csv = Some csv1 /\
    files w2 !! summary_csv = Some csv2 /\
    files w2 = files w.
Proof.
  destruct (succeeded_inr (run sample_sf always_renders sample_files))
    as (o & w & E); [vm_compute; reflexivity|].
  destruct (second_run_writes_the_same_csv_files _ _ _ _ _ E)
    as (csv1 & csv2 & w2 & H).
  exists o, w, csv1, csv2, w2. split; [exact E|exact H].
Defined.

(** * Further properties of the script *)

(** ** The missing-value report against the rows dropped (lines 24-27) *)

Lemma length_filter_split {A} (P : A -> Prop) `{!forall x, Decision (P x)} (l : list A) :
  length (filter P l) + length (filter (fun x => ~ P x) l) = length l.
Proof.
  induction l as [|x l IH]; [done|].
  rewrite !filter_cons. destruct (decide (P x)), (decide (~ P x)); simpl; try lia;
    tauto.
Qed.

Lemma sum_list_map_add {A} (a b : A -> nat) (l : list A) :
  sum_list (map (fun x => a x + b x) l) = sum_list (map a l) + sum_list (map b l).
Proof. induction l as [|x l IH]; simpl; lia. Qed.

Lemma isnull_sum_inr subset f mb :
  isnull_sum subset f = inr mb ->
  mb = map (fun c => (c, length (filter (fun v => isnull v = true)
                                         (column_values f c)))) subset.
Proof. unfold isnull_sum. destruct (missing_column f subset); by intros [= <-]. Qed.

Lemma null_count_rows f c :
  length (filter (fun v => isnull v = true) (column_values f c))
  = length (filter (fun ir : nat * record => isnull (at_col c ir.2) = true) (rows f)).
Proof.
  unfold column_values. induction (rows f) as [|ir rs IH]; [done|].
  cbn [map]. rewrite !filter_cons.
  destruct (decide (isnull (at_col c ir.2) = true)); simpl; by rewrite IH.
Qed.

Lemma incomplete_has_null subset (r : record) :
  complete_on subset r <> true ->
  1 <= sum_list (map (fun c => if isnull (at_col c r) then 1 else 0) subset).
Proof.
  unfold complete_on. induction subset as [|c cs IH]; [done|].
  cbn [forallb map sum_list sum_list_with]. unfold notnull.
  destruct (isnull (at_col c r)); simpl; [lia|]. intros H. specialize (IH H).
  change (sum_list_with id ?l) with (sum_list l). lia.
Qed.

Lemma dropped_rows_bound subset (rs : list (nat * record)) :
  length (filter (fun ir : nat * record => ~ complete_on subset ir.2 = true) rs)
  <= sum_list
       (map (fun c => length (filter (fun ir : nat * record =>
                                        isnull (at_col c ir.2) = true) rs))
            subset).
Proof.
  induction rs as [|ir rs IH].
  - induction subset; simpl; [done|]. done.
  - transitivity
      (sum_list (map (fun c => (if isnull (at_col c ir.2) then 1 else 0)
                               + length (filter (fun ir : nat * record =>
                                           isnull (at_col c ir.2) = true) rs))
                     subset)).
    + rewrite sum_list_map_add, filter_cons.
      destruct (decide (~ complete_on subset ir.2 = true)) as [Hn|Hn]; simpl.
      * pose proof (incomplete_has_null subset ir.2 Hn). lia.
      * lia.
    + apply Nat.eq_le_incl. f_equal. apply map_ext. intros c.
      rewrite filter_cons.
      destruct (isnull (at_col c ir.2)) eqn:E.
      * by rewrite decide_True.
      * by rewrite decide_False.
Qed.

(** X1.  The report of missing values computed before cleaning lists the
    eight required columns in order, each with the number of input rows
    whose cell in that column is missing.  Every such row is dropped, so
    the cleaned table has at most (input rows - n) rows for each reported
    n, and at least (input rows - sum of all reported n) rows. *)
Theorem missing_before_bounds_dropped_rows df w mb l' w' :
  cleaning df w = (inr (mb, l'), w') ->
  exists f fc,
    heap w !! df = Some f /\ heap w' !! l' = Some fc /\
    mb.*1 = cols_of_interest /\
    (forall c n, (c, n) ∈ mb ->
       n = length (filter (fun ir : nat * record =>
                             isnull (at_col c ir.2) = true) (rows f)) /\
       length (rows fc) + n <= length (rows f)) /\
    length (rows f) <= length (rows fc) + sum_list (mb.*2).
Proof.
  intros Hrun.
  pose proof Hrun as (f & fc & Hf & _ & Hfc & _ & _ & Hrows & _)%cleaning_result.
  apply cleaning_inv in Hrun as (f' & _ & _ & Hf' & Hmb%isnull_sum_inr & _).
  assert (f' = f) as -> by congruence.
  pose proof (length_filter_split
                (fun ir : nat * record => complete_on cols_of_interest ir.2 = true)
                (rows f)) as Hsplit.
  rewrite <- Hrows in Hsplit.
  exists f, fc. split; [done|]. split; [done|]. split; [|split].
  - rewrite Hmb, <- list_fmap_compose. apply list_fmap_id.
  - intros c n Hcn. rewrite Hmb in Hcn.
    apply list_elem_of_fmap in Hcn as (c' & [= -> ->] & Hc).
    rewrite null_count_rows. split; [done|].
    rewrite <- Hsplit. apply Nat.add_le_mono_l.
    clear -Hc. induction (rows f) as [|ir rs IH]; [done|].
    rewrite !filter_cons.
    destruct (decide (isnull (at_col c' ir.2) = true)) as [Hn|Hn].
    + rewrite decide_True; [simpl; lia|].
      intros Hcomp. pose proof (proj1 (complete_on_spec _ _) Hcomp c' Hc).
      by destruct (at_col c' ir.2).
    + destruct (decide _); simpl; lia.
  - rewrite <- Hsplit. apply Nat.add_le_mono_l.
    etrans; [apply dropped_rows_bound|]. apply Nat.eq_le_incl.
    rewrite Hmb, <- list_fmap_compose. f_equal. apply map_ext. intros c.
    simpl. by rewrite null_count_rows.
Qed.

Lemma missing_before_bounds_dropped_rows_witness :
  exists mb l' w',
    cleaning 0 sample_world = (inr (mb, l'), w') /\
    exists f fc,
      heap sample_world !! 0 = Some f /\ heap w' !! l' = Some fc /\
      mb.*1 = cols_of_interest /\
      (forall c n, (c, n) ∈ mb ->
         n = length (filter (fun ir : nat * record =>
                               isnull (at_col c ir.2) = true) (rows f)) /\
         length (rows fc) + n <= length (rows f)) /\
      length (rows f) <= length (rows fc) + sum_list (mb.*2).
Proof.
  destruct (succeeded_inr (cleaning 0 sample_world))
    as ([mb l'] & w' & E); [vm_compute; reflexivity|].
  exists mb, l', w'. split; [exact E|].
  exact (missing_before_bounds_dropped_rows 0 sample_world mb l' w' E).
Defined.

(** ** Frequency tables: contents and order (lines 37-42) *)

#[global] Instance more_frequent_trans : Transitive more_frequent.
Proof. intros a b c. unfold more_frequent. lia. Qed.

#[global] Instance more_frequent_total : Total more_frequent.
Proof. intros a b. unfold more_frequent. lia. Qed.

Lemma count_of_notnull (v : cell) (l : list cell) :
  count_of v (filter (fun x => notnull x = true) l)
  = if isnull v then 0 else count_of v l.
Proof.
  unfold count_of. induction l as [|x l IH]; [by destruct (isnull v)|].
  rewrite !filter_cons.
  destruct (decide (notnull x = true)) as [Hx|Hx], (decide (x = v)) as [->|Hne];
    rewrite ?filter_cons, ?decide_True, ?decide_False by done; simpl;
    rewrite IH; try done.
  - unfold notnull in Hx. by destruct (isnull v).
  - unfold notnull in Hx. by destruct (isnull v).
Qed.

Lemma value_counts_elem (s : series) v n :
  (v, n) ∈ value_counts s <->
  v ∈ s_values s /\ v <> Null /\ n = count_of v (s_values s).
Proof.
  unfold value_counts. rewrite stable_sort_Permutation, list_elem_of_fmap.
  split.
  - intros (v' & [= -> ->] & Hv). apply (proj1 (elem_of_unique _ _)) in Hv.
    apply list_elem_of_filter in Hv as [Hnn Hv].
    rewrite count_of_notnull. destruct v'; done.
  - intros (Hv & Hnn & ->). exists v. split.
    + rewrite count_of_notnull. by destruct v.
    + apply elem_of_unique, list_elem_of_filter. split; [by destruct v|done].
Qed.

Lemma value_counts_keys_NoDup (s : series) : NoDup (value_counts s).*1.
Proof.
  unfold value_counts. rewrite stable_sort_Permutation, <- list_fmap_compose.
  rewrite list_fmap_id. apply NoDup_unique.
Qed.

Lemma value_counts_sorted (s : series) :
  StronglySorted more_frequent (value_counts s).
Proof. unfold value_counts. apply StronglySorted_stable_sort; apply _. Qed.

(** X2.  Each of the five full frequency tables of the script lists every
    value of its column in the cleaned table exactly once, paired with the
    number of cleaned rows holding it, in order of non-increasing count. *)
Theorem frequency_tables_contents df w mb l' w' ft w'' :
  cleaning df w = (inr (mb, l'), w') ->
  frequency_tables l' w' = (inr ft, w'') ->
  exists fc,
    heap w' !! l' = Some fc /\
    forall c t,
      (c, t) ∈ [("Weather_conditions", counts_weather ft);
                ("Road_surface_type", counts_road ft);
                ("Light_conditions", counts_light ft);
                ("Types_of_Junction", counts_junction ft);
                ("Lanes_or_Medians", counts_lanes ft)] ->
      NoDup (t.*1) /\
      StronglySorted more_frequent t /\
      forall v n, (v, n) ∈ t <->
                  v ∈ column_values fc c /\ n = count_of v (column_values fc c).
Proof.
  intros (f & fc & _ & _ & Hfc & _ & _ & Hrows & _)%cleaning_result.
  intros (fc' & dw & dr & dl & dj & dm & dc & Hfc' & _ & ->)%frequency_tables_inr.
  assert (fc' = fc) as -> by congruence.
  exists fc. split; [done|]. intros c t Hct.
  assert (c ∈ cols_of_interest /\
          exists dt, t = value_counts (Series c dt (column_values fc c)))
    as [Hc [dt ->]].
  { cbn [counts_weather counts_road counts_light counts_junction counts_lanes]
      in Hct.
    repeat (apply elem_of_cons in Hct as [[= -> ->]|Hct];
            [split; [in_list|by eexists]|]).
    by apply elem_of_nil in Hct. }
  split; [apply value_counts_keys_NoDup|].
  split; [apply value_counts_sorted|].
  intros v n. rewrite value_counts_elem. cbn [s_values]. split.
  - tauto.
  - intros [Hv ->]. split; [done|]. split; [|done].
    by apply (cleaned_column_notnull fc f c).
Qed.

Lemma frequency_tables_contents_witness :
  exists mb l' w' ft w'',
    cleaning 0 sample_world = (inr (mb, l'), w') /\
    frequency_tables l' w' = (inr ft, w'') /\
    exists fc,
      heap w' !! l' = Some fc /\
      forall c t,
        (c, t) ∈ [("Weather_conditions", counts_weather ft);
                  ("Road_surface_type", counts_road ft);
                  ("Light_conditions", counts_light ft);
                  ("Types_of_Junction", counts_junction ft);
                  ("Lanes_or_Medians", counts_lanes ft)] ->
        NoDup (t.*1) /\
        StronglySorted more_frequent t /\
        forall v n, (v, n) ∈ t <->
                    v ∈ column_values fc c /\ n = count_of v (column_values fc c).
Proof.
  destruct (succeeded_inr
              ((cleaning 0 ≫= fun r => frequency_tables r.2) sample_world))
    as (ft & w'' & E); [vm_compute; reflexivity|].
  apply bind_inr in E as ([mb l'] & w' & E1 & E2).
  exists mb, l', w', ft, w''. split; [exact E1|]. split; [exact E2|].
  exact (frequency_tables_contents 0 sample_world mb l' w' ft w'' E1 E2).
Defined.

(** X3.  The table of causes holds at most fifteen entries, the first
    fifteen of the full frequency table of the causes; no cause left out
    occurs more often than a cause kept. *)
Theorem counts_cause_keeps_most_frequent l w ft w' :
  frequency_tables l w = (inr ft, w') ->
  exists f dt,
    heap w !! l = Some f /\
    let full := value_counts (Series "Cause_of_accident" dt
                                     (column_values f "Cause_of_accident")) in
    counts_cause ft = take 15 full /\
    length (counts_cause ft) <= 15 /\
    forall v n u m,
      (v, n) ∈ counts_cause ft ->
      (u, m) ∈ full -> (u, m) ∉ counts_cause ft ->
      m <= n.
Proof.
  intros (f & dw & dr & dl & dj & dm & dc & Hf & _ & ->)%frequency_tables_inr.
  exists f, dc. split; [done|]. cbn [counts_cause]. unfold head.
  set (full := value_counts _).
  split; [done|]. split; [rewrite length_take; lia|].
  intros v n u m Hkept Hfull Hout.
  pose proof (value_counts_sorted
                (Series "Cause_of_accident" dc
                        (column_values f "Cause_of_accident"))) as Hs.
  fold full in Hs. rewrite <- (take_drop 15 full) in Hs, Hfull.
  apply elem_of_app in Hfull as [?|Hdrop]; [done|].
  apply (StronglySorted_app_1_elem_of _ _ _ _ _ Hs Hkept Hdrop).
Qed.

Lemma counts_cause_keeps_most_frequent_witness :
  exists ft w',
    frequency_tables sample_df_clean ranked_clean_world = (inr ft, w') /\
    exists f dt,
      heap ranked_clean_world !! sample_df_clean = Some f /\
      let full := value_counts (Series "Cause_of_accident" dt
                                       (column_values f "Cause_of_accident")) in
      counts_cause ft = take 15 full /\
      length (counts_cause ft) <= 15 /\
      forall v n u m,
        (v, n) ∈ counts_cause ft ->
        (u, m) ∈ full -> (u, m) ∉ counts_cause ft ->
        m <= n.
Proof.
  destruct (succeeded_inr (frequency_tables sample_df_clean ranked_clean_world))
    as (ft & w' & E); [vm_compute; reflexivity|].
  exists ft, w'. split; [exact E|].
  exact (counts_cause_keeps_most_frequent _ _ _ _ E).
Defined.

(** ** Contingency tables of the script: margins and totals *)

Lemma crosstab_row_positive a b i :
  series_ok b ->
  i < (shape (crosstab a b)).1 ->
  0 < row_total (crosstab a b) i.
Proof.
  intros Hokb Hi.
  set (pairs := filter (fun p : cell * cell => notnull p.1 && notnull p.2 = true)
                       (zip (s_values a) (s_values b))).
  unfold shape in Hi. cbn [fst] in Hi.
  apply lookup_lt_is_Some_2 in Hi as [r0 Hi].
  pose proof (list_elem_of_lookup_2 _ _ _ Hi) as Hobs.
  unfold crosstab in Hobs. cbn [row_labels] in Hobs.
  apply labels_of_observed in Hobs.
  apply list_elem_of_fmap in Hobs as ([r0' c0] & -> & Hp). cbn [fst snd] in *.
  fold pairs in Hp.
  assert (c0 ∈ col_labels (crosstab a b)) as Hc0.
  { unfold crosstab. cbn [col_labels]. fold pairs.
    pose proof Hp as [Hnn Hz]%list_elem_of_filter. cbn [fst snd] in Hnn.
    apply labels_of_complete.
    - unfold series_ok in Hokb. destruct (s_dtype b); try done.
      apply Hokb; [by eapply elem_of_zip_r|]. by destruct r0', c0.
    - apply list_elem_of_fmap. by exists (r0', c0). }
  apply list_elem_of_lookup in Hc0 as [j Hj].
  pose proof (crosstab_cell_count a b i j _ _ Hi Hj) as Hcell. fold pairs in Hcell.
  pose proof (count_of_pos _ _ Hp).
  apply lookup_lt_Some in Hj.
  assert (cell_count (crosstab a b) i j <= row_total (crosstab a b) i); [|lia].
  unfold row_total. apply (sum_list_with_in _ id). apply list_elem_of_fmap.
  exists j. split; [done|]. apply elem_of_seq. unfold shape. cbn [snd]. lia.
Qed.

Lemma crosstab_col_positive a b j :
  series_ok a ->
  j < (shape (crosstab a b)).2 ->
  0 < col_total (crosstab a b) j.
Proof.
  intros Hoka Hj.
  set (pairs := filter (fun p : cell * cell => notnull p.1 && notnull p.2 = true)
                       (zip (s_values a) (s_values b))).
  unfold shape in Hj. cbn [snd] in Hj.
  apply lookup_lt_is_Some_2 in Hj as [c0 Hj].
  pose proof (list_elem_of_lookup_2 _ _ _ Hj) as Hobs.
  unfold crosstab in Hobs. cbn [col_labels] in Hobs.
  apply labels_of_observed in Hobs.
  apply list_elem_of_fmap in Hobs as ([r0 c0'] & -> & Hp). cbn [fst snd] in *.
  fold pairs in Hp.
  assert (r0 ∈ row_labels (crosstab a b)) as Hr0.
  { unfold crosstab. cbn [row_labels]. fold pairs.
    pose proof Hp as [Hnn Hz]%list_elem_of_filter. cbn [fst snd] in Hnn.
    apply labels_of_complete.
    - unfold series_ok in Hoka. destruct (s_dtype a); try done.
      apply Hoka; [by eapply elem_of_zip_l|]. by destruct r0, c0'.
    - apply list_elem_of_fmap. by exists (r0, c0'). }
  apply list_elem_of_lookup in Hr0 as [i Hi].
  pose proof (crosstab_cell_count a b i j _ _ Hi Hj) as Hcell. fold pairs in Hcell.
  pose proof (count_of_pos _ _ Hp).
  apply lookup_lt_Some in Hi.
  assert (cell_count (crosstab a b) i j <= col_total (crosstab a b) j); [|lia].
  unfold col_total. apply (sum_list_with_in _ id). apply list_elem_of_fmap.
  exists i. split; [done|]. apply elem_of_seq. unfold shape. cbn [fst]. lia.
Qed.

Lemma expected_positive (R C N : nat) :
  0 < R -> 0 < C -> 0 < N ->
  is_zero (fdiv (fmul (of_nat R) (of_nat C)) (of_nat N)) = false.
Proof.
  intros HR HC HN. unfold of_nat. cbn [fmul fdiv].
  rewrite qn_is_zero, bool_decide_eq_false_2 by lia. cbn [is_zero].
  unfold Qc_is_zero. apply bool_decide_eq_false_2. intros E.
  assert (qn R <> Q2Qc 0 /\ qn C <> Q2Qc 0 /\ qn N <> Q2Qc 0) as (HR' & HC' & HN').
  { rewrite !qn_eq_0. lia. }
  apply (f_equal (fun x => (x * qn N)%Qc)) in E.
  unfold Qcdiv in E. rewrite <- Qcmult_assoc, (Qcmult_comm (/ qn N)) in E.
  rewrite Qcmult_inv_r, Qcmult_1_r, Qcmult_0_l in E by done.
  apply Qcmult_integral in E as [?|?]; done.
Qed.

(** On a table built by [crosstab] from well-formed columns, the test
    returns whenever the table has a row and a column. *)
Lemma chi2_contingency_crosstab chi2_sf a b :
  series_ok a -> series_ok b ->
  (shape (crosstab a b)).1 <> 0 -> (shape (crosstab a b)).2 <> 0 ->
  exists res, chi2_contingency chi2_sf (crosstab a b) = inr res.
Proof.
  intros Hoka Hokb Hr Hc.
  pose proof (expected_freq_grid _ (crosstab_ok a b)) as Hexp.
  pose proof (crosstab_positive a b Hokb Hr) as HN.
  assert (forall i j, i < (shape (crosstab a b)).1 -> j < (shape (crosstab a b)).2 ->
            is_zero (expected_cell (crosstab a b) i j) = false) as Hnz.
  { intros i j Hi Hj. apply expected_positive; [|  |done].
    - by apply crosstab_row_positive.
    - by apply crosstab_col_positive. }
  apply existsb_grid_false in Hnz.
  unfold chi2_contingency.
  destruct (shape (crosstab a b)) as [r c]. cbn [fst snd] in *.
  rewrite Hexp, Hnz.
  destruct (Nat.eqb_spec (r * c) 0) as [E|_]; [nia|].
  destruct (_ =? 0)%Z; by eexists.
Qed.

Lemma missing_column_None_inv f subset c :
  missing_column f subset = None -> c ∈ subset -> has_column f c = true.
Proof.
  unfold missing_column. destruct (list_find _ _) as [[i c']|] eqn:E; [done|].
  intros _ Hc. apply list_find_None in E.
  eapply Forall_forall in E; [|exact Hc]. by destruct (has_column f c).
Qed.

Lemma dropna_inr_has_column subset f d c :
  dropna subset f = inr d -> c ∈ subset -> has_column f c = true.
Proof.
  unfold dropna. destruct (missing_column f subset) eqn:E; [done|].
  intros _. by apply missing_column_None_inv.
Qed.

Lemma has_column_names f g c :
  column_names f = column_names g -> has_column f c = has_column g c.
Proof. unfold has_column. by intros ->. Qed.

Lemma crosstab_shape_nonzero a b :
  series_ok a -> series_ok b ->
  length (s_values a) = length (s_values b) ->
  (forall v, v ∈ s_values a -> v <> Null) ->
  (forall v, v ∈ s_values b -> v <> Null) ->
  s_values a <> [] ->
  (shape (crosstab a b)).1 <> 0 /\ (shape (crosstab a b)).2 <> 0.
Proof.
  intros Hoka Hokb Hlen Ha Hb Hne.
  unfold shape, crosstab. cbn [fst snd row_labels col_labels].
  rewrite crosstab_pairs_all by done.
  rewrite fst_zip, snd_zip by lia.
  destruct (s_values a) as [|x xs] eqn:Ea; [done|].
  destruct (s_values b) as [|y ys] eqn:Eb; [done|].
  assert (x ∈ labels_of (s_dtype a) (x :: xs)) as Hx.
  { apply labels_of_complete; [|left].
    unfold series_ok in Hoka. destruct (s_dtype a); try done.
    apply Hoka; [rewrite Ea; left|apply Ha; left]. }
  assert (y ∈ labels_of (s_dtype b) (y :: ys)) as Hy.
  { apply labels_of_complete; [|left].
    unfold series_ok in Hokb. destruct (s_dtype b); try done.
    apply Hokb; [rewrite Eb; left|apply Hb; left]. }
  split; intros E%length_zero_iff_nil.
  - rewrite E in Hx. by apply elem_of_nil in Hx.
  - rewrite E in Hy. by apply elem_of_nil in Hy.
Qed.

Lemma run_chi2_succeeds chi2_sf l var w fc :
  heap w !! l = Some fc -> frame_ok fc ->
  has_column fc var = true -> has_column fc severity = true ->
  (forall v, v ∈ column_values fc var -> v <> Null) ->
  (forall v, v ∈ column_values fc severity -> v <> Null) ->
  rows fc <> [] ->
  exists tr,
    run_chi2 chi2_sf l var w = (inr tr, w) /\
    (t_table_shape tr).1 <> 0 /\ (t_table_shape tr).2 <> 0.
Proof.
  intros Hfc Hok Hvar Hsev Hnv Hns Hrows.
  destruct (has_column_dtype_of _ _ Hvar) as [dta Hdta].
  destruct (has_column_dtype_of _ _ Hsev) as [dtb Hdtb].
  pose proof (getitem_run l var w fc dta Hfc Hdta) as Ha.
  pose proof (getitem_run l severity w fc dtb Hfc Hdtb) as Hb.
  set (a := Series var dta (column_values fc var)) in *.
  set (b := Series severity dtb (column_values fc severity)) in *.
  assert (series_ok a) as Hoka by (by apply Hok).
  assert (series_ok b) as Hokb by (by apply Hok).
  destruct (crosstab_shape_nonzero a b Hoka Hokb) as [Hr Hc]; try done.
  { unfold a, b. cbn [s_values]. by rewrite !length_column_values. }
  { unfold a. cbn [s_values]. unfold column_values.
    destruct (rows fc); [done|]. discriminate. }
  destruct (chi2_contingency_crosstab chi2_sf a b Hoka Hokb Hr Hc) as [res Hres].
  exists (TestResult (statistic res) (pvalue res) (dof res) (shape (crosstab a b))).
  split; [|done]. unfold run_chi2.
  rewrite (bind_run _ _ _ _ _ Ha), (bind_run _ _ _ _ _ Hb).
  erewrite bind_run; [reflexivity|]. unfold lift. by rewrite Hres.
Qed.

(** X4.  When the table read from the input keeps at least one row after
    cleaning, the loop of chi-square tests goes through: it returns one
    result for each of the four variables, in the order weather, road
    surface, light, junction, each for a contingency table with at least
    one row and one column.  (No expected frequency of such a table is
    zero: every label of the table occurs in the cleaned rows.) *)
Theorem chi2_tests_succeed_on_nonempty chi2_sf path w0 df w mb l' w' fc :
  read_csv path w0 = (inr df, w) ->
  cleaning df w = (inr (mb, l'), w') ->
  heap w' !! l' = Some fc ->
  rows fc <> [] ->
  exists tests,
    run_tests chi2_sf l' tested_variables w' = (inr tests, w') /\
    tests.*1 = tested_variables /\
    Forall (fun vt => (t_table_shape vt.2).1 <> 0 /\ (t_table_shape vt.2).2 <> 0)
           tests.
Proof.
  intros (header & body & _ & Hdf & _)%read_csv_inr Hclean Hfc Hne.
  pose proof Hclean as (f & fc' & Hf & _ & Hfc' & _ & _ & Hrows & Hnames & _)
    %cleaning_result.
  assert (fc' = fc) as -> by congruence.
  assert (f = frame_of_csv header body) as -> by congruence.
  assert (frame_ok fc) as Hok.
  { eapply cleaned_frame_ok; [done..|]. apply frame_of_csv_plain. }
  pose proof Hclean as (f' & d & _ & Hf' & _ & Hd & _)%cleaning_inv.
  assert (f' = frame_of_csv header body) as -> by congruence.
  assert (forall c, c ∈ cols_of_interest -> has_column fc c = true) as Hcol.
  { intros c Hc. rewrite (has_column_names _ _ c Hnames).
    by eapply dropna_inr_has_column. }
  assert (forall var, var ∈ cols_of_interest ->
            exists tr, run_chi2 chi2_sf l' var w' = (inr tr, w') /\
                       (t_table_shape tr).1 <> 0 /\ (t_table_shape tr).2 <> 0)
    as Hrun.
  { intros var Hvar. apply run_chi2_succeeds with fc; try done.
    - by apply Hcol.
    - apply Hcol, severity_required.
    - intros v. by apply cleaned_column_notnull with (frame_of_csv header body).
    - intros v. apply cleaned_column_notnull with (frame_of_csv header body);
        [done|apply severity_required]. }
  destruct (Hrun "Weather_conditions") as (t1 & E1 & S1); [in_list|].
  destruct (Hrun "Road_surface_type") as (t2 & E2 & S2); [in_list|].
  destruct (Hrun "Light_conditions") as (t3 & E3 & S3); [in_list|].
  destruct (Hrun "Types_of_Junction") as (t4 & E4 & S4); [in_list|].
  exists [("Weather_conditions", t1); ("Road_surface_type", t2);
          ("Light_conditions", t3); ("Types_of_Junction", t4)].
  split; [|split; [done|]].
  2:{ repeat (apply Forall_cons_2; [done|]). apply Forall_nil_2. }
  unfold tested_variables. cbn [run_tests].
  rewrite (bind_run _ _ _ _ _ E1).
  erewrite (bind_run (run_chi2 _ _ "Road_surface_type" ≫= _)).
  2:{ rewrite (bind_run _ _ _ _ _ E2).
      erewrite (bind_run (run_chi2 _ _ "Light_conditions" ≫= _)).
      2:{ rewrite (bind_run _ _ _ _ _ E3).
          erewrite (bind_run (run_chi2 _ _ "Types_of_Junction" ≫= _)).
          2:{ rewrite (bind_run _ _ _ _ _ E4). reflexivity. }
          reflexivity. }
      reflexivity. }
  reflexivity.
Qed.

Lemma chi2_tests_succeed_on_nonempty_witness :
  exists df w mb l' w' fc,
    read_csv input_path {| heap := ∅; files := sample_files |} = (inr df, w) /\
    cleaning df w = (inr (mb, l'), w') /\
    heap w' !! l' = Some fc /\
    rows fc <> [] /\
    exists tests,
      run_tests sample_sf l' tested_variables w' = (inr tests, w') /\
      tests.*1 = tested_variables /\
      Forall (fun vt => (t_table_shape vt.2).1 <> 0 /\ (t_table_shape vt.2).2 <> 0)
             tests.
Proof.
  destruct (result_of_Some
              ((read_csv input_path ≫= fun df =>
                cleaning df ≫= fun r =>
                load r.2 ≫= fun fc => mret (length (rows fc)))
                 {| heap := ∅; files := sample_files |}) 5)
    as (w3 & E); [vm_compute; reflexivity|].
  apply bind_inr in E as (df & w & E1 & E).
  apply bind_inr in E as ([mb l'] & w' & E2 & E).
  apply bind_inr in E as (fc & w2 & [Hfc ->]%load_inr & E).
  apply mret_inr in E as [Hlen _]. cbn [snd] in Hfc.
  assert (rows fc <> []) as Hne by (intros Hnil; by rewrite Hnil in Hlen).
  exists df, w, mb, l', w', fc.
  split; [exact E1|]. split; [exact E2|]. split; [exact Hfc|].
  split; [exact Hne|].
  exact (chi2_tests_succeed_on_nonempty sample_sf _ _ _ _ _ _ _ _ E1 E2 Hfc Hne).
Defined.

Lemma grand_total_counts (t : table) :
  table_ok t -> grand_total t = sum_list (map sum_list (counts t)).
Proof.
  intros Hok. rewrite (grid_counts t Hok) at 1.
  unfold grand_total, row_total, grid. by rewrite map_map.
Qed.

Lemma sum_pair_indicator (cl : list cell) (p : cell * cell) r :
  NoDup cl -> p.2 ∈ cl ->
  sum_list (map (fun c => if decide (p = (r, c)) then 1 else 0) cl)
  = if decide (p.1 = r) then 1 else 0.
Proof.
  intros Hnd Hin. destruct p as [x y]. cbn [fst snd] in *.
  destruct (decide (x = r)) as [->|Hne].
  - etrans; [|apply (sum_indicator cl y Hnd Hin)].
    f_equal. apply map_ext. intros c.
    destruct (decide (y = c)) as [->|Hc].
    + rewrite decide_True by done. done.
    + rewrite decide_False by congruence. done.
  - clear Hnd Hin. induction cl as [|c cl IH]; [done|].
    cbn [map sum_list sum_list_with]. rewrite decide_False by congruence.
    exact IH.
Qed.

Lemma sum_count_of_pairs (cl : list cell) (pairs : list (cell * cell)) r :
  NoDup cl -> (forall p, p ∈ pairs -> p.2 ∈ cl) ->
  sum_list (map (fun c => count_of (r, c) pairs) cl) = count_of r (pairs.*1).
Proof.
  intros Hnd. induction pairs as [|p ps IH]; intros Hin.
  - clear. induction cl as [|c cl IH]; [done|]. exact IH.
  - transitivity
      (sum_list (map (fun c => if decide (p = (r, c)) then 1 else 0) cl)
       + sum_list (map (fun c => count_of (r, c) ps) cl)).
    + rewrite <- sum_list_map_add. f_equal. apply map_ext. intros c.
      apply count_of_cons.
    + rewrite sum_pair_indicator, IH; [|intros; apply Hin; by right| done
                                        |apply Hin; left].
      cbn [fmap list_fmap]. by rewrite count_of_cons.
Qed.

Lemma labels_of_NoDup dt observed :
  match dt with Category cats => NoDup cats | _ => True end ->
  NoDup (labels_of dt observed).
Proof.
  destruct dt; simpl; intros Hc.
  1-3: rewrite merge_sort_Permutation; apply NoDup_unique.
  by apply NoDup_filter.
Qed.

(** The cells of a cross-tabulation of two columns without missing values
    add up to the number of rows. *)
Lemma crosstab_grand_total a b :
  series_ok a -> series_ok b ->
  match s_dtype a with Category cats => NoDup cats | _ => True end ->
  match s_dtype b with Category cats => NoDup cats | _ => True end ->
  length (s_values a) = length (s_values b) ->
  (forall v, v ∈ s_values a -> v <> Null) ->
  (forall v, v ∈ s_values b -> v <> Null) ->
  grand_total (crosstab a b) = length (s_values a).
Proof.
  intros Hoka Hokb Hnda Hndb Hlen Ha Hb.
  rewrite (grand_total_counts _ (crosstab_ok a b)).
  unfold crosstab. cbn [counts].
  rewrite crosstab_pairs_all by done.
  rewrite fst_zip, snd_zip by lia.
  set (pairs := zip (s_values a) (s_values b)).
  rewrite map_map.
  erewrite map_ext.
  2:{ intros r. apply sum_count_of_pairs.
      - by apply labels_of_NoDup.
      - intros [x y] Hp. cbn [snd]. pose proof (elem_of_zip_r _ _ _ _ Hp) as Hy.
        apply labels_of_complete; [|done].
        unfold series_ok in Hokb. destruct (s_dtype b); try done.
        by apply Hokb; [|apply Hb]. }
  unfold pairs. rewrite fst_zip by lia.
  apply sum_count_of.
  - by apply labels_of_NoDup.
  - intros v Hv. apply labels_of_complete; [|done].
    unfold series_ok in Hoka. destruct (s_dtype a); try done.
    by apply Hoka; [|apply Ha].
Qed.

Lemma cleaned_categories_NoDup df w mb l' w' f fc c cats :
  cleaning df w = (inr (mb, l'), w') ->
  heap w !! df = Some f ->
  heap w' !! l' = Some fc ->
  (forall c dt, dtype_of f c = Some dt ->
                dt = Object \/ dt = Float64 \/ dt = Int64) ->
  dtype_of fc c = Some (Category cats) -> NoDup cats.
Proof.
  intros (f' & fc' & Hf' & _ & Hfc' & _ & _ & _ & _ & Hdt & Hno & Hobj)
         %cleaning_result Hf Hfc Hplain Hc.
  assert (f' = f) as -> by congruence. assert (fc' = fc) as -> by congruence.
  destruct (decide (c = severity)) as [->|Hne].
  - destruct (decide (dtype_of f severity = Some Object)) as [E|E].
    + destruct (Hobj E) as (cats' & Hsorted & Hcat).
      assert (cats' = cats) as -> by congruence.
      apply sorted_inr in Hsorted as [Hperm _].
      rewrite Hperm. apply NoDup_unique.
    + rewrite (Hno E) in Hc. destruct (Hplain _ _ Hc) as [?|[?|?]]; done.
  - rewrite (Hdt c Hne) in Hc. destruct (Hplain _ _ Hc) as [?|[?|?]]; done.
Qed.

(** X5.  Every cross-tabulation the script builds from two of the required
    columns of the cleaned data (severity by weather, weather by road
    surface, and the four tables that are tested) counts each cleaned row
    exactly once: its cells add up to the number of cleaned rows, and no
    row or column of the table is empty. *)
Theorem crosstab_counts_every_cleaned_row path w0 df w mb l' w' c1 c2 a b :
  read_csv path w0 = (inr df, w) ->
  cleaning df w = (inr (mb, l'), w') ->
  c1 ∈ cols_of_interest -> c2 ∈ cols_of_interest ->
  getitem l' c1 w' = (inr a, w') ->
  getitem l' c2 w' = (inr b, w') ->
  exists fc,
    heap w' !! l' = Some fc /\
    grand_total (crosstab a b) = length (rows fc) /\
    (forall i, i < length (row_labels (crosstab a b)) ->
               0 < row_total (crosstab a b) i) /\
    (forall j, j < length (col_labels (crosstab a b)) ->
               0 < col_total (crosstab a b) j).
Proof.
  intros (header & body & _ & Hdf & _)%read_csv_inr Hclean Hc1 Hc2 Ha Hb.
  pose proof Hclean as (f & fc & Hf & _ & Hfc & _ & _ & Hrows & _)%cleaning_result.
  assert (f = frame_of_csv header body) as -> by congruence.
  assert (frame_ok fc) as Hok.
  { eapply cleaned_frame_ok; [done..|]. apply frame_of_csv_plain. }
  pose proof (getitem_series_ok _ _ _ _ _ _ Hfc Hok Ha) as Hoka.
  pose proof (getitem_series_ok _ _ _ _ _ _ Hfc Hok Hb) as Hokb.
  apply getitem_inr in Ha as (fa & dta & Hfa & Hdta & -> & _).
  apply getitem_inr in Hb as (fb & dtb & Hfb & Hdtb & -> & _).
  assert (fa = fc) as -> by congruence. assert (fb = fc) as -> by congruence.
  exists fc. split; [done|]. split; [|split].
  - rewrite crosstab_grand_total; cbn [s_values s_dtype]; try done.
    + apply length_column_values.
    + destruct dta as [| | |cats]; try done.
      eapply cleaned_categories_NoDup; [exact Hclean|exact Hdf|exact Hfc| |exact Hdta].
      apply frame_of_csv_plain.
    + destruct dtb as [| | |cats]; try done.
      eapply cleaned_categories_NoDup; [exact Hclean|exact Hdf|exact Hfc| |exact Hdtb].
      apply frame_of_csv_plain.
    + by rewrite !length_column_values.
    + intros v. by apply cleaned_column_notnull with (frame_of_csv header body).
    + intros v. by apply cleaned_column_notnull with (frame_of_csv header body).
  - intros i Hi. by apply crosstab_row_positive.
  - intros j Hj. by apply crosstab_col_positive.
Qed.

Lemma crosstab_counts_every_cleaned_row_witness :
  exists df w mb l' w' a b,
    read_csv input_path {| heap := ∅; files := sample_files |} = (inr df, w) /\
    cleaning df w = (inr (mb, l'), w') /\
    "Weather_conditions" ∈ cols_of_interest /\
    "Road_surface_type" ∈ cols_of_interest /\
    getitem l' "Weather_conditions" w' = (inr a, w') /\
    getitem l' "Road_surface_type" w' = (inr b, w') /\
    exists fc,
      heap w' !! l' = Some fc /\
      grand_total (crosstab a b) = length (rows fc) /\
      (forall i, i < length (row_labels (crosstab a b)) ->
                 0 < row_total (crosstab a b) i) /\
      (forall j, j < length (col_labels (crosstab a b)) ->
                 0 < col_total (crosstab a b) j).
Proof.
  destruct (succeeded_inr
              ((read_csv input_path ≫= fun df =>
                cleaning df ≫= fun r =>
                getitem r.2 "Weather_conditions" ≫= fun a =>
                getitem r.2 "Road_surface_type")
                 {| heap := ∅; files := sample_files |}))
    as (b & w3 & E); [vm_compute; reflexivity|].
  apply bind_inr in E as (df & w & E1 & E).
  apply bind_inr in E as ([mb l'] & w' & E2 & E).
  apply bind_inr in E as (a & w1 & Ea & Eb). cbn [snd] in Ea, Eb.
  pose proof Ea as (? & ? & _ & _ & _ & ->)%getitem_inr.
  pose proof Eb as (? & ? & _ & _ & _ & ->)%getitem_inr.
  assert ("Weather_conditions" ∈ cols_of_interest) as H1 by in_list.
  assert ("Road_surface_type" ∈ cols_of_interest) as H2 by in_list.
  exists df, w, mb, l', w', a, b.
  split; [exact E1|]. split; [exact E2|]. split; [exact H1|]. split; [exact H2|].
  split; [exact Ea|]. split; [exact Eb|].
  exact (crosstab_counts_every_cleaned_row _ _ _ _ _ _ _ _ _ _ _ E1 E2 H1 H2 Ea Eb).
Defined.

(** ** Failures before anything is written (lines 17-27) *)

Lemma imap_fst {A B C} (f : nat -> A -> C) (g : nat -> A -> B) (l : list A) :
  (imap (fun i x => (f i x, g i x)) l).*1 = imap f l.
Proof.
  revert f g. induction l as [|x l IH]; intros f g; [done|].
  cbn [imap fmap list_fmap]. f_equal.
  apply (IH (fun i => f (S i)) (fun i => g (S i))).
Qed.

(** A header without an empty field names the columns as it stands. *)
Lemma named_header_from k (header : list string) :
  EmptyString ∉ header ->
  imap (fun i => column_name (k + i)) header = header.
Proof.
  revert k. induction header as [|name header IH]; intros k Hnamed; [done|].
  apply not_elem_of_cons in Hnamed as [Hne Hnamed].
  cbn [imap]. f_equal.
  - unfold column_name. by rewrite bool_decide_eq_false_2.
  - rewrite <- (IH (S k) Hnamed) at 2. apply imap_ext.
    intros i name' _. cbn [compose]. f_equal. lia.
Qed.

Lemma named_header (header : list string) :
  EmptyString ∉ header -> imap column_name header = header.
Proof. apply (named_header_from 0). Qed.

Lemma column_names_frame_of_csv header body :
  EmptyString ∉ header ->
  column_names (frame_of_csv header body) = header.
Proof.
  intros Hnamed. unfold column_names, frame_of_csv. cbn [columns].
  rewrite (imap_fst column_name
             (fun i _ => column_dtype
                           (map (drop (leading_cols header body)) body) i)).
  by apply named_header.
Qed.

Lemma missing_column_Some f subset :
  (exists c, c ∈ subset /\ has_column f c = false) ->
  exists c0, c0 ∈ subset /\ has_column f c0 = false /\
             missing_column f subset = Some c0.
Proof.
  intros (c & Hc & Hno). unfold missing_column.
  destruct (list_find (fun c => has_column f c = false) subset)
    as [[i c0]|] eqn:E.
  - apply list_find_Some in E as (Hi & Hc0 & _).
    exists c0. split_and!; [by eapply list_elem_of_lookup_2|done..].
  - apply list_find_None in E. eapply Forall_forall in E; [|exact Hc]. done.
Qed.

(** X6.  When there is no file at the input path the run is a
    file-not-found error and changes nothing: no directory is made and no
    file written. *)
Theorem run_without_input_file chi2_sf renders fs :
  fs !! input_path = None ->
  run chi2_sf renders fs
  = (inl (FileNotFound input_path), {| heap := ∅; files := fs |}).
Proof.
  intros Hno. unfold run, analysis. apply bind_fail.
  unfold read_csv.
  erewrite bind_run by (unfold read_file; cbn [files]; reflexivity).
  by rewrite Hno.
Qed.

Lemma run_without_input_file_witness :
  (∅ : gmap string file) !! input_path = None /\
  run sample_sf always_renders ∅
  = (inl (FileNotFound input_path), {| heap := ∅; files := ∅ |}).
Proof.
  assert ((∅ : gmap string file) !! input_path = None) as H
    by apply lookup_empty.
  split; [exact H|].
  exact (run_without_input_file sample_sf always_renders ∅ H).
Defined.

(** No record longer than the header: no field is taken as a row label and
    the parser accepts every record. *)
Lemma fitting_no_leading_cols header body :
  Forall (fun line => length line <= length header) body ->
  leading_cols header body = 0.
Proof.
  intros Hlen. unfold leading_cols. destruct body as [|first rest]; [done|].
  apply Forall_cons in Hlen as [Hfirst _]. lia.
Qed.

Lemma fitting_not_too_long header body :
  Forall (fun line => length line <= length header) body ->
  too_long header body = false.
Proof.
  intros Hlen. unfold too_long. rewrite (fitting_no_leading_cols _ _ Hlen).
  apply not_true_is_false. intros (line & Hl & Hlong)%existsb_exists.
  apply Nat.ltb_lt in Hlong. apply list_elem_of_In in Hl.
  eapply Forall_forall in Hlen; [|exact Hl]. simpl in Hlen. lia.
Qed.

(** X7.  When the input file has a header that names every column and no
    record longer than the header, and the header lacks one of the eight
    required columns, the run is a key error for a required column that is
    absent, raised while the missing values are counted; the file system
    is left exactly as it was. *)
Theorem run_without_required_column chi2_sf renders fs header body :
  fs !! input_path = Some (CsvFile header body) ->
  header <> [] ->
  EmptyString ∉ header ->
  Forall (fun line => length line <= length header) body ->
  (exists c, c ∈ cols_of_interest /\ c ∉ header) ->
  exists c0 w,
    c0 ∈ cols_of_interest /\ (c0 ∉ header) /\
    run chi2_sf renders fs = (inl (KeyError c0), w) /\
    files w = fs.
Proof.
  intros Hin Hne Hnamed Hlen (c & Hc & Hno).
  destruct (missing_column_Some (frame_of_csv header body) cols_of_interest)
    as (c0 & Hc0 & Hno0 & Hmiss).
  { exists c. split; [done|]. unfold has_column.
    rewrite column_names_frame_of_csv by done. by apply bool_decide_eq_false. }
  unfold has_column in Hno0. rewrite column_names_frame_of_csv in Hno0 by done.
  apply bool_decide_eq_false in Hno0.
  exists c0. eexists. split; [done|]. split; [done|].
  unfold run, analysis.
  rewrite (bind_run _ _ _ _ _
             (read_csv_run fs header body Hin Hne (fitting_not_too_long _ _ Hlen))).
  split.
  - apply bind_fail. unfold cleaning.
    erewrite bind_run
      by (unfold load; cbn [heap]; rewrite lookup_singleton_eq; reflexivity).
    apply bind_fail. unfold lift, isnull_sum. rewrite Hmiss. reflexivity.
  - reflexivity.
Qed.

Lemma run_without_required_column_witness :
  exists c0 w,
    c0 ∈ cols_of_interest /\
    (c0 ∉ ["Weather_conditions"; "Accident_severity"]) /\
    run sample_sf always_renders
        {[ input_path := CsvFile ["Weather_conditions"; "Accident_severity"]
                                 [[Str "Normal"; Str "Slight Injury"]] ]}
    = (inl (KeyError c0), w) /\
    files w = {[ input_path := CsvFile ["Weather_conditions"; "Accident_severity"]
                                       [[Str "Normal"; Str "Slight Injury"]] ]}.
Proof.
  apply (run_without_required_column sample_sf always_renders _
           ["Weather_conditions"; "Accident_severity"]
           [[Str "Normal"; Str "Slight Injury"]]).
  - apply lookup_singleton_eq.
  - discriminate.
  - in_list.
  - in_list.
  - exists "Road_surface_type". split; in_list.
Defined.

(** ** What a run leaves alone *)

Lemma same_file_analysis_outside chi2_sf renders p :
  p ∉ output_files -> preserves (same_file p) (analysis chi2_sf renders).
Proof.
  intros Hp. unfold output_files in Hp.
  apply not_elem_of_app in Hp as [Hdir Hp].
  apply not_elem_of_app in Hp as [Himg Hp].
  apply not_elem_of_cons in Hp as [Hc Hp].
  apply not_elem_of_cons in Hp as [Hs _].
  unfold analysis.
  repeat first
    [ progress intros
    | apply same_files_same_file;
      first [ apply same_files_cleaning | apply same_files_frequency_tables
            | apply same_files_run_tests | apply same_files_read_csv ]
    | by apply same_file_makedirs
    | by apply same_file_plots
    | by apply same_file_export
    | apply preserves_ret; apply _
    | apply preserves_bind; [apply _| |]
    | match goal with
      | |- preserves _ (let '(_, _) := ?x in _) => destruct x
      end ].
Qed.

Lemma preserves_listdir R `{!PreOrder R} path : preserves R (listdir path).
Proof.
  intros w r w'. unfold listdir.
  destruct (files w !! path) as [[]|]; by intros [= _ <-].
Qed.

Lemma same_file_display tool p o :
  (forall display_dataframe_to_user title v,
      tool = Some display_dataframe_to_user ->
      preserves (same_file p) (display_dataframe_to_user title v)) ->
  preserves (same_file p) (display tool o).
Proof.
  intros Htool. unfold display. destruct tool as [d|]; [|preserves_tac].
  repeat (apply preserves_bind; [apply _|by apply Htool|intros _]).
  apply preserves_bind; [apply _|apply preserves_listdir; apply _|intros names].
  preserves_tac.
Qed.

(** X8.  Whether it succeeds or fails, the script changes nothing outside
    the directories down to the output directory, the six images and the
    two CSV files, wherever the display tool changes nothing either; in
    particular the script never changes its input file by itself. *)
Theorem run_touches_only_its_outputs chi2_sf renders tool fs p :
  p ∉ output_files ->
  (forall display_dataframe_to_user title v,
      tool = Some display_dataframe_to_user ->
      preserves (same_file p) (display_dataframe_to_user title v)) ->
  files (run_script chi2_sf renders tool fs).2 !! p = fs !! p.
Proof.
  intros Hp Htool. unfold run_script.
  assert (preserves (same_file p) (script chi2_sf renders tool)) as Hkeep.
  { unfold script.
    apply preserves_bind; [apply _|by apply same_file_analysis_outside|intros o].
    apply preserves_bind; [apply _|by apply same_file_display|intros _].
    apply preserves_ret; apply _. }
  destruct (script chi2_sf renders tool {| heap := ∅; files := fs |})
    as [r w] eqn:E.
  apply (Hkeep _ _ _ E).
Qed.

Lemma run_touches_only_its_outputs_witness :
  (input_path ∉ output_files) /\
  (forall display_dataframe_to_user title v,
      Some sample_display = Some display_dataframe_to_user ->
      preserves (same_file input_path) (display_dataframe_to_user title v)) /\
  files (run_script sample_sf always_renders (Some sample_display)
                    sample_files).2 !! input_path
  = sample_files !! input_path.
Proof.
  assert (input_path ∉ output_files) as H by in_list.
  assert (forall display_dataframe_to_user title v,
             Some sample_display = Some display_dataframe_to_user ->
             preserves (same_file input_path)
                       (display_dataframe_to_user title v)) as H'.
  { intros d title v [= <-]. unfold sample_display.
    apply same_file_write_file. paths_differ. }
  split; [exact H|]. split; [exact H'|].
  exact (run_touches_only_its_outputs sample_sf always_renders
           (Some sample_display) sample_files input_path H H').
Defined.

Lemma fail_keeps_bind {A B} p (m : M A) (k : A -> M B) :
  preserves (same_file p) m ->
  (forall x w e w', k x w = (inl e, w') -> files w' !! p = files w !! p) ->
  forall w e w', (m ≫= k) w = (inl e, w') -> files w' !! p = files w !! p.
Proof.
  intros Hm Hk w e w' [H|(x & w1 & H1 & H2)]%bind_inl.
  - apply (Hm _ _ _ H).
  - rewrite (Hk _ _ _ _ H2). apply (Hm _ _ _ H1).
Qed.

Lemma write_file_inl p c w e w' : write_file p c w = (inl e, w') -> w' = w.
Proof.
  unfold write_file. destruct (files w !! p) as [[]|]; by intros [= <- <-].
Qed.

Lemma export_fail_keeps_summary l tests w e w' :
  export l tests w = (inl e, w') ->
  files w' !! summary_csv = files w !! summary_csv.
Proof.
  unfold export. apply fail_keeps_bind.
  - apply same_file_to_csv. paths_differ.
  - intros _ w1 e1 w1' H. by rewrite (write_file_inl _ _ _ _ _ H).
Qed.

(** The summary is the last thing lines 17-144 write. *)
Lemma analysis_fail_keeps_summary chi2_sf renders w0 e w :
  analysis chi2_sf renders w0 = (inl e, w) ->
  files w !! summary_csv = files w0 !! summary_csv.
Proof.
  revert w0 e w. unfold analysis.
  apply fail_keeps_bind; [keep_tac|]. intros df.
  apply fail_keeps_bind; [keep_tac|]. intros [mb l'].
  apply fail_keeps_bind; [keep_tac|]. intros ft.
  apply fail_keeps_bind; [keep_tac|]. intros _.
  apply fail_keeps_bind; [keep_tac|]. intros _.
  apply fail_keeps_bind; [keep_tac|]. intros tests.
  intros w1 e1 w1' [H|(x & w2 & _ & H)]%bind_inl.
  - by apply export_fail_keeps_summary in H.
  - discriminate H.
Qed.

(** X9.  When the script ends in an error, one of two things has happened.
    Either the error arose by line 144, and then the summary CSV is exactly
    as it was before the run, the summary being the last thing those lines
    write.  Or lines 17-144 went through, the summary CSV holds the results
    of this run, and the error is one of the display (lines 147-153). *)
Theorem failed_script_and_the_summary chi2_sf renders tool fs e w :
  run_script chi2_sf renders tool fs = (inl e, w) ->
  (run chi2_sf renders fs = (inl e, w) /\
   files w !! summary_csv = fs !! summary_csv) \/
  (exists o w1,
      run chi2_sf renders fs = (inr o, w1) /\
      files w1 !! summary_csv = Some (SummaryFile (v_tests o)) /\
      display tool o w1 = (inl e, w)).
Proof.
  unfold run_script, script, run.
  intros [H|(o & w1 & H1 & H2)]%bind_inl.
  - left. split; [done|].
    apply (analysis_fail_keeps_summary _ _ _ _ _ H).
  - right. exists o, w1. split; [done|].
    destruct (analysis_exports _ _ _ _ _ H1) as (header & body & _ & Hs).
    split; [done|].
    apply bind_inl in H2 as [H2|(u & w2 & _ & H2)]; [done|discriminate H2].
Qed.

Lemma failed_script_and_the_summary_witness :
  exists e w,
    run_script sample_sf always_renders None sample_files = (inl e, w) /\
    ((run sample_sf always_renders sample_files = (inl e, w) /\
      files w !! summary_csv = sample_files !! summary_csv) \/
     (exists o w1,
         run sample_sf always_renders sample_files = (inr o, w1) /\
         files w1 !! summary_csv = Some (SummaryFile (v_tests o)) /\
         display None o w1 = (inl e, w))).
Proof.
  assert (succeeded (run_script sample_sf always_renders None sample_files)
          = false) as Hf by (vm_compute; reflexivity).
  destruct (run_script sample_sf always_renders None sample_files)
    as [[e|o] w] eqn:E; [|discriminate Hf].
  exists e, w. split; [reflexivity|].
  exact (failed_script_and_the_summary sample_sf always_renders None
           sample_files e w E).
Defined.

(** ** The cleaned CSV against the input (lines 17, 27, 143) *)

Lemma analysis_inr chi2_sf renders w0 o w :
  analysis chi2_sf renders w0 = (inr o, w) ->
  exists w1 w2 w3 w4 w5 w6,
    read_csv input_path w0 = (inr (v_df o), w1) /\
    cleaning (v_df o) w1 = (inr (v_missing_before o, v_df_clean o), w2) /\
    frequency_tables (v_df_clean o) w2 = (inr (v_counts o), w3) /\
    makedirs out_dir w3 = (inr (), w4) /\
    plots renders (v_df_clean o) (v_counts o) w4 = (inr (), w5) /\
    run_tests chi2_sf (v_df_clean o) tested_variables w5 = (inr (v_tests o), w6) /\
    export (v_df_clean o) (v_tests o) w6 = (inr (), w).
Proof.
  unfold analysis.
  intros (df & w1 & H1 & H)%bind_inr.
  apply bind_inr in H as ([mb l'] & w2 & H2 & H).
  apply bind_inr in H as (ft & w3 & H3 & H).
  apply bind_inr in H as ([] & w4 & H4 & H).
  apply bind_inr in H as ([] & w5 & H5 & H).
  apply bind_inr in H as (tests & w6 & H6 & H).
  apply bind_inr in H as ([] & w7 & H7 & H).
  apply mret_inr in H as [<- ->].
  cbn [v_df v_missing_before v_df_clean v_counts v_tests].
  by exists w1, w2, w3, w4, w5, w6.
Qed.

Lemma line_round_trip (header : list string) (line : list cell) :
  NoDup header -> length line = length header ->
  map (fun c => at_col c (list_to_map (zip header line))) header = line.
Proof.
  intros Hnd. revert line.
  induction Hnd as [|c header Hc Hnd IH]; intros [|x line] Hlen; try done.
  cbn [zip zip_with list_to_map foldr map]. f_equal.
  - unfold at_col. cbn [fst snd]. by rewrite lookup_insert_eq.
  - etrans; [|apply (IH line); simpl in Hlen; lia].
    apply map_ext_in. intros c' Hc'%list_elem_of_In.
    unfold at_col. cbn [fst snd]. rewrite lookup_insert_ne; [done|].
    intros ->. done.
Qed.

Lemma filter_imap_rows {A} (h : A -> record) (p : record -> bool)
      (g : record -> list cell) (k : nat -> nat) (l : list A) :
  map (fun ir : nat * record => g ir.2)
      (filter (fun ir : nat * record => p ir.2 = true)
              (imap (fun i x => (k i, h x)) l))
  = map (fun x => g (h x)) (filter (fun x => p (h x) = true) l).
Proof.
  revert k. induction l as [|x l IH]; intros k; [done|].
  cbn [imap]. rewrite !filter_cons. cbn [snd].
  destruct (decide (p (h x) = true)); cbn [map];
    rewrite <- (IH (fun i => k (S i))); done.
Qed.

Lemma as_dtype_exact dt c : exact_cell c -> as_dtype dt c = c.
Proof. destruct dt, c; simpl; try done. by intros ->. Qed.

Lemma imap_as_dtype_exact (g : nat -> dtype) (line : list cell) :
  Forall exact_cell line -> imap (fun j c => as_dtype (g j) c) line = line.
Proof.
  intros Hline. revert g.
  induction Hline as [|c line Hc _ IH]; intros g; [done|].
  cbn [imap]. rewrite (as_dtype_exact _ _ Hc). f_equal.
  apply (IH (fun j => g (S j))).
Qed.

(** The rows read from a file whose records fit the header and whose
    numbers are doubles: the records as they are. *)
Lemma rows_frame_of_csv_exact header body :
  EmptyString ∉ header ->
  Forall (fun line => length line <= length header) body ->
  Forall (Forall exact_cell) body ->
  rows (frame_of_csv header body)
  = imap (fun i line => (i, (list_to_map (zip header line) : record))) body.
Proof.
  intros Hnamed Hlen Hexact. unfold frame_of_csv. cbn [rows].
  rewrite (fitting_no_leading_cols _ _ Hlen), (named_header _ Hnamed).
  assert (map (drop 0) body = body) as -> by (by rewrite <- (map_id body) at 2).
  apply imap_ext. intros i line Hi. cbn beta. do 3 f_equal.
  apply imap_as_dtype_exact.
  eapply Forall_forall in Hexact; [exact Hexact|].
  by eapply list_elem_of_lookup_2.
Qed.

(** X10.  When the header of the input names every column, each name
    once, every line
    has a cell for every column and every number in the file is a double
    (an integer of at most 53 significant bits), the cleaned CSV a
    successful run writes is the input file with the incomplete lines
    taken out: the same header, and the lines that are complete on the
    eight required columns, cell for cell and in their order.  (Cells are
    compared as values; how a number is spelled in the file is not
    modelled.) *)
Theorem cleaned_csv_is_input_without_incomplete_lines
        chi2_sf renders fs header body o w :
  fs !! input_path = Some (CsvFile header body) ->
  NoDup header ->
  EmptyString ∉ header ->
  Forall (fun line => length line = length header) body ->
  Forall (Forall exact_cell) body ->
  run chi2_sf renders fs = (inr o, w) ->
  files w !! cleaned_csv
  = Some (CsvFile header
            (filter (fun line => complete_on cols_of_interest
                                   (list_to_map (zip header line)) = true)
                    body)).
Proof.
  intros Hin Hnd Hnamed Hlen Hexact Hrun. unfold run in Hrun.
  apply analysis_inr in Hrun as (w1 & w2 & w3 & w4 & w5 & w6 &
                                H1 & H2 & H3 & H4 & H5 & H6 & H7).
  apply read_csv_inr in H1 as (header' & body' & Hin' & Hdf & _).
  cbn [files] in Hin'. rewrite Hin in Hin'. injection Hin' as <- <-.
  pose proof H2 as (f & fc & Hf & _ & Hfc & _ & _ & Hrows & Hnames & _)
    %cleaning_result.
  rewrite Hdf in Hf. injection Hf as <-.
  assert (heap w6 = heap w2) as Hheap.
  { rewrite (same_heap_run_tests _ _ _ _ _ _ H6).
    rewrite (same_heap_plots _ _ _ _ _ _ H5).
    rewrite (same_heap_makedirs _ _ _ _ H4).
    apply (same_heap_frequency_tables _ _ _ _ H3). }
  apply export_inr in H7 as (f & Hf & Hc & _).
  rewrite Hheap, Hfc in Hf. injection Hf as <-.
  rewrite Hc, Hnames, column_names_frame_of_csv, Hrows by done. do 2 f_equal.
  rewrite rows_frame_of_csv_exact; [|done|by eapply Forall_impl; [exact Hlen|];
                                      intros line ->|done].
  rewrite (filter_imap_rows
             (fun line : list cell => (list_to_map (zip header line) : record))
             (complete_on cols_of_interest)
             (fun r => map (fun c => at_col c r) header) (fun i => i)).
  rewrite <- (map_id (filter _ body)) at 2.
  apply map_ext_in. intros line Hl%list_elem_of_In.
  apply list_elem_of_filter in Hl as [_ Hl].
  apply line_round_trip; [done|].
  by eapply Forall_forall in Hlen.
Qed.

Lemma cleaned_csv_is_input_without_incomplete_lines_witness :
  exists o w,
    sample_files !! input_path = Some (CsvFile sample_header sample_body) /\
    NoDup sample_header /\
    (EmptyString ∉ sample_header) /\
    Forall (fun line => length line = length sample_header) sample_body /\
    Forall (Forall exact_cell) sample_body /\
    run sample_sf always_renders sample_files = (inr o, w) /\
    files w !! cleaned_csv
    = Some (CsvFile sample_header
              (filter (fun line => complete_on cols_of_interest
                                     (list_to_map (zip sample_header line)) = true)
                      sample_body)).
Proof.
  destruct (succeeded_inr (run sample_sf always_renders sample_files))
    as (o & w & E); [vm_compute; reflexivity|].
  assert (sample_files !! input_path = Some (CsvFile sample_header sample_body))
    as H1 by apply lookup_singleton_eq.
  assert (NoDup sample_header) as H2 by in_list.
  assert (EmptyString ∉ sample_header) as H2' by in_list.
  assert (Forall (fun line => length line = length sample_header) sample_body)
    as H3 by in_list.
  assert (Forall (Forall exact_cell) sample_body) as H4 by in_list.
  exists o, w. split; [exact H1|]. split; [exact H2|]. split; [exact H2'|].
  split; [exact H3|]. split; [exact H4|]. split; [exact E|].
  exact (cleaned_csv_is_input_without_incomplete_lines
           sample_sf always_renders sample_files sample_header sample_body o w
           H1 H2 H2' H3 H4 E).
Defined.

(** ** What a successful run leaves behind (lines 45-144) *)

Lemma makedirs_inr path w u w' :
  makedirs path w = (inr u, w') -> files w' !! path = Some Directory.
Proof.
  unfold makedirs. intros [_ Hall]%mkdirs_inr.
  apply Hall, elem_of_app. right. by left.
Qed.

Lemma plot_inr renders name c w u w' :
  plot renders name c w = (inr u, w') ->
  renders c = true /\ files w' !! path_join out_dir name = Some (PngFile c).
Proof.
  unfold plot. destruct (renders c); [|discriminate].
  intros [_ ->]%write_file_inr. split; [done|]. apply lookup_insert_eq.
Qed.

(** A chart that is saved stays in place while the rest of the program
    keeps its path. *)
Lemma plot_then_keep {B} renders name c (k : unit -> M B) w x w' :
  (plot renders name c ≫= k) w = (inr x, w') ->
  (forall u, preserves (same_file (path_join out_dir name)) (k u)) ->
  (renders c = true /\
   files w' !! path_join out_dir name = Some (PngFile c)) /\
  exists w1, k () w1 = (inr x, w').
Proof.
  intros ([] & w1 & [Hr Hp]%plot_inr & Hk)%bind_inr Hkeep.
  split; [|by exists w1]. split; [done|].
  by rewrite (Hkeep () _ _ _ Hk).
Qed.

Lemma plots_inr renders l ft w u w' :
  plots renders l ft w = (inr u, w') ->
  Forall (fun p => exists c, files w' !! p = Some (PngFile c) /\ renders c = true)
         image_files /\
  files w' !! path_join out_dir "top_causes.png"
  = Some (PngFile (Barh "Top contributing causes of accidents (top 15)"
                        (sort_values (counts_cause ft)))).
Proof.
  unfold plots. intros H.
  apply plot_then_keep in H as ([R1 F1] & w1 & H); [|keep_tac].
  apply plot_then_keep in H as ([R2 F2] & w2 & H); [|keep_tac].
  apply plot_then_keep in H as ([R3 F3] & w3 & H); [|keep_tac].
  apply plot_then_keep in H as ([R4 F4] & w4 & H); [|keep_tac].
  apply bind_inr in H as (a & w5 & (_ & _ & _ & _ & _ & ->)%getitem_inr & H).
  apply bind_inr in H as (b & w6 & (_ & _ & _ & _ & _ & ->)%getitem_inr & H).
  apply plot_then_keep in H as ([R5 F5] & w7 & H); [|keep_tac].
  apply bind_inr in H as (a' & w8 & (_ & _ & _ & _ & _ & ->)%getitem_inr & H).
  apply bind_inr in H as (b' & w9 & (_ & _ & _ & _ & _ & ->)%getitem_inr & H).
  apply plot_inr in H as [R6 F6].
  split; [|exact F4].
  unfold image_files. cbn [map].
  repeat (apply Forall_cons_2; [eexists; split; eassumption|]).
  apply Forall_nil_2.
Qed.

Lemma run_tests_keys chi2_sf l vars w ts w' :
  run_tests chi2_sf l vars w = (inr ts, w') -> ts.*1 = vars.
Proof.
  revert ts w w'.
  induction vars as [|var rest IH]; intros ts w w'; cbn [run_tests].
  - by intros [<- _]%mret_inr.
  - intros (t & w1 & _ & H)%bind_inr.
    apply bind_inr in H as (ts' & w2 & H2 & H).
    apply mret_inr in H as [<- _]. cbn [fmap list_fmap fst]. f_equal.
    by eapply IH.
Qed.

(** X11.  A run that succeeds leaves the complete set of outputs behind:
    the output directory, each of the six image files holding a chart that
    was drawn, the cleaned CSV, and the summary with one line for each of
    the four tested variables in the order of the loop.  No later step
    overwrites or removes what an earlier one saved. *)
Theorem successful_run_leaves_all_outputs chi2_sf renders fs o w :
  run chi2_sf renders fs = (inr o, w) ->
  files w !! out_dir = Some Directory /\
  Forall (fun p => exists c, files w !! p = Some (PngFile c) /\ renders c = true)
         image_files /\
  (exists header body, files w !! cleaned_csv = Some (CsvFile header body)) /\
  files w !! summary_csv = Some (SummaryFile (v_tests o)) /\
  (v_tests o).*1 = tested_variables.
Proof.
  intros Hrun. unfold run in Hrun.
  destruct (analysis_exports _ _ _ _ _ Hrun) as (header & body & Hc & Hs).
  apply analysis_inr in Hrun as (w1 & w2 & w3 & w4 & w5 & w6 &
                              H1 & H2 & H3 & H4 & H5 & H6 & H7).
  assert (forall p, p <> cleaned_csv -> p <> summary_csv ->
                    files w !! p = files w5 !! p) as Hlate.
  { intros p Hpc Hps.
    rewrite (same_file_export p _ _ Hpc Hps _ _ _ H7).
    by rewrite (same_files_run_tests _ _ _ _ _ _ H6). }
  split; [|split; [|split; [|split]]].
  - rewrite Hlate by paths_differ.
    rewrite (same_file_plots renders out_dir _ _ ltac:(in_list) _ _ _ H5).
    by eapply makedirs_inr.
  - apply plots_inr in H5 as [H5 _].
    apply Forall_forall. intros p Hp.
    pose proof (proj1 (Forall_forall _ _) H5 p Hp) as (c & Hf & Hr).
    exists c. split; [|done]. rewrite <- Hf. apply Hlate.
    + intros ->. revert Hp. in_list.
    + intros ->. revert Hp. in_list.
  - by exists header, body.
  - done.
  - by eapply run_tests_keys.
Qed.

Lemma successful_run_leaves_all_outputs_witness :
  exists o w,
    run sample_sf always_renders sample_files = (inr o, w) /\
    files w !! out_dir = Some Directory /\
    Forall (fun p => exists c, files w !! p = Some (PngFile c) /\
                               always_renders c = true) image_files /\
    (exists header body, files w !! cleaned_csv = Some (CsvFile header body)) /\
    files w !! summary_csv = Some (SummaryFile (v_tests o)) /\
    (v_tests o).*1 = tested_variables.
Proof.
  destruct (succeeded_inr (run sample_sf always_renders sample_files))
    as (o & w & E); [vm_compute; reflexivity|].
  exists o, w. split; [exact E|].
  exact (successful_run_leaves_all_outputs sample_sf always_renders
           sample_files o w E).
Defined.

Lemma sort_values_ascending (t : list (cell * nat)) :
  StronglySorted less_frequent (sort_values t) /\ sort_values t ≡ₚ t.
Proof.
  split; [|apply stable_sort_Permutation].
  apply StronglySorted_stable_sort.
  - intros a b c. unfold less_frequent. lia.
  - intros a b. unfold less_frequent. lia.
Qed.

(** X12.  The chart of the top causes that a successful run saves is drawn
    from the causes kept in [counts_cause], each with its count, put in
    ascending order of count (line 90 sorts the table that [head(15)] left
    in descending order), so the chart has at most fifteen bars. *)
Theorem top_causes_chart_is_ascending chi2_sf renders fs o w :
  run chi2_sf renders fs = (inr o, w) ->
  exists data,
    files w !! path_join out_dir "top_causes.png"
    = Some (PngFile (Barh "Top contributing causes of accidents (top 15)" data)) /\
    data ≡ₚ counts_cause (v_counts o) /\
    StronglySorted less_frequent data /\
    length data <= 15.
Proof.
  intros Hrun. unfold run in Hrun.
  apply analysis_inr in Hrun as (w1 & w2 & w3 & w4 & w5 & w6 &
                              H1 & H2 & H3 & H4 & H5 & H6 & H7).
  exists (sort_values (counts_cause (v_counts o))).
  destruct (sort_values_ascending (counts_cause (v_counts o))) as [Hs Hp].
  split; [|split; [done|split; [done|]]].
  - assert (path_join out_dir "top_causes.png" <> cleaned_csv) as Hc
      by paths_differ.
    assert (path_join out_dir "top_causes.png" <> summary_csv) as Hs'
      by paths_differ.
    rewrite (same_file_export _ _ _ Hc Hs' _ _ _ H7).
    rewrite (same_files_run_tests _ _ _ _ _ _ H6).
    by apply plots_inr in H5 as [_ H5].
  - rewrite Hp.
    unfold frequency_tables in H3.
    repeat (apply bind_inr in H3 as (? & ? & _ & H3)).
    apply mret_inr in H3 as [<- _]. cbn [counts_cause].
    unfold head. rewrite length_take. lia.
Qed.

Lemma top_causes_chart_is_ascending_witness :
  exists o w,
    run sample_sf always_renders ranked_causes_files = (inr o, w) /\
    exists data,
      files w !! path_join out_dir "top_causes.png"
      = Some (PngFile (Barh "Top contributing causes of accidents (top 15)" data)) /\
      data ≡ₚ counts_cause (v_counts o) /\
      StronglySorted less_frequent data /\
      length data <= 15.
Proof.
  destruct (succeeded_inr (run sample_sf always_renders ranked_causes_files))
    as (o & w & E); [vm_compute; reflexivity|].
  exists o, w. split; [exact E|].
  exact (top_causes_chart_is_ascending sample_sf always_renders
           ranked_causes_files o w E).
Defined.

(** ** The normalised table holds proportions (line 101) *)

(** X13.  Every entry of the row-normalised table is a finite number
    between 0 and 1: the division never leaves an infinity behind, and the
    NaN of a row without counts is replaced by 0. *)
Theorem normalized_entries_are_proportions (m : list (list nat)) row x :
  row ∈ normalize_rows m -> x ∈ row ->
  exists q, x = Fin q /\ (Q2Qc 0 <= q)%Qc /\ (q <= Q2Qc 1)%Qc.
Proof.
  rewrite normalize_rows_map.
  intros (r & -> & Hr)%list_elem_of_fmap (n & -> & Hn)%list_elem_of_fmap.
  destruct (decide (sum_list r = 0)) as [Hs|Hs].
  - rewrite Hs, (sum_list_0 r n Hs Hn), normalized_entry_zero_sum.
    exists (Q2Qc 0). split; [done|]. split; [apply Qcle_refl|done].
  - rewrite (normalized_entry n _ Hs).
    eexists. split; [done|].
    apply round53_unit; apply Qc_div_bounds.
    all: first [ apply (qn_le 0); lia | apply (qn_lt 0); lia
               | apply qn_le; apply (sum_list_with_in n id r Hn) ].
Qed.

Lemma normalized_entries_are_proportions_witness :
  [Fin (Q2Qc (1 # 4)); Fin (Q2Qc (3 # 4))] ∈ normalize_rows [[1; 3]; [0; 0]] /\
  Fin (Q2Qc (1 # 4)) ∈ [Fin (Q2Qc (1 # 4)); Fin (Q2Qc (3 # 4))] /\
  exists q, Fin (Q2Qc (1 # 4)) = Fin q /\ (Q2Qc 0 <= q)%Qc /\ (q <= Q2Qc 1)%Qc.
Proof.
  assert ([Fin (Q2Qc (1 # 4)); Fin (Q2Qc (3 # 4))]
          ∈ normalize_rows [[1; 3]; [0; 0]]) as H1 by in_list.
  assert (Fin (Q2Qc (1 # 4)) ∈ [Fin (Q2Qc (1 # 4)); Fin (Q2Qc (3 # 4))]) as H2
    by in_list.
  split; [exact H1|]. split; [exact H2|].
  exact (normalized_entries_are_proportions _ _ _ H1 H2).
Defined.

(** ** The recorded statistic (lines 130-133) *)

(** X14.  When the contingency table of a variable has a single row or a
    single column (the variable, or the severity, takes one value only in
    the cleaned data), the result recorded for it is a statistic of 0 with
    0 degrees of freedom and a p-value of 1, whatever the distribution
    function: the library returns these without consulting it. *)
Theorem single_category_gives_zero_statistic chi2_sf l var w tr w' :
  run_chi2 chi2_sf l var w = (inr tr, w') ->
  (t_table_shape tr).1 = 1 \/ (t_table_shape tr).2 = 1 ->
  t_chi2 tr = fzero /\ t_p_value tr = fone /\ t_dof tr = 0%Z.
Proof.
  intros (a & b & res & _ & _ & Hres & -> & _)%run_chi2_inr Hone.
  cbn [t_table_shape t_chi2 t_p_value t_dof] in *.
  apply (chi2_contingency_inr chi2_sf _ res (crosstab_ok a b)) in Hres
    as (_ & Hdof & _ & _ & H0 & _).
  assert (dof res = 0%Z) as E0 by (rewrite Hdof; destruct Hone as [->| ->]; lia).
  destruct (H0 E0) as [-> ->]. done.
Qed.

Lemma single_category_gives_zero_statistic_witness :
  exists tr w',
    run_chi2 sample_sf sample_df_clean "Road_surface_type" sample_clean_world
    = (inr tr, w') /\
    ((t_table_shape tr).1 = 1 \/ (t_table_shape tr).2 = 1) /\
    t_chi2 tr = fzero /\ t_p_value tr = fone /\ t_dof tr = 0%Z.
Proof.
  destruct (result_of_Some
              (run_chi2 sample_sf sample_df_clean "Road_surface_type"
                        sample_clean_world)
              (TestResult fzero fone 0 (1, 2)))
    as (w' & E); [vm_compute; reflexivity|].
  exists (TestResult fzero fone 0 (1, 2)), w'.
  split; [exact E|]. split; [left; reflexivity|].
  exact (single_category_gives_zero_statistic
           sample_sf sample_df_clean "Road_surface_type" sample_clean_world
           (TestResult fzero fone 0 (1, 2)) w' E (or_introl eq_refl)).
Defined.

Lemma Qc_mult_nonneg (a b : Qc) :
  (Q2Qc 0 <= a)%Qc -> (Q2Qc 0 <= b)%Qc -> (Q2Qc 0 <= a * b)%Qc.
Proof.
  unfold Qcle, Qcmult. simpl. rewrite !Qred_correct.
  apply Qmult_le_0_compat.
Qed.

Lemma Qc_square_nonneg (d : Qc) : (Q2Qc 0 <= d * d)%Qc.
Proof.
  destruct (Qclt_le_dec d (Q2Qc 0)) as [Hneg|Hpos].
  - replace (d * d)%Qc with ((- d) * (- d))%Qc by ring.
    assert (Q2Qc 0 <= - d)%Qc as Hd.
    { apply Qclt_le_weak in Hneg. apply Qcopp_le_compat in Hneg.
      by replace (- Q2Qc 0)%Qc with (Q2Qc 0) in Hneg by ring. }
    by apply Qc_mult_nonneg.
  - by apply Qc_mult_nonneg.
Qed.

Lemma fsum_finite_nonneg (l : list fval) :
  Forall (fun x => exists q, x = Fin q /\ (Q2Qc 0 <= q)%Qc) l ->
  exists q, fsum l = Fin q /\ (Q2Qc 0 <= q)%Qc.
Proof.
  induction 1 as [|x l (q & -> & Hq) _ (s & IH & Hs)].
  - exists (Q2Qc 0). split; [done|apply Qcle_refl].
  - cbn [fsum foldr]. fold (fsum l). rewrite IH. cbn [fadd].
    eexists. split; [done|].
    replace (Q2Qc 0) with (Q2Qc 0 + Q2Qc 0)%Qc by ring.
    by apply Qcplus_le_compat.
Qed.

Lemma pearson_term_nonneg (o e : Qc) :
  (Q2Qc 0 < e)%Qc ->
  exists q, pearson_term (Fin o) (Fin e) = Fin q /\ (Q2Qc 0 <= q)%Qc.
Proof.
  intros He. unfold pearson_term, fsub. cbn [fneg fadd fmul fdiv].
  unfold Qc_is_zero. rewrite bool_decide_eq_false_2.
  - eexists. split; [done|]. apply Qc_div_nonneg; [|done].
    apply Qc_square_nonneg.
  - intros ->. by apply Qclt_not_le in He; apply He, Qcle_refl.
Qed.

Lemma yates_cell_finite (o e : Qc) : exists y, yates_cell (Fin o) (Fin e) = Fin y.
Proof.
  unfold yates_cell, fsub, fhalf. cbn [fneg fadd fabs fmin fsign].
  destruct (Qc_is_zero _); [by eexists|].
  destruct (Qc_pos (e + - o)); by eexists.
Qed.

Lemma expected_cell_positive (t : table) i j :
  0 < grand_total t ->
  is_zero (expected_cell t i j) = false ->
  exists e, expected_cell t i j = Fin e /\ (Q2Qc 0 < e)%Qc.
Proof.
  intros HN. unfold expected_cell, of_nat. cbn [fmul fdiv].
  rewrite qn_is_zero, bool_decide_eq_false_2 by lia. cbn [is_zero].
  intros Hz. eexists. split; [done|].
  destruct (Qcle_lt_or_eq (Q2Qc 0)
              (qn (row_total t i) * qn (col_total t j) / qn (grand_total t)))
    as [Hlt|Heq]; [|done|].
  - apply Qc_div_nonneg.
    + apply Qc_mult_nonneg; apply (qn_le 0); lia.
    + by apply (qn_lt 0).
  - unfold Qc_is_zero in Hz. by apply bool_decide_eq_false_1 in Hz.
Qed.

Lemma sum_over_cells_nonneg (t : table) (term : nat -> nat -> fval) :
  (forall i j, i < (shape t).1 -> j < (shape t).2 ->
               exists q, term i j = Fin q /\ (Q2Qc 0 <= q)%Qc) ->
  exists q, sum_over_cells t term = Fin q /\ (Q2Qc 0 <= q)%Qc.
Proof.
  intros H. unfold sum_over_cells.
  apply fsum_finite_nonneg, Forall_concat, Forall_forall.
  intros row (i & -> & Hi%elem_of_seq)%list_elem_of_fmap.
  apply Forall_forall. intros x (j & -> & Hj%elem_of_seq)%list_elem_of_fmap.
  apply H; lia.
Qed.

(** X15.  Every statistic the tester records for a variable of the cleaned
    data is a finite number that is not negative: on a table built from
    the cleaned rows the sum has no term that is NaN or infinite, with or
    without the continuity correction.  (The sum is computed exactly;
    rounding is not modelled.) *)
Theorem recorded_statistic_is_finite chi2_sf path w0 df w mb l' w' var tr w'' :
  read_csv path w0 = (inr df, w) ->
  cleaning df w = (inr (mb, l'), w') ->
  run_chi2 chi2_sf l' var w' = (inr tr, w'') ->
  exists q, t_chi2 tr = Fin q /\ (Q2Qc 0 <= q)%Qc.
Proof.
  intros (header & body & _ & Hdf & _)%read_csv_inr Hclean
         (a & b & res & Ha & Hb & Hres & -> & _)%run_chi2_inr.
  pose proof Hclean as (f & fc & Hf & _ & Hfc & _)%cleaning_result.
  assert (f = frame_of_csv header body) as -> by congruence.
  assert (frame_ok fc) as Hok.
  { eapply cleaned_frame_ok; [done..|]. apply frame_of_csv_plain. }
  assert (series_ok b) as Hokb by (by eapply getitem_series_ok).
  apply (chi2_contingency_inr chi2_sf _ res (crosstab_ok a b)) in Hres
    as (Hsize & Hdof & _ & Hnz & H0 & H1 & H2 & _).
  assert (0 < grand_total (crosstab a b)) as HN
    by (apply crosstab_positive; [done|lia]).
  cbn [t_chi2].
  destruct (decide (dof res = 0%Z)) as [E0|E0].
  { destruct (H0 E0) as [-> _]. exists (Q2Qc 0). split; [done|apply Qcle_refl]. }
  destruct (decide (dof res = 1%Z)) as [E1|E1].
  - rewrite (H1 E1). unfold yates_sum. apply sum_over_cells_nonneg.
    intros i j Hi Hj.
    destruct (expected_cell_positive _ i j HN (Hnz i j Hi Hj)) as (e & -> & He).
    unfold of_nat.
    destruct (yates_cell_finite (qn (cell_count (crosstab a b) i j)) e)
      as [y ->].
    by apply pearson_term_nonneg.
  - rewrite (H2 E0 E1). unfold pearson_sum. apply sum_over_cells_nonneg.
    intros i j Hi Hj.
    destruct (expected_cell_positive _ i j HN (Hnz i j Hi Hj)) as (e & -> & He).
    by apply pearson_term_nonneg.
Qed.

Lemma recorded_statistic_is_finite_witness :
  exists df w mb l' w' tr w'',
    read_csv input_path {| heap := ∅; files := sample_files |} = (inr df, w) /\
    cleaning df w = (inr (mb, l'), w') /\
    run_chi2 sample_sf l' "Weather_conditions" w' = (inr tr, w'') /\
    exists q, t_chi2 tr = Fin q /\ (Q2Qc 0 <= q)%Qc.
Proof.
  destruct (succeeded_inr
              ((read_csv input_path ≫= fun df =>
                cleaning df ≫= fun r =>
                run_chi2 sample_sf r.2 "Weather_conditions")
                 {| heap := ∅; files := sample_files |}))
    as (tr & w'' & E); [vm_compute; reflexivity|].
  apply bind_inr in E as (df & w & E1 & E).
  apply bind_inr in E as ([mb l'] & w' & E2 & E3). cbn [snd] in E3.
  exists df, w, mb, l', w', tr, w''.
  split; [exact E1|]. split; [exact E2|]. split; [exact E3|].
  exact (recorded_statistic_is_finite _ _ _ _ _ _ _ _ _ _ _ E1 E2 E3).
Defined.
